(** * es::storage — the entity/component data store

    A shallow embedding of [es/storage.hpp] (class [storage]) and of the
    flatness trait of [ecs/traits.hpp].  Bit sets are numbers of type [N]
    handled with [N.testbit], [N.setbit], [N.clearbit] and [N.land]; the
    per-entity byte vector is a [list byte]; the [unordered_map] of entities
    is an association list whose order is the iteration order of the map;
    every operation is a function on an explicit [storage] state that returns
    either its result or the fault it ran into.

    Sizes and offsets ([size_t]) and entity ids are natural numbers: a
    buffer that fits in memory keeps them far from wrap-around.  The id a
    registration returns is a [uint8_t], and its truncation is written out.

    storage.hpp declares but does not define the constructor, [offset],
    [find], [new_entity], [new_entities], [make], [clone_entity],
    [delete_entity], [remove_component_from_entity], [size] and the
    [check_dirty] family; their definitions are in storage.cpp.  They are
    modelled after the specification of the store, and say so. *)

From Stdlib Require Import NArith Lia String.
From stdpp Require Import base tactics option list.

Local Open Scope nat_scope.

(** ** Faults *)

(** The ways an operation can fail to return.  [Missing_component] is the
    [std::logic_error] thrown by [get]; [Assertion_failed] is a failing
    [assert]; [Out_of_range] is the [std::out_of_range] of [bitset::set];
    [Undefined_behaviour] marks what C++ leaves undefined (dereferencing
    [end()], indexing a vector or a bitset out of range); [Out_of_fuel]
    belongs to the model alone: a scan that was given too few steps. *)
Inductive fault : Type :=
| Missing_component
| Assertion_failed
| Out_of_range
| Undefined_behaviour
| Out_of_fuel.

Inductive result (A : Type) : Type :=
| Ok (a : A)
| Fault (f : fault).
Arguments Ok {A} a.
Arguments Fault {A} f.

Definition bind {A B : Type} (m : result A) (k : A -> result B) : result B :=
  match m with
  | Ok a => k a
  | Fault f => Fault f
  end.

Notation "'let*' x := m 'in' k" := (bind m (fun x => k))
  (at level 10, x pattern, m at level 100, k at level 200).

(** ** std::bitset<64> *)

Definition bitset : Type := N.
Definition bitset_width : nat := 64.

(** [b[pos]]: reading a position past the width is undefined, and is a
    fault here; what compiled code does there is not told by it, and the
    statements about [get] and [set] are about positions below the width. *)
Definition bitset_test (b : bitset) (pos : nat) : result bool :=
  if pos <? bitset_width then Ok (N.testbit b (N.of_nat pos))
  else Fault Undefined_behaviour.

(** [b.set(pos)]: throws [std::out_of_range] past the width. *)
Definition bitset_set (b : bitset) (pos : nat) : result bitset :=
  if pos <? bitset_width then Ok (N.setbit b (N.of_nat pos))
  else Fault Out_of_range.

(** [b.reset(pos)]. *)
Definition bitset_reset (b : bitset) (pos : nat) : result bitset :=
  if pos <? bitset_width then Ok (N.clearbit b (N.of_nat pos))
  else Fault Out_of_range.

(** [(a & b) == b], the test [for_each] makes on a presence mask. *)
Definition includes (a b : bitset) : bool := N.eqb (N.land a b) b.

(** ** Data model *)

Definition byte : Type := Byte.byte.
Definition zero : byte := Byte.x00.

(** An entity id, and a component id: a [uint8_t], of which the numbers
    below 256 are the values. *)
Definition entity : Type := nat.
Definition component_id : Type := nat.

(** The template argument [type] of [register_component], [set], [get] and
    [var_ref], reduced to what the store uses of it: [is_flat<type>::value]
    and the number of bytes its slot takes, [sizeof(type)] for a flat type
    and [sizeof(holder<type>)] otherwise. *)
Record ctype : Type := {
  is_flat : bool;
  storage_size : nat
}.

(** A component descriptor as [register_component] builds it with
    [emplace_back(name, size, prototype)]; [c_prototype] tells whether the
    placeholder pointer is non-null. *)
Record component : Type := {
  c_name : string;
  c_size : nat;
  c_prototype : bool
}.

(** [struct elem]. *)
Record elem : Type := {
  components : bitset;
  dirty : bitset;
  data : list byte
}.

(** Construction and destruction of [holder] objects, recorded as the store
    performs them.  The log is ghost state: it is written, never read. *)
Inductive lifecycle : Type :=
| Constructed (en : entity) (c : component_id)
| Destroyed (en : entity) (c : component_id).

Definition stor_impl : Type := list (entity * elem).

(** The private members of [storage], and the lifecycle log. *)
Record storage : Type := {
  next_id_ : nat;
  components_ : list component;
  entities_ : stor_impl;
  component_offsets_ : list nat;
  flat_mask_ : bitset;
  lifecycle_ : list lifecycle
}.

Definition cache_size : nat := 12.
Definition cache_mask : N := N.shiftl 1 (N.of_nat cache_size) - 1.

(** ** The entity table as an association list *)

(** An iterator is the key of the entry it points to; [None] is [end()]. *)
Definition iterator : Type := option entity.

Fixpoint lookup_entity (k : entity) (l : stor_impl) : option elem :=
  match l with
  | [] => None
  | (k', e) :: l' => if Nat.eqb k' k then Some e else lookup_entity k l'
  end.

Fixpoint update_entity (k : entity) (e : elem) (l : stor_impl) : stor_impl :=
  match l with
  | [] => []
  | (k', e') :: l' =>
      if Nat.eqb k' k then (k', e) :: l' else (k', e') :: update_entity k e l'
  end.

Fixpoint erase_entity (k : entity) (l : stor_impl) : stor_impl :=
  match l with
  | [] => []
  | (k', e') :: l' =>
      if Nat.eqb k' k then l' else (k', e') :: erase_entity k l'
  end.

Fixpoint count_entity (k : entity) (l : stor_impl) : nat :=
  match l with
  | [] => 0
  | (k', _) :: l' => (if Nat.eqb k' k then 1 else 0) + count_entity k l'
  end.

(** [entities_.begin()]. *)
Definition begin_entities (l : stor_impl) : iterator :=
  match l with
  | [] => None
  | (k, _) :: _ => Some k
  end.

(** [std::next(i)] for the iterator at key [k]: the outer [None] is an
    iterator that points to no entry of the table. *)
Fixpoint next_entity (k : entity) (l : stor_impl) : option iterator :=
  match l with
  | [] => None
  | (k', _) :: l' =>
      if Nat.eqb k' k then Some (begin_entities l') else next_entity k l'
  end.

Definition keys (l : stor_impl) : list entity := map fst l.

(** [en->second]. *)
Definition deref (en : iterator) (s : storage) : result (entity * elem) :=
  match en with
  | None => Fault Undefined_behaviour
  | Some k =>
      match lookup_entity k (entities_ s) with
      | Some e => Ok (k, e)
      | None => Fault Undefined_behaviour
      end
  end.

Definition store_elem (k : entity) (e : elem) (s : storage) : storage :=
  {| next_id_ := next_id_ s;
     components_ := components_ s;
     entities_ := update_entity k e (entities_ s);
     component_offsets_ := component_offsets_ s;
     flat_mask_ := flat_mask_ s;
     lifecycle_ := lifecycle_ s |}.

Definition with_entities (l : stor_impl) (s : storage) : storage :=
  {| next_id_ := next_id_ s;
     components_ := components_ s;
     entities_ := l;
     component_offsets_ := component_offsets_ s;
     flat_mask_ := flat_mask_ s;
     lifecycle_ := lifecycle_ s |}.

Definition log_events (evs : list lifecycle) (s : storage) : storage :=
  {| next_id_ := next_id_ s;
     components_ := components_ s;
     entities_ := entities_ s;
     component_offsets_ := component_offsets_ s;
     flat_mask_ := flat_mask_ s;
     lifecycle_ := lifecycle_ s ++ evs |}.

(** ** Component registry *)

(** The loop of [register_component],
    [for (j = i; j != i * 2; ++j) offsets[j] = offsets[j-i] + size],
    run for [n] more rounds from index [j]. *)
Fixpoint fill_offsets (i sz n j : nat) (v : list nat) : list nat :=
  match n with
  | 0 => v
  | S n' => fill_offsets i sz n' (S j) (<[j := nth (j - i) v 0 + sz]> v)
  end.

(** [resize(i * 2)] followed by the loop. *)
Definition extend_offsets (sz : nat) (v : list nat) : list nat :=
  let i := length v in
  fill_offsets i sz i i (resize (i * 2) 0 v).

(** [storage::register_component<type>(name)]. *)
Definition register_component (ty : ctype) (nm : string) (s : storage)
  : result (component_id * storage) :=
  let* fm := (if is_flat ty then Ok (flat_mask_ s)
              else bitset_set (flat_mask_ s) (length (components_ s))) in
  let sz := storage_size ty in
  let comps :=
    components_ s
      ++ [{| c_name := nm; c_size := sz; c_prototype := negb (is_flat ty) |}] in
  let offs :=
    if length comps <? cache_size
    then extend_offsets sz (component_offsets_ s)
    else component_offsets_ s in
  Ok ((length comps - 1) mod 256,
      {| next_id_ := next_id_ s;
         components_ := comps;
         entities_ := entities_ s;
         component_offsets_ := offs;
         flat_mask_ := fm;
         lifecycle_ := lifecycle_ s |}).

(** [components_[id].size()], 0 where there is no descriptor. *)
Definition component_size (comps : list component) (id : component_id) : nat :=
  match comps !! id with
  | Some c => c_size c
  | None => 0
  end.

(** Modelled from the spec: the constructor [storage::storage()], which is
    defined in storage.cpp.  The table starts empty, ids start at 0, and the
    offset cache starts with the one entry of the empty presence mask, the
    offset 0, which the doubling of [register_component] extends. *)
Definition storage_init : storage :=
  {| next_id_ := 0;
     components_ := [];
     entities_ := [];
     component_offsets_ := [0];
     flat_mask_ := 0%N;
     lifecycle_ := [] |}.

(** ** Offset resolver *)

(** Modelled from the spec: the scan of [storage::offset] (storage.cpp), the
    sum of [storage_size] of every present component with an id below the
    queried one, in ascending order. *)
Fixpoint scan_offset (comps : list component) (present : bitset)
    (c : component_id) : nat :=
  match c with
  | 0 => 0
  | S c' =>
      scan_offset comps present c'
      + (if N.testbit present (N.of_nat c') then component_size comps c' else 0)
  end.

(** Modelled from the spec: the index of the cache lookup of
    [storage::offset] (storage.cpp).  The table [register_component] builds
    holds, at the index of a mask, the sum of the sizes of the components
    of the mask; the cumulative offset of a component is therefore looked
    up under the presence bits, restricted to ids 0-11, of the ids below
    it. *)
Definition cache_index (present : bitset) (c : component_id) : nat :=
  N.to_nat (N.land (N.land present (N.ones (N.of_nat c))) cache_mask).

(** Modelled from the spec: the cache lookup of [storage::offset]
    (storage.cpp); an index past the end of the vector is undefined. *)
Definition cached_offset (s : storage) (present : bitset) (c : component_id)
  : result nat :=
  match component_offsets_ s !! cache_index present c with
  | Some off => Ok off
  | None => Fault Undefined_behaviour
  end.

(** Modelled from the spec: [storage::offset(e, c)] (storage.cpp), the cache
    for an id below 12 and the scan otherwise. *)
Definition offset (s : storage) (e : elem) (c : component_id) : result nat :=
  if c <? cache_size then cached_offset s (components e) c
  else Ok (scan_offset (components_ s) (components e) c).

(** ** Entity table *)

(** [storage::exists(en)], [entities_.count(en)] converted to [bool]. *)
Definition exists_ (s : storage) (en : entity) : bool :=
  negb (Nat.eqb (count_entity en (entities_ s)) 0).

(** Modelled from the spec: [storage::find(en)] (storage.cpp), the handle of
    the entity or [end()] when it is absent. *)
Definition find (s : storage) (en : entity) : iterator :=
  match lookup_entity en (entities_ s) with
  | Some _ => Some en
  | None => None
  end.

(** Modelled from the spec: [storage::size()] (storage.cpp). *)
Definition size_ (s : storage) : nat := length (entities_ s).

Definition empty_elem : elem :=
  {| components := 0%N; dirty := 0%N; data := [] |}.

(** [entities_[id]] used for its effect: get or create the record. *)
Definition get_or_create (id : entity) (l : stor_impl) : stor_impl :=
  match lookup_entity id l with
  | Some _ => l
  | None => l ++ [(id, empty_elem)]
  end.

Definition with_table (n : nat) (l : stor_impl) (s : storage) : storage :=
  {| next_id_ := n;
     components_ := components_ s;
     entities_ := l;
     component_offsets_ := component_offsets_ s;
     flat_mask_ := flat_mask_ s;
     lifecycle_ := lifecycle_ s |}.

(** Modelled from the spec: [storage::new_entity()] (storage.cpp), which
    allocates the next unused id and creates an empty record. *)
Definition new_entity (s : storage) : entity * storage :=
  (next_id_ s,
   with_table (S (next_id_ s)) (get_or_create (next_id_ s) (entities_ s)) s).

(** Modelled from the spec: [storage::new_entities(count)] (storage.cpp),
    a contiguous range [first, last) of ids with empty records. *)
Fixpoint new_entities (count : nat) (s : storage) : (entity * entity) * storage :=
  match count with
  | 0 => ((next_id_ s, next_id_ s), s)
  | S n =>
      let '(first, s1) := new_entity s in
      let '((_, last), s2) := new_entities n s1 in
      ((first, last), s2)
  end.

(** Modelled from the spec: [storage::make(id)] (storage.cpp), get or create
    the record of a given id.  The counter is kept above the id, so that
    the id [new_entity] hands out next is unused, as the spec has it. *)
Definition make (id : entity) (s : storage) : iterator * storage :=
  (Some id,
   with_table (Nat.max (next_id_ s) (S id)) (get_or_create id (entities_ s)) s).

(** The registry's record of a component being non-flat: the bit that
    [register_component] sets in [flat_mask_]. *)
Definition non_flat (s : storage) (c : component_id) : bool :=
  N.testbit (flat_mask_ s) (N.of_nat c).

(** The ids below [n] that are present in [e] and non-flat, ascending. *)
Definition held_components (s : storage) (e : elem) (n : nat)
  : list component_id :=
  filter (fun c => N.testbit (components e) (N.of_nat c) && non_flat s c = true)
         (seq 0 n).

(** Modelled from the spec: [storage::clone_entity(f)] (storage.cpp): the
    masks and the whole buffer are copied into a record with a new id, and
    every present non-flat slot gets a holder of its own. *)
Definition clone_entity (f : iterator) (s : storage) : result (entity * storage) :=
  let* (_, e) := deref f s in
  let id := next_id_ s in
  let held := held_components s e (length (components_ s)) in
  Ok (id,
      log_events (map (Constructed id) held)
        (with_table (S id) (entities_ s ++ [(id, e)]) s)).

(** Modelled from the spec: [storage::delete_entity(iterator)] (storage.cpp):
    the held value of every present non-flat slot is destroyed, then the
    record is removed. *)
Definition delete_entity_at (f : iterator) (s : storage) : result storage :=
  let* (k, e) := deref f s in
  let held := held_components s e (length (components_ s)) in
  Ok (log_events (map (Destroyed k) held)
        (with_entities (erase_entity k (entities_ s)) s)).

(** Modelled from the spec: [storage::delete_entity(entity)] (storage.cpp),
    which tells whether the entity existed. *)
Definition delete_entity (en : entity) (s : storage) : result (bool * storage) :=
  match find s en with
  | None => Ok (false, s)
  | Some k => let* s' := delete_entity_at (Some k) s in Ok (true, s')
  end.

(** Modelled from the spec: [storage::remove_component_from_entity(en, c)]
    (storage.cpp): the presence and dirty bits of [c] are cleared, a held
    value is destroyed, and the bytes of the slot are cut out of the buffer,
    the bytes after it moving left.  An absent component has no slot, and
    the record is left as it is. *)
Definition remove_component_from_entity (en : iterator) (c : component_id)
    (s : storage) : result storage :=
  let* (k, e) := deref en s in
  let* present := bitset_test (components e) c in
  if negb present then Ok s else
  let* off := offset s e c in
  let csize := component_size (components_ s) c in
  let* comps := bitset_reset (components e) c in
  let* dirt := bitset_reset (dirty e) c in
  let e' := {| components := comps;
               dirty := dirt;
               data := take off (data e) ++ drop (off + csize) (data e) |} in
  Ok (log_events (if non_flat s c then [Destroyed k c] else [])
        (store_elem k e' s)).

(** ** Set and get *)

(** Placement of the object representation [val] at [off]: the bytes of the
    buffer from [off] on are overwritten; writing past the end is
    undefined. *)
Definition write_at (off : nat) (val : list byte) (d : list byte)
  : result (list byte) :=
  if off + length val <=? length d
  then Ok (take off d ++ val ++ drop (off + length val) d)
  else Fault Undefined_behaviour.

(** The bytes an object of [n] bytes at [off] is read from. *)
Definition read_at (off n : nat) (d : list byte) : result (list byte) :=
  if off + n <=? length d
  then Ok (take n (drop off d))
  else Fault Undefined_behaviour.

(** The constructor call of a placement [new (ptr) holder<type>(...)]. *)
Definition construct (ty : ctype) (k : entity) (c : component_id)
  : list lifecycle :=
  if is_flat ty then [] else [Constructed k c].

(** Making room for the slot of an absent component: [resize] when the
    buffer ends before the offset, [insert] of zero bytes otherwise. *)
Definition grown (e : elem) (off csize : nat) : list byte :=
  if length (data e) <? off
  then resize (off + csize) zero (data e)
  else take off (data e) ++ replicate csize zero ++ drop off (data e).

(** [storage::set<type>(iterator en, c_id, val)]. *)
Definition set (ty : ctype) (en : iterator) (c_id : component_id)
    (val : list byte) (s : storage) : result storage :=
  if negb (c_id <? length (components_ s)) then Fault Assertion_failed else
  let csize := component_size (components_ s) c_id in
  let* (k, e) := deref en s in
  let* off := offset s e c_id in
  let* present := bitset_test (components e) c_id in
  let* e1 :=
    (if negb present then
       let d := grown e off csize in
       let* comps := bitset_set (components e) c_id in
       Ok {| components := comps; dirty := dirty e; data := d |}
     else Ok e) in
  if negb (off + storage_size ty <=? length (data e1))
  then Fault Assertion_failed else
  let* d2 := write_at off val (data e1) in
  let* dirt := bitset_set (dirty e1) c_id in
  Ok (log_events (construct ty k c_id)
        (store_elem k {| components := components e1;
                         dirty := dirt;
                         data := d2 |} s)).

(** [storage::set<type>(entity en, c_id, val)]. *)
Definition set_entity (ty : ctype) (en : entity) (c_id : component_id)
    (val : list byte) (s : storage) : result storage :=
  set ty (find s en) c_id val s.

(** A [const type&] into the buffer of an entity. *)
Record reference : Type := {
  ref_entity : entity;
  ref_offset : nat;
  ref_type : ctype
}.

(** The private [storage::get<type>(const elem& e, c_id)]. *)
Definition get_elem (ty : ctype) (s : storage) (k : entity) (e : elem)
    (c_id : component_id) : result reference :=
  let* off := offset s e c_id in
  Ok {| ref_entity := k; ref_offset := off; ref_type := ty |}.

(** [storage::get<type>(const_iterator en, c_id)]. *)
Definition get (ty : ctype) (en : iterator) (c_id : component_id)
    (s : storage) : result reference :=
  let* (k, e) := deref en s in
  let* present := bitset_test (components e) c_id in
  if negb present then Fault Missing_component
  else get_elem ty s k e c_id.

(** [storage::get<type>(entity en, c_id)]. *)
Definition get_entity (ty : ctype) (en : entity) (c_id : component_id)
    (s : storage) : result reference :=
  get ty (find s en) c_id s.

(** Reading the value a reference designates. *)
Definition read (r : reference) (s : storage) : result (list byte) :=
  let* (_, e) := deref (Some (ref_entity r)) s in
  read_at (ref_offset r) (storage_size (ref_type r)) (data e).

(** ** Typed accessor *)

(** [class var_ref<type>]: [e_] is the key of the record it refers to. *)
Record var_ref : Type := {
  offset_ : nat;
  e_ : entity;
  component_ : component_id;
  type_ : ctype
}.

(** [var_ref::touch()]. *)
Definition touch (r : var_ref) (s : storage) : result storage :=
  let* (k, e) := deref (Some (e_ r)) s in
  let* dirt := bitset_set (dirty e) (component_ r) in
  Ok (store_elem k {| components := components e;
                      dirty := dirt;
                      data := data e |} s).

(** [var_ref::operator const type& ()] and [var_ref::get()]. *)
Definition var_ref_get (r : var_ref) (s : storage) : result (list byte) :=
  let* (_, e) := deref (Some (e_ r)) s in
  read_at (offset_ r) (storage_size (type_ r)) (data e).

(** [var_ref::operator=(assign)]: a placement [new] of the value, or of a
    holder of it, at the offset, then [touch()].  Nothing is destroyed. *)
Definition var_ref_assign (r : var_ref) (val : list byte) (s : storage)
  : result storage :=
  let* (k, e) := deref (Some (e_ r)) s in
  let* d := write_at (offset_ r) val (data e) in
  let s1 := log_events (construct (type_ r) k (component_ r))
              (store_elem k {| components := components e;
                               dirty := dirty e;
                               data := d |} s) in
  touch r s1.

(** [var_ref::operator+=], [-=], [*=] and [/=]: the value is changed in
    place by the arithmetic [f] of its type, then [touch()]. *)
Definition var_ref_update (r : var_ref) (f : list byte -> list byte)
    (s : storage) : result storage :=
  let* old := var_ref_get r s in
  let* (k, e) := deref (Some (e_ r)) s in
  let* d := write_at (offset_ r)
              (resize (storage_size (type_ r)) zero (f old)) (data e) in
  touch r (store_elem k {| components := components e;
                           dirty := dirty e;
                           data := d |} s).

(** ** Iteration *)

(** The loop shared by the three overloads of [for_each]:
    [for (i = begin(); i != end(); ) { next = std::next(i); ...; i = next; }].
    [visit] is the call of [func] on a record that has the components of
    [mask]; [visited] collects the entities it was called on. *)
Fixpoint scan_entities (fuel : nat) (mask : bitset)
    (visit : entity -> elem -> storage -> result storage)
    (i : iterator) (s : storage) (visited : list entity)
  : result (storage * list entity) :=
  match i with
  | None => Ok (s, visited)
  | Some k =>
      match fuel with
      | 0 => Fault Out_of_fuel
      | S fuel' =>
          match next_entity k (entities_ s), lookup_entity k (entities_ s) with
          | Some next, Some e =>
              if includes (components e) mask
              then let* s' := visit k e s in
                   scan_entities fuel' mask visit next s' (visited ++ [k])
              else scan_entities fuel' mask visit next s visited
          | _, _ => Fault Undefined_behaviour
          end
      end
  end.

Definition make_var_ref (off : nat) (k : entity) (c : component_id)
    (t : ctype) : var_ref :=
  {| offset_ := off; e_ := k; component_ := c; type_ := t |}.

(** [storage::for_each<t>(c, func)]. *)
Definition for_each (t : ctype) (c : component_id)
    (func : iterator -> var_ref -> storage -> result storage)
    (s : storage) : result (storage * list entity) :=
  let* mask := bitset_set 0%N c in
  scan_entities (length (entities_ s)) mask
    (fun k e s' =>
       let* off := offset s' e c in
       func (Some k) (make_var_ref off k c t) s')
    (begin_entities (entities_ s)) s [].

(** [storage::for_each<t1, t2>(c1, c2, func)]. *)
Definition for_each2 (t1 t2 : ctype) (c1 c2 : component_id)
    (func : iterator -> var_ref -> var_ref -> storage -> result storage)
    (s : storage) : result (storage * list entity) :=
  let* m1 := bitset_set 0%N c1 in
  let* mask := bitset_set m1 c2 in
  scan_entities (length (entities_ s)) mask
    (fun k e s' =>
       let* off1 := offset s' e c1 in
       let* off2 := offset s' e c2 in
       func (Some k) (make_var_ref off1 k c1 t1) (make_var_ref off2 k c2 t2) s')
    (begin_entities (entities_ s)) s [].

(** [storage::for_each<t1, t2, t3>(c1, c2, c3, func)]. *)
Definition for_each3 (t1 t2 t3 : ctype) (c1 c2 c3 : component_id)
    (func : iterator -> var_ref -> var_ref -> var_ref -> storage
            -> result storage)
    (s : storage) : result (storage * list entity) :=
  let* m1 := bitset_set 0%N c1 in
  let* m2 := bitset_set m1 c2 in
  let* mask := bitset_set m2 c3 in
  scan_entities (length (entities_ s)) mask
    (fun k e s' =>
       let* off1 := offset s' e c1 in
       let* off2 := offset s' e c2 in
       let* off3 := offset s' e c3 in
       func (Some k) (make_var_ref off1 k c1 t1) (make_var_ref off2 k c2 t2)
            (make_var_ref off3 k c3 t3) s')
    (begin_entities (entities_ s)) s [].

(** ** Dirty tracking *)

(** Modelled from the spec: [storage::check_dirty(en)] (storage.cpp), whether
    any dirty bit is set. *)
Definition check_dirty (en : iterator) (s : storage) : result bool :=
  let* (_, e) := deref en s in
  Ok (negb (N.eqb (dirty e) 0)).

(** Modelled from the spec: [storage::check_dirty_and_clear(en)]
    (storage.cpp), the same, after which the whole dirty mask is cleared. *)
Definition check_dirty_and_clear (en : iterator) (s : storage)
  : result (bool * storage) :=
  let* (k, e) := deref en s in
  Ok (negb (N.eqb (dirty e) 0),
      store_elem k {| components := components e;
                      dirty := 0%N;
                      data := data e |} s).

(** Modelled from the spec: [storage::check_dirty_flag(en, c_id)]
    (storage.cpp), the dirty bit of one component. *)
Definition check_dirty_flag (en : iterator) (c_id : component_id)
    (s : storage) : result bool :=
  let* (_, e) := deref en s in
  bitset_test (dirty e) c_id.

(** Modelled from the spec: [storage::check_dirty_flag_and_clear(en, c_id)]
    (storage.cpp), the dirty bit of one component, which is then cleared. *)
Definition check_dirty_flag_and_clear (en : iterator) (c_id : component_id)
    (s : storage) : result (bool * storage) :=
  let* (k, e) := deref en s in
  let* b := bitset_test (dirty e) c_id in
  let* dirt := bitset_reset (dirty e) c_id in
  Ok (b, store_elem k {| components := components e;
                         dirty := dirt;
                         data := data e |} s).

(** ** Raw data *)

(** [storage::get_raw_data(en)]. *)
Definition get_raw_data (en : iterator) (s : storage)
  : result (bitset * list byte) :=
  let* (_, e) := deref en s in
  Ok (components e, data e).

(** [storage::set_raw_data(en, components, data)], both overloads. *)
Definition set_raw_data (en : iterator) (comps : bitset) (d : list byte)
    (s : storage) : result storage :=
  let* (k, e) := deref en s in
  Ok (store_elem k {| components := comps; dirty := dirty e; data := d |} s).

(** ** Programs over the public interface *)

(** What a callback of [for_each] does with the entity it is handed: leave
    it, assign through the accessor, update in place through the accessor,
    or delete the entity. *)
Inductive callback : Type :=
| cb_keep
| cb_assign (val : list byte)
| cb_update (f : list byte -> list byte)
| cb_delete.

Definition run_callback (cb : entity -> callback)
  : iterator -> var_ref -> storage -> result storage :=
  fun i r s =>
    match cb (e_ r) with
    | cb_keep => Ok s
    | cb_assign val => var_ref_assign r val s
    | cb_update f => var_ref_update r f s
    | cb_delete => delete_entity_at i s
    end.

(** One call of the public interface.  A call that takes a handle is given
    the entity, whose handle [find] supplies. *)
Inductive op : Type :=
| op_register (ty : ctype) (nm : string)
| op_new_entity
| op_new_entities (count : nat)
| op_make (id : entity)
| op_clone (en : entity)
| op_delete (en : entity)
| op_remove_component (en : entity) (c : component_id)
| op_set (ty : ctype) (en : entity) (c : component_id) (val : list byte)
| op_get (ty : ctype) (en : entity) (c : component_id)
| op_for_each (ty : ctype) (c : component_id) (cb : entity -> callback)
| op_check_dirty (en : entity)
| op_check_dirty_and_clear (en : entity)
| op_check_dirty_flag (en : entity) (c : component_id)
| op_check_dirty_flag_and_clear (en : entity) (c : component_id)
| op_get_raw_data (en : entity)
| op_set_raw_data (en : entity) (comps : bitset) (d : list byte).

(** The state after one call.  The exception of a [get] on a missing
    component leaves the store as it was. *)
Definition step (o : op) (s : storage) : result storage :=
  match o with
  | op_register ty nm => let* (_, s') := register_component ty nm s in Ok s'
  | op_new_entity => Ok (snd (new_entity s))
  | op_new_entities count => Ok (snd (new_entities count s))
  | op_make id => Ok (snd (make id s))
  | op_clone en => let* (_, s') := clone_entity (find s en) s in Ok s'
  | op_delete en => let* (_, s') := delete_entity en s in Ok s'
  | op_remove_component en c => remove_component_from_entity (find s en) c s
  | op_set ty en c val => set_entity ty en c val s
  | op_get ty en c =>
      match get_entity ty en c s with
      | Ok _ | Fault Missing_component => Ok s
      | Fault f => Fault f
      end
  | op_for_each ty c cb =>
      let* (s', _) := for_each ty c (run_callback cb) s in Ok s'
  | op_check_dirty en => let* _ := check_dirty (find s en) s in Ok s
  | op_check_dirty_and_clear en =>
      let* (_, s') := check_dirty_and_clear (find s en) s in Ok s'
  | op_check_dirty_flag en c =>
      let* _ := check_dirty_flag (find s en) c s in Ok s
  | op_check_dirty_flag_and_clear en c =>
      let* (_, s') := check_dirty_flag_and_clear (find s en) c s in Ok s'
  | op_get_raw_data en => let* _ := get_raw_data (find s en) s in Ok s
  | op_set_raw_data en comps d => set_raw_data (find s en) comps d s
  end.

Fixpoint run (ops : list op) (s : storage) : result storage :=
  match ops with
  | [] => Ok s
  | o :: ops' => let* s' := step o s in run ops' s'
  end.

(** The typed operations: every call but the raw replacement of a record. *)
Definition typed (o : op) : bool :=
  match o with
  | op_set_raw_data _ _ _ => false
  | _ => true
  end.

(** ** Properties of records *)

(** The sum of the sizes of all present components: the scan run over every
    registered id. *)
Definition packed_size (s : storage) (e : elem) : nat :=
  scan_offset (components_ s) (components e) (length (components_ s)).

(** The number of holders of slot [(k, c)] constructed and not destroyed. *)
Fixpoint live_holders (k : entity) (c : component_id) (log : list lifecycle)
  : nat :=
  match log with
  | [] => 0
  | Constructed k' c' :: log' =>
      if Nat.eqb k' k && Nat.eqb c' c
      then S (live_holders k c log') else live_holders k c log'
  | Destroyed k' c' :: log' =>
      if Nat.eqb k' k && Nat.eqb c' c
      then pred (live_holders k c log') else live_holders k c log'
  end.

(** ** Invariants *)

(** How many components the offset cache covers. *)
Definition cached_components (s : storage) : nat :=
  Nat.min (length (components_ s)) (cache_size - 1).

(** The offset cache holds, for every mask over the components it covers,
    the sum of the sizes of the components of the mask. *)
Definition offsets_inv (s : storage) : Prop :=
  length (component_offsets_ s) = 2 ^ cached_components s
  /\ forall m, m < length (component_offsets_ s) ->
       component_offsets_ s !! m
       = Some (scan_offset (components_ s) (N.of_nat m) (cached_components s)).

(** A record is well formed for a registry: every present component is
    registered, the buffer is as long as the sizes of the present components
    add up to, and no component is dirty without being present. *)
Definition elem_ok (comps : list component) (e : elem) : Prop :=
  (forall i, N.testbit (components e) (N.of_nat i) = true -> i < length comps)
  /\ length (data e) = scan_offset comps (components e) (length comps)
  /\ includes (components e) (dirty e) = true.

Definition elems_ok (s : storage) : Prop :=
  Forall (fun ke => elem_ok (components_ s) (snd ke)) (entities_ s).

(** Two states with the same registry. *)
Definition same_registry (s s' : storage) : Prop :=
  components_ s' = components_ s
  /\ component_offsets_ s' = component_offsets_ s
  /\ flat_mask_ s' = flat_mask_ s.

(** Keys are unique and below the id counter. *)
Definition table_inv (s : storage) : Prop :=
  NoDup (keys (entities_ s))
  /\ Forall (fun k => k < next_id_ s) (keys (entities_ s)).

(** The dirty bit of component [c] of entity [en], false without a record. *)
Definition dirty_bit (s : storage) (en : entity) (c : component_id) : bool :=
  match lookup_entity en (entities_ s) with
  | Some e => N.testbit (dirty e) (N.of_nat c)
  | None => false
  end.

(** The dirty bit of component [c] of entity [en] is clear, in a table with
    unique keys whose id counter is past [en]. *)
Definition flag_clear (en : entity) (c : component_id) (s : storage) : Prop :=
  table_inv s /\ dirty_bit s en c = false /\ en < next_id_ s.

(** The calls that write component [c] of entity [en]. *)
Definition writes_to (en : entity) (c : component_id) (o : op) : bool :=
  match o with
  | op_set _ en' c' _ => Nat.eqb en' en && Nat.eqb c' c
  | op_for_each _ c' cb =>
      Nat.eqb c' c
      && match cb en with
         | cb_assign _ | cb_update _ => true
         | cb_keep | cb_delete => false
         end
  | _ => false
  end.

(** The entities [for_each] is to visit: those of the table, in its order,
    whose presence mask includes the selection. *)
Definition qualifying (mask : bitset) (l : list (entity * elem))
  : list entity :=
  keys (filter (fun ke => includes (components (snd ke)) mask = true) l).

(** A callback that touches no record but the one it is called on, which it
    may change or delete, and leaves the registry alone. *)
Definition local_callback
    (func : iterator -> var_ref -> storage -> result storage) : Prop :=
  forall k r s pre e post,
    entities_ s = pre ++ (k, e) :: post ->
    k ∉ keys pre ->
    exists s',
      func (Some k) r s = Ok s'
      /\ same_registry s s'
      /\ (entities_ s' = pre ++ post
          \/ exists e', entities_ s' = pre ++ (k, e') :: post).

(** The callback that deletes the entity it is called on. *)
Definition delete_current : iterator -> var_ref -> storage -> result storage :=
  fun i _ s => delete_entity_at i s.

(** The callback that deletes the entities of [doomed] and leaves the
    others alone. *)
Definition delete_some (doomed : entity -> bool)
  : iterator -> var_ref -> storage -> result storage :=
  fun i r s => if doomed (e_ r) then delete_entity_at i s else Ok s.

(** ** Sample component types and programs *)

Definition t_pos : ctype := {| is_flat := true; storage_size := 2 |}.
Definition t_name : ctype := {| is_flat := false; storage_size := 3 |}.
Definition t_unit : ctype := {| is_flat := true; storage_size := 1 |}.

Definition b1 : byte := Byte.x01.
Definition b2 : byte := Byte.x02.

(** Two components, a flat one of 2 bytes and a non-flat one of 3. *)
Definition two_components : list op :=
  [op_register t_pos "position"; op_register t_name "name"].

(** Two entities: entity 0 with both components, entity 1 with the first. *)
Definition sample_program : list op :=
  two_components
  ++ [op_new_entity;
      op_set t_name 0 1 [b1; b1; b1];
      op_set t_pos 0 0 [b2; b2];
      op_new_entity;
      op_set t_pos 1 0 [b1; b2]].

(** Eleven flat components of one byte. *)
Definition eleven_components : list op :=
  replicate 11 (op_register t_unit "c").

Definition state_after (ops : list op) : storage :=
  match run ops storage_init with
  | Ok s => s
  | Fault _ => storage_init
  end.

Definition two_components_state : storage :=
  Eval vm_compute in state_after two_components.

Definition sample_state : storage :=
  Eval vm_compute in state_after sample_program.

(** The state before the last call of [sample_program]. *)
Definition before_last_set : storage :=
  Eval vm_compute in state_after (take 6 sample_program).

(** [sample_state] after the dirty flag of component 0 of entity 1 was
    checked and cleared. *)
Definition cleared_state : storage :=
  Eval vm_compute in
    state_after (sample_program ++ [op_check_dirty_flag_and_clear 1 0]).

(** Calls that do not write component 0 of entity 1. *)
Definition quiet_program : list op :=
  [op_set t_name 1 1 [b1; b1; b1];
   op_for_each t_pos 0 (fun k => if Nat.eqb k 0 then cb_assign [b1; b1]
                                 else cb_keep);
   op_delete 0].

Definition quiet_state : storage :=
  Eval vm_compute in
    state_after (sample_program ++ [op_check_dirty_flag_and_clear 1 0]
                   ++ quiet_program).

(** One entity whose non-flat component holds a value. *)
Definition held_program : list op :=
  two_components ++ [op_new_entity; op_set t_name 0 1 [b1; b1; b1]].

Definition held_state : storage :=
  Eval vm_compute in state_after held_program.

(** The callback that assigns a new value through the accessor. *)
Definition assign_again : entity -> callback :=
  fun _ => cb_assign [b2; b2; b2].

(** The record of entity 0 in [sample_state]. *)
Definition sample_elem : elem :=
  {| components := 3%N; dirty := 3%N; data := [b2; b2; b1; b1; b1] |}.

(** ** Further operations and notions *)

(** [storage::operator[](id)], [components_[id]]: an id past the end of the
    vector is undefined. *)
Definition component_at (s : storage) (id : component_id) : result component :=
  match components_ s !! id with
  | Some c => Ok c
  | None => Fault Undefined_behaviour
  end.

(** The value [get] gives, read through the reference it returns. *)
Definition get_value (ty : ctype) (en : entity) (c : component_id)
    (s : storage) : result (list byte) :=
  let* r := get_entity ty en c s in
  read r s.

(** The descriptor a registration of [ty] under [nm] appends. *)
Definition descriptor (ty : ctype) (nm : string) : component :=
  {| c_name := nm; c_size := storage_size ty; c_prototype := negb (is_flat ty) |}.

(** What a scan is to do, said without iterators: the entities of a list
    are taken in turn, and [visit] is called on each with the record the
    entity has by then. *)
Fixpoint visit_in_turn (visit : entity -> elem -> storage -> result storage)
    (ks : list entity) (s : storage) : result storage :=
  match ks with
  | [] => Ok s
  | k :: ks' =>
      let* (_, e) := deref (Some k) s in
      let* s' := visit k e s in
      visit_in_turn visit ks' s'
  end.

(** The call [for_each] makes on a record: the callback, on the entity and
    the accessors of the components at their offsets in the record. *)
Definition accessor_call (t : ctype) (c : component_id)
    (func : iterator -> var_ref -> storage -> result storage)
  : entity -> elem -> storage -> result storage :=
  fun k e s =>
    let* off := offset s e c in
    func (Some k) (make_var_ref off k c t) s.

Definition accessor_call2 (t1 t2 : ctype) (c1 c2 : component_id)
    (func : iterator -> var_ref -> var_ref -> storage -> result storage)
  : entity -> elem -> storage -> result storage :=
  fun k e s =>
    let* off1 := offset s e c1 in
    let* off2 := offset s e c2 in
    func (Some k) (make_var_ref off1 k c1 t1) (make_var_ref off2 k c2 t2) s.

Definition accessor_call3 (t1 t2 t3 : ctype) (c1 c2 c3 : component_id)
    (func : iterator -> var_ref -> var_ref -> var_ref -> storage
            -> result storage)
  : entity -> elem -> storage -> result storage :=
  fun k e s =>
    let* off1 := offset s e c1 in
    let* off2 := offset s e c2 in
    let* off3 := offset s e c3 in
    func (Some k) (make_var_ref off1 k c1 t1) (make_var_ref off2 k c2 t2)
         (make_var_ref off3 k c3 t3) s.

(** The callback called in turn on each entity of a list. *)
Definition call_in_turn (t : ctype) (c : component_id)
    (func : iterator -> var_ref -> storage -> result storage)
  : list entity -> storage -> result storage :=
  visit_in_turn (accessor_call t c func).

Definition call_in_turn2 (t1 t2 : ctype) (c1 c2 : component_id)
    (func : iterator -> var_ref -> var_ref -> storage -> result storage)
  : list entity -> storage -> result storage :=
  visit_in_turn (accessor_call2 t1 t2 c1 c2 func).

Definition call_in_turn3 (t1 t2 t3 : ctype) (c1 c2 c3 : component_id)
    (func : iterator -> var_ref -> var_ref -> var_ref -> storage
            -> result storage)
  : list entity -> storage -> result storage :=
  visit_in_turn (accessor_call3 t1 t2 t3 c1 c2 c3 func).

(** The table after a call that changed or deleted the record of [k] and
    no other. *)
Definition changed_at (k : entity) (s s' : storage) : Prop :=
  forall pre e post,
    entities_ s = pre ++ (k, e) :: post ->
    k ∉ keys pre ->
    entities_ s' = pre ++ post
    \/ exists e', entities_ s' = pre ++ (k, e') :: post.

(** A callback that, when it returns, has changed or deleted no record but
    the one of the entity it was called on, by way of the accessors to that
    entity or otherwise, and has left the registry alone. *)
Definition acts_on_current
    (func : iterator -> var_ref -> storage -> result storage) : Prop :=
  forall k r s s',
    e_ r = k ->
    func (Some k) r s = Ok s' ->
    same_registry s s' /\ changed_at k s s'.

Definition acts_on_current2
    (func : iterator -> var_ref -> var_ref -> storage -> result storage)
  : Prop :=
  forall k r1 r2 s s',
    e_ r1 = k -> e_ r2 = k ->
    func (Some k) r1 r2 s = Ok s' ->
    same_registry s s' /\ changed_at k s s'.

Definition acts_on_current3
    (func : iterator -> var_ref -> var_ref -> var_ref -> storage
            -> result storage) : Prop :=
  forall k r1 r2 r3 s s',
    e_ r1 = k -> e_ r2 = k -> e_ r3 = k ->
    func (Some k) r1 r2 r3 s = Ok s' ->
    same_registry s s' /\ changed_at k s s'.

(** A callback that returns whenever it is called on an entity of the
    table. *)
Definition returns_on_current
    (func : iterator -> var_ref -> storage -> result storage) : Prop :=
  forall k r s,
    k ∈ keys (entities_ s) -> exists s', func (Some k) r s = Ok s'.

Definition returns_on_current2
    (func : iterator -> var_ref -> var_ref -> storage -> result storage)
  : Prop :=
  forall k r1 r2 s,
    k ∈ keys (entities_ s) -> exists s', func (Some k) r1 r2 s = Ok s'.

Definition returns_on_current3
    (func : iterator -> var_ref -> var_ref -> var_ref -> storage
            -> result storage) : Prop :=
  forall k r1 r2 r3 s,
    k ∈ keys (entities_ s) -> exists s', func (Some k) r1 r2 r3 s = Ok s'.

(** The callback of two accessors that assigns through the second. *)
Definition assign_second (val : list byte)
  : iterator -> var_ref -> var_ref -> storage -> result storage :=
  fun _ _ r2 s => var_ref_assign r2 val s.

Definition delete_current2
  : iterator -> var_ref -> var_ref -> storage -> result storage :=
  fun i _ _ s => delete_entity_at i s.

Definition delete_current3
  : iterator -> var_ref -> var_ref -> var_ref -> storage -> result storage :=
  fun i _ _ _ s => delete_entity_at i s.

(** The mask [for_each] builds for a list of component ids. *)
Definition selection (cs : list component_id) : bitset :=
  fold_left (fun m c => N.setbit m (N.of_nat c)) cs 0%N.

(** A record has every component of [cs]. *)
Definition has_all (cs : list component_id) (e : elem) : Prop :=
  Forall (fun c => N.testbit (components e) (N.of_nat c) = true) cs.

(** The callback that changes nothing. *)
Definition inert : iterator -> var_ref -> storage -> result storage :=
  fun _ _ s => Ok s.

(** An accessor to component 0 of entity 1 of [sample_state]. *)
Definition sample_ref : var_ref :=
  {| offset_ := 0; e_ := 1; component_ := 0; type_ := t_pos |}.

(** The bytes of a value with the first byte replaced: an update in place. *)
Definition bump (v : list byte) : list byte :=
  match v with
  | [] => []
  | _ :: v' => b2 :: v'
  end.

(** [sample_state] after the record of entity 1 was replaced by one whose
    buffer is empty though component 0 is marked present, and by one whose
    buffer is empty though component 1 is. *)
Definition stray_state : storage :=
  Eval vm_compute in
    state_after (sample_program ++ [op_set_raw_data 1 1%N []]).

Definition short_state : storage :=
  Eval vm_compute in
    state_after (sample_program ++ [op_set_raw_data 1 2%N []]).

(** [flat_mask_] tells, for every id, whether a descriptor with a
    prototype is registered under it. *)
Definition flat_mask_inv (s : storage) : Prop :=
  forall i,
    N.testbit (flat_mask_ s) (N.of_nat i)
    = match components_ s !! i with
      | Some d => c_prototype d
      | None => false
      end.

(** * Proofs *)

(** ** The fault monad *)

Lemma bind_Ok {A B : Type} (m : result A) (k : A -> result B) (b : B) :
  bind m k = Ok b -> exists a, m = Ok a /\ k a = Ok b.
Proof. destruct m as [a|f]; simpl; [eauto | discriminate]. Qed.

(** Splits a hypothesis [bind m k = Ok b] into its two steps. *)
Ltac inv_bind H :=
  let a := fresh "a" in
  let Ha := fresh "Hstep" in
  apply bind_Ok in H as (a & Ha & H).

Lemma bitset_test_Ok (b : bitset) (pos : nat) (r : bool) :
  bitset_test b pos = Ok r ->
  pos < bitset_width /\ r = N.testbit b (N.of_nat pos).
Proof.
  unfold bitset_test. destruct (Nat.ltb_spec pos bitset_width); [|discriminate].
  intros [= <-]. auto.
Qed.

Lemma bitset_set_Ok (b : bitset) (pos : nat) (r : bitset) :
  bitset_set b pos = Ok r ->
  pos < bitset_width /\ r = N.setbit b (N.of_nat pos).
Proof.
  unfold bitset_set. destruct (Nat.ltb_spec pos bitset_width); [|discriminate].
  intros [= <-]. auto.
Qed.

Lemma bitset_reset_Ok (b : bitset) (pos : nat) (r : bitset) :
  bitset_reset b pos = Ok r ->
  pos < bitset_width /\ r = N.clearbit b (N.of_nat pos).
Proof.
  unfold bitset_reset. destruct (Nat.ltb_spec pos bitset_width); [|discriminate].
  intros [= <-]. auto.
Qed.

Lemma bitset_test_lt (b : bitset) (pos : nat) :
  pos < bitset_width -> bitset_test b pos = Ok (N.testbit b (N.of_nat pos)).
Proof.
  intros H. unfold bitset_test.
  destruct (Nat.ltb_spec pos bitset_width); [reflexivity | lia].
Qed.

Lemma bitset_set_lt (b : bitset) (pos : nat) :
  pos < bitset_width -> bitset_set b pos = Ok (N.setbit b (N.of_nat pos)).
Proof.
  intros H. unfold bitset_set.
  destruct (Nat.ltb_spec pos bitset_width); [reflexivity | lia].
Qed.

(** ** Bit masks *)

Lemma includes_spec (a b : bitset) :
  includes a b = true
  <-> forall i, N.testbit b i = true -> N.testbit a i = true.
Proof.
  unfold includes. rewrite N.eqb_eq. split.
  - intros H i Hi. rewrite <- H in Hi. rewrite N.land_spec in Hi.
    apply andb_true_iff in Hi. tauto.
  - intros H. apply N.bits_inj. intros i. rewrite N.land_spec.
    destruct (N.testbit b i) eqn:Hb.
    + rewrite (H i Hb). reflexivity.
    + apply andb_false_r.
Qed.

Lemma testbit_below_pow2 (m k : nat) :
  m < 2 ^ k -> N.testbit (N.of_nat m) (N.of_nat k) = false.
Proof.
  intros H.
  assert (Hlt : (N.of_nat m < 2 ^ N.of_nat k)%N).
  { change 2%N with (N.of_nat 2). rewrite <- Nat2N.inj_pow. lia. }
  rewrite <- (N.mod_small _ _ Hlt).
  apply N.mod_pow2_bits_high. lia.
Qed.

Lemma of_nat_add_pow2 (m k : nat) :
  m < 2 ^ k -> N.of_nat (m + 2 ^ k) = N.setbit (N.of_nat m) (N.of_nat k).
Proof.
  intros H. rewrite Nat2N.inj_add, Nat2N.inj_pow.
  change (N.of_nat 2) with 2%N.
  unfold N.setbit. rewrite N.shiftl_1_l.
  assert (Hland : N.land (N.of_nat m) (2 ^ N.of_nat k) = 0%N);
    [|rewrite N.add_nocarry_lxor, N.lxor_lor by exact Hland; reflexivity].
  apply N.bits_inj. intros i. rewrite N.land_spec, N.bits_0, N.pow2_bits_eqb.
  destruct (N.eqb_spec (N.of_nat k) i) as [<-|]; [|apply andb_false_r].
  rewrite (testbit_below_pow2 m k H). reflexivity.
Qed.

(** ** The scan *)

Lemma scan_offset_ext comps comps' (p q : bitset) (c : nat) :
  (forall i, i < c -> N.testbit p (N.of_nat i) = N.testbit q (N.of_nat i)) ->
  (forall i, i < c -> N.testbit p (N.of_nat i) = true ->
             component_size comps i = component_size comps' i) ->
  scan_offset comps p c = scan_offset comps' q c.
Proof.
  induction c as [|c IH]; intros Hb Hs; simpl; [reflexivity|].
  rewrite IH;
    [| intros; apply Hb; lia | intros; apply Hs; [lia | assumption]].
  rewrite <- (Hb c) by lia.
  destruct (N.testbit p (N.of_nat c)) eqn:Hc; [|reflexivity].
  rewrite (Hs c) by (auto with lia). reflexivity.
Qed.

Lemma scan_offset_clear comps (p : bitset) (c k : nat) :
  c <= k ->
  (forall i, c <= i < k -> N.testbit p (N.of_nat i) = false) ->
  scan_offset comps p k = scan_offset comps p c.
Proof.
  induction k as [|k IH]; intros Hck Hb.
  - replace c with 0 by lia. reflexivity.
  - destruct (decide (c = S k)) as [->|Hne]; [reflexivity|].
    simpl. rewrite (Hb k) by lia. rewrite IH by (auto with lia). lia.
Qed.

Lemma scan_offset_mono comps (p : bitset) (c k : nat) :
  c <= k -> scan_offset comps p c <= scan_offset comps p k.
Proof.
  induction 1 as [|k Hk IH]; [reflexivity|]. simpl. lia.
Qed.

Lemma scan_offset_zero comps (c : nat) : scan_offset comps 0%N c = 0.
Proof.
  induction c as [|c IH]; simpl; [reflexivity|].
  rewrite IH. reflexivity.
Qed.

Lemma component_size_app_l comps extra (i : nat) :
  i < length comps ->
  component_size (comps ++ extra) i = component_size comps i.
Proof.
  intros H. unfold component_size. rewrite lookup_app_l by exact H. reflexivity.
Qed.

Lemma component_size_snoc comps (c : component) :
  component_size (comps ++ [c]) (length comps) = c_size c.
Proof.
  unfold component_size. rewrite lookup_app_r by lia.
  rewrite Nat.sub_diag. reflexivity.
Qed.

(** ** The offset cache *)

Lemma fill_offsets_app (sz n k : nat) (t : list nat) :
  k + n = length t ->
  fill_offsets (length t) sz n (length t + k)
    (t ++ map (fun o => o + sz) (take k t) ++ replicate n 0)
  = t ++ map (fun o => o + sz) t.
Proof.
  revert k. induction n as [|n IH]; intros k Hk; simpl.
  - rewrite take_ge by lia. rewrite app_nil_r. reflexivity.
  - destruct (lookup_lt_is_Some_2 t k) as [x Hx]; [lia|].
    replace (length t + k - length t) with k by lia.
    rewrite app_nth1 by lia.
    rewrite (nth_lookup_Some _ _ _ _ Hx).
    rewrite insert_app_r_alt by lia.
    replace (length t + k - length t) with k by lia.
    rewrite insert_app_r_alt by (rewrite length_map, length_take; lia).
    rewrite length_map, length_take.
    replace (k - k `min` length t) with 0 by lia. simpl.
    replace (S (length t + k)) with (length t + S k) by lia.
    rewrite <- (IH (S k)) by lia.
    rewrite (take_S_r _ _ _ Hx), map_app. simpl.
    rewrite <- !app_assoc. reflexivity.
Qed.

(** The loop doubles the table: the new half is the old one, each entry
    raised by the size of the new component. *)
Lemma extend_offsets_app (sz : nat) (t : list nat) :
  extend_offsets sz t = t ++ map (fun o => o + sz) t.
Proof.
  unfold extend_offsets.
  rewrite resize_ge by lia.
  replace (length t * 2 - length t) with (length t) by lia.
  pose proof (fill_offsets_app sz (length t) 0 t eq_refl) as H.
  rewrite Nat.add_0_r in H. simpl in H. exact H.
Qed.

Lemma cache_mask_ones : cache_mask = N.ones (N.of_nat cache_size).
Proof. reflexivity. Qed.

Lemma offsets_inv_init : offsets_inv storage_init.
Proof.
  split; [reflexivity|]. intros m Hm. simpl in Hm.
  replace m with 0 by lia. reflexivity.
Qed.

(** What a registration returns and how it changes the registry. *)
Lemma register_component_Ok ty nm s id s' :
  register_component ty nm s = Ok (id, s') ->
  id = length (components_ s) mod 256
  /\ components_ s'
     = components_ s
         ++ [{| c_name := nm; c_size := storage_size ty;
                c_prototype := negb (is_flat ty) |}]
  /\ component_offsets_ s'
     = (if S (length (components_ s)) <? cache_size
        then component_offsets_ s
               ++ map (fun o => o + storage_size ty) (component_offsets_ s)
        else component_offsets_ s)
  /\ entities_ s' = entities_ s
  /\ next_id_ s' = next_id_ s
  /\ lifecycle_ s' = lifecycle_ s.
Proof.
  unfold register_component. intros H. inv_bind H.
  injection H as <- <-. simpl.
  rewrite length_app, extend_offsets_app. simpl.
  replace (length (components_ s) + 1) with (S (length (components_ s))) by lia.
  replace (S (length (components_ s)) - 1) with (length (components_ s)) by lia.
  auto 10.
Qed.

Lemma offsets_inv_register ty nm s id s' :
  register_component ty nm s = Ok (id, s') ->
  offsets_inv s -> offsets_inv s'.
Proof.
  intros H [Hlen Htab].
  apply register_component_Ok in H as (_ & Hc & Ho & _).
  set (n := length (components_ s)) in *.
  set (sz := storage_size ty) in *.
  assert (Hn' : length (components_ s') = S n).
  { rewrite Hc, length_app. simpl. unfold n. lia. }
  unfold offsets_inv, cached_components in *. rewrite Hn', Ho.
  fold n in Hlen, Htab. unfold cache_size in *.
  destruct (Nat.ltb_spec (S n) 12) as [Hlt|Hge].
  - replace (S n `min` (12 - 1)) with (S n) by lia.
    replace (n `min` (12 - 1)) with n in Hlen, Htab by lia.
    split.
    { rewrite length_app, length_map, Hlen. simpl. lia. }
    intros m Hm. rewrite length_app, length_map, Hlen in Hm.
    destruct (Nat.lt_ge_cases m (2 ^ n)) as [Hlow|Hhigh].
    + rewrite lookup_app_l, Htab by lia. f_equal.
      simpl. rewrite (testbit_below_pow2 m n Hlow), Nat.add_0_r.
      apply scan_offset_ext; [reflexivity|].
      intros i Hi _. rewrite Hc. symmetry. apply component_size_app_l.
      fold n. lia.
    + rewrite lookup_app_r by lia. rewrite Hlen.
      rewrite list_lookup_fmap, Htab by lia. simpl. f_equal.
      replace m with ((m - 2 ^ n) + 2 ^ n) at 2 3 by lia.
      rewrite of_nat_add_pow2 by lia.
      rewrite N.setbit_eq.
      rewrite Hc at 2. unfold n at 5. rewrite component_size_snoc. simpl.
      f_equal. apply scan_offset_ext.
      * intros i Hi. rewrite N.setbit_neq by lia. reflexivity.
      * intros i Hi _. rewrite Hc. symmetry. apply component_size_app_l.
        fold n. lia.
  - replace (S n `min` (12 - 1)) with 11 by lia.
    replace (n `min` (12 - 1)) with 11 in Hlen, Htab by lia.
    split; [exact Hlen|].
    intros m Hm. rewrite Htab by exact Hm. f_equal.
    apply scan_offset_ext; [reflexivity|].
    intros i Hi _. rewrite Hc. symmetry. apply component_size_app_l.
    fold n. lia.
Qed.

(** The cache entry of the presence bits below [c] is the scanned offset of
    [c], for every id the cache covers. *)
Lemma cached_offset_scan s (present : bitset) (c : component_id) :
  offsets_inv s ->
  c < cache_size -> c < length (components_ s) ->
  cached_offset s present c = Ok (scan_offset (components_ s) present c).
Proof.
  intros [Hlen Htab] Hc Hreg.
  unfold cached_offset, cache_index.
  set (x := N.land (N.land present (N.ones (N.of_nat c))) cache_mask).
  assert (Hbits : forall i, N.testbit x (N.of_nat i)
                            = N.testbit present (N.of_nat i) && (i <? c)).
  { intros i. unfold x. rewrite cache_mask_ones, !N.land_spec.
    destruct (Nat.ltb_spec i c) as [Hi|Hi].
    - rewrite !N.ones_spec_low by (unfold cache_size in *; lia).
      rewrite !andb_true_r. reflexivity.
    - rewrite (N.ones_spec_high (N.of_nat c)) by lia.
      rewrite andb_false_r. reflexivity. }
  assert (Hx : (x < 2 ^ N.of_nat c)%N).
  { destruct (N.eq_dec x 0%N) as [Hx0|Hx0];
      [rewrite Hx0; apply N.neq_0_lt_0, N.pow_nonzero; lia|].
    apply N.log2_lt_pow2; [lia|].
    destruct (N.lt_ge_cases (N.log2 x) (N.of_nat c)) as [|Hge]; [assumption|].
    pose proof (N.bit_log2 x Hx0) as Hb.
    rewrite <- (N2Nat.id (N.log2 x)), Hbits in Hb.
    destruct (Nat.ltb_spec (N.to_nat (N.log2 x)) c); [lia|].
    rewrite andb_false_r in Hb. discriminate. }
  assert (Hidx : N.to_nat x < 2 ^ c).
  { change 2%N with (N.of_nat 2) in Hx. rewrite <- Nat2N.inj_pow in Hx. lia. }
  assert (Hck : c <= cached_components s).
  { unfold cached_components, cache_size in *. lia. }
  assert (Hpow : 2 ^ c <= 2 ^ cached_components s).
  { apply Nat.pow_le_mono_r; lia. }
  rewrite Htab by lia. f_equal. rewrite N2Nat.id.
  rewrite (scan_offset_clear _ x c) ; [| exact Hck |].
  - apply scan_offset_ext; [|reflexivity].
    intros i Hi. rewrite Hbits.
    destruct (Nat.ltb_spec i c); [apply andb_true_r | lia].
  - intros i Hi. rewrite Hbits.
    destruct (Nat.ltb_spec i c); [lia | apply andb_false_r].
Qed.

Lemma offset_scan s (e : elem) (c : component_id) :
  offsets_inv s -> c < length (components_ s) ->
  offset s e c = Ok (scan_offset (components_ s) (components e) c).
Proof.
  intros Hinv Hc. unfold offset.
  destruct (Nat.ltb_spec c cache_size); [|reflexivity].
  apply cached_offset_scan; assumption.
Qed.

(** ** The entity table *)

Lemma lookup_entity_None (k : entity) (l : stor_impl) :
  lookup_entity k l = None <-> k ∉ keys l.
Proof.
  unfold keys. induction l as [|[k' e'] l IH]; simpl.
  - split; [intros _; apply not_elem_of_nil | reflexivity].
  - rewrite not_elem_of_cons.
    destruct (Nat.eqb_spec k' k) as [->|Hne]; [split; [discriminate | tauto]|].
    rewrite IH. split; [auto | tauto].
Qed.

Lemma lookup_entity_Some_key (k : entity) (e : elem) (l : stor_impl) :
  lookup_entity k l = Some e -> k ∈ keys l.
Proof.
  intros H. destruct (decide (k ∈ keys l)) as [|Hn]; [assumption|].
  apply lookup_entity_None in Hn. congruence.
Qed.

Lemma lookup_entity_elem_of (k : entity) (e : elem) (l : stor_impl) :
  lookup_entity k l = Some e -> (k, e) ∈ l.
Proof.
  induction l as [|[k' e'] l IH]; simpl; [discriminate|].
  destruct (Nat.eqb_spec k' k) as [->|Hne].
  - intros [= ->]. apply list_elem_of_here.
  - intros H. apply list_elem_of_further, IH, H.
Qed.

Lemma lookup_entity_NoDup (k : entity) (e : elem) (l : stor_impl) :
  NoDup (keys l) -> (k, e) ∈ l -> lookup_entity k l = Some e.
Proof.
  unfold keys. induction l as [|[k' e'] l IH]; simpl; intros Hnd Hin.
  - apply elem_of_nil in Hin. contradiction.
  - apply NoDup_cons in Hnd as [Hk' Hnd].
    apply elem_of_cons in Hin as [[= -> ->]|Hin].
    + rewrite Nat.eqb_refl. reflexivity.
    + destruct (Nat.eqb_spec k' k) as [->|Hne]; [|auto].
      exfalso. apply Hk'. apply list_elem_of_fmap. exists (k, e). auto.
Qed.

Lemma lookup_entity_app (k : entity) (l1 l2 : stor_impl) :
  lookup_entity k (l1 ++ l2)
  = match lookup_entity k l1 with
    | Some e => Some e
    | None => lookup_entity k l2
    end.
Proof.
  induction l1 as [|[k' e'] l1 IH]; simpl; [reflexivity|].
  destruct (Nat.eqb k' k); [reflexivity | exact IH].
Qed.

Lemma next_entity_app (k : entity) (e : elem) (pre post : stor_impl) :
  k ∉ keys pre ->
  next_entity k (pre ++ (k, e) :: post) = Some (begin_entities post).
Proof.
  unfold keys. induction pre as [|[k' e'] pre IH]; simpl; intros Hk.
  - rewrite Nat.eqb_refl. reflexivity.
  - apply not_elem_of_cons in Hk as [Hne Hk].
    destruct (Nat.eqb_spec k' k) as [->|_]; [congruence | auto].
Qed.

Lemma keys_update_entity (k : entity) (e : elem) (l : stor_impl) :
  keys (update_entity k e l) = keys l.
Proof.
  unfold keys. induction l as [|[k' e'] l IH]; simpl; [reflexivity|].
  destruct (Nat.eqb k' k); simpl; [reflexivity | f_equal; exact IH].
Qed.

Lemma lookup_update_entity_eq (k : entity) (e : elem) (l : stor_impl) :
  k ∈ keys l -> lookup_entity k (update_entity k e l) = Some e.
Proof.
  unfold keys. induction l as [|[k' e'] l IH]; simpl; intros Hk.
  - apply elem_of_nil in Hk. contradiction.
  - destruct (Nat.eqb_spec k' k) as [->|Hne]; simpl.
    + rewrite Nat.eqb_refl. reflexivity.
    + destruct (Nat.eqb_spec k' k); [congruence|].
      apply IH. apply elem_of_cons in Hk as [|]; [congruence | assumption].
Qed.

Lemma lookup_update_entity_ne (k k' : entity) (e : elem) (l : stor_impl) :
  k <> k' -> lookup_entity k' (update_entity k e l) = lookup_entity k' l.
Proof.
  intros Hne. induction l as [|[k0 e0] l IH]; simpl; [reflexivity|].
  destruct (Nat.eqb_spec k0 k) as [->|Hk]; simpl.
  - destruct (Nat.eqb_spec k k'); [congruence | reflexivity].
  - destruct (Nat.eqb k0 k'); [reflexivity | exact IH].
Qed.

Lemma update_entity_twice (k : entity) (e1 e2 : elem) (l : stor_impl) :
  update_entity k e2 (update_entity k e1 l) = update_entity k e2 l.
Proof.
  induction l as [|[k' e'] l IH]; simpl; [reflexivity|].
  destruct (Nat.eqb_spec k' k) as [->|Hne]; simpl.
  - rewrite Nat.eqb_refl. reflexivity.
  - destruct (Nat.eqb_spec k' k); [congruence | f_equal; exact IH].
Qed.

Lemma update_entity_app (k : entity) (e e' : elem) (pre post : stor_impl) :
  k ∉ keys pre ->
  update_entity k e' (pre ++ (k, e) :: post) = pre ++ (k, e') :: post.
Proof.
  unfold keys. induction pre as [|[k0 e0] pre IH]; simpl; intros Hk.
  - rewrite Nat.eqb_refl. reflexivity.
  - apply not_elem_of_cons in Hk as [Hne Hk].
    destruct (Nat.eqb_spec k0 k); [congruence | f_equal; auto].
Qed.

Lemma erase_entity_app (k : entity) (e : elem) (pre post : stor_impl) :
  k ∉ keys pre ->
  erase_entity k (pre ++ (k, e) :: post) = pre ++ post.
Proof.
  unfold keys. induction pre as [|[k0 e0] pre IH]; simpl; intros Hk.
  - rewrite Nat.eqb_refl. reflexivity.
  - apply not_elem_of_cons in Hk as [Hne Hk].
    destruct (Nat.eqb_spec k0 k); [congruence | f_equal; auto].
Qed.

Lemma lookup_erase_entity_ne (k k' : entity) (l : stor_impl) :
  k <> k' -> lookup_entity k' (erase_entity k l) = lookup_entity k' l.
Proof.
  intros Hne. induction l as [|[k0 e0] l IH]; simpl; [reflexivity|].
  destruct (Nat.eqb_spec k0 k) as [->|Hk]; simpl.
  - destruct (Nat.eqb_spec k k'); [congruence | reflexivity].
  - destruct (Nat.eqb k0 k'); [reflexivity | exact IH].
Qed.

Lemma erase_entity_sublist (k : entity) (l : stor_impl) :
  erase_entity k l `sublist_of` l.
Proof.
  induction l as [|[k0 e0] l IH]; simpl; [constructor|].
  destruct (Nat.eqb k0 k); [apply sublist_cons, reflexivity|].
  apply sublist_skip, IH.
Qed.

Lemma Forall_lookup_entity (Q : entity * elem -> Prop) k e l :
  Forall Q l -> lookup_entity k l = Some e -> Q (k, e).
Proof.
  intros HQ Hl. apply lookup_entity_elem_of in Hl.
  rewrite Forall_forall in HQ. exact (HQ _ Hl).
Qed.

Lemma Forall_update_entity (Q : elem -> Prop) k e l :
  Forall (fun ke => Q (snd ke)) l -> Q e ->
  Forall (fun ke => Q (snd ke)) (update_entity k e l).
Proof.
  intros HQ He. induction HQ as [|[k0 e0] l H0 HQ IH]; simpl; [constructor|].
  destruct (Nat.eqb k0 k); constructor; auto.
Qed.

Lemma Forall_erase_entity (Q : entity * elem -> Prop) k l :
  Forall Q l -> Forall Q (erase_entity k l).
Proof.
  induction 1 as [|[k0 e0] l H0 HQ IH]; simpl; [constructor|].
  destruct (Nat.eqb k0 k); [assumption | constructor; assumption].
Qed.

(** ** What each operation does to the state *)

Lemma deref_Ok en s k e :
  deref en s = Ok (k, e) ->
  en = Some k /\ lookup_entity k (entities_ s) = Some e.
Proof.
  unfold deref. destruct en as [k'|]; [|discriminate].
  destruct (lookup_entity k' (entities_ s)) eqn:Hl; [|discriminate].
  intros [= -> ->]. auto.
Qed.

Lemma deref_Some s k e :
  lookup_entity k (entities_ s) = Some e -> deref (Some k) s = Ok (k, e).
Proof. intros H. unfold deref. rewrite H. reflexivity. Qed.

Lemma setbit_present (a : N) (n : N) :
  N.testbit a n = true -> N.setbit a n = a.
Proof.
  intros H. apply N.bits_inj. intros i. rewrite N.setbit_eqb.
  destruct (N.eqb_spec n i) as [<-|]; [rewrite H|]; reflexivity.
Qed.

Lemma write_at_Ok off val d d' :
  write_at off val d = Ok d' ->
  off + length val <= length d
  /\ d' = take off d ++ val ++ drop (off + length val) d
  /\ length d' = length d.
Proof.
  unfold write_at. destruct (Nat.leb_spec (off + length val) (length d));
    [|discriminate].
  intros [= <-]. repeat split; [assumption|].
  rewrite !length_app, length_take, length_drop. lia.
Qed.

Lemma set_Ok ty en c val s s' :
  set ty en c val s = Ok s' ->
  exists k e off d1 d2,
    en = Some k
    /\ lookup_entity k (entities_ s) = Some e
    /\ c < length (components_ s) /\ c < bitset_width
    /\ offset s e c = Ok off
    /\ d1 = (if N.testbit (components e) (N.of_nat c) then data e
             else grown e off (component_size (components_ s) c))
    /\ off + storage_size ty <= length d1
    /\ write_at off val d1 = Ok d2
    /\ s' = log_events (construct ty k c)
              (store_elem k {| components := N.setbit (components e) (N.of_nat c);
                               dirty := N.setbit (dirty e) (N.of_nat c);
                               data := d2 |} s).
Proof.
  unfold set. intros H.
  destruct (Nat.ltb_spec c (length (components_ s))) as [Hc|]; [|discriminate].
  simpl in H. inv_bind H. destruct a as [k e].
  apply deref_Ok in Hstep as [-> Hl].
  inv_bind H. rename a into off, Hstep into Hoff.
  inv_bind H. apply bitset_test_Ok in Hstep as [Hw ->].
  inv_bind H. rename a into e1, Hstep into He1.
  destruct (Nat.leb_spec (off + storage_size ty) (length (data e1))) as [Hfit|];
    [|discriminate].
  simpl in H. inv_bind H. rename a into d2, Hstep into Hwr.
  inv_bind H. apply bitset_set_Ok in Hstep as [_ ->].
  injection H as <-.
  exists k, e, off, (data e1), d2.
  destruct (N.testbit (components e) (N.of_nat c)) eqn:Hp; simpl in He1.
  - injection He1 as <-.
    rewrite (setbit_present _ _ Hp). auto 10.
  - inv_bind He1. apply bitset_set_Ok in Hstep as [_ ->].
    injection He1 as <-. simpl in *. auto 10.
Qed.

Lemma store_elem_twice k e1 e2 evs s :
  store_elem k e2 (log_events evs (store_elem k e1 s))
  = log_events evs (store_elem k e2 s).
Proof.
  unfold store_elem, log_events. simpl.
  rewrite update_entity_twice. reflexivity.
Qed.

Lemma lookup_store_elem k e evs s e0 :
  lookup_entity k (entities_ s) = Some e0 ->
  lookup_entity k (entities_ (log_events evs (store_elem k e s))) = Some e.
Proof.
  intros H. simpl. apply lookup_update_entity_eq.
  eapply lookup_entity_Some_key, H.
Qed.

Lemma touch_Ok r s s' :
  touch r s = Ok s' ->
  exists e,
    lookup_entity (e_ r) (entities_ s) = Some e
    /\ component_ r < bitset_width
    /\ s' = store_elem (e_ r)
              {| components := components e;
                 dirty := N.setbit (dirty e) (N.of_nat (component_ r));
                 data := data e |} s.
Proof.
  unfold touch. intros H. inv_bind H. destruct a as [k e].
  apply deref_Ok in Hstep as [[= <-] Hl].
  inv_bind H. apply bitset_set_Ok in Hstep as [Hw ->].
  injection H as <-. eauto.
Qed.

(** An assignment through an accessor: the value is written over the slot,
    the dirty bit is set, and for a non-flat type a holder is constructed. *)
Lemma var_ref_assign_Ok r val s s' :
  var_ref_assign r val s = Ok s' ->
  exists e d,
    lookup_entity (e_ r) (entities_ s) = Some e
    /\ write_at (offset_ r) val (data e) = Ok d
    /\ component_ r < bitset_width
    /\ s' = log_events (construct (type_ r) (e_ r) (component_ r))
              (store_elem (e_ r)
                 {| components := components e;
                    dirty := N.setbit (dirty e) (N.of_nat (component_ r));
                    data := d |} s).
Proof.
  unfold var_ref_assign. intros H. inv_bind H. destruct a as [k e].
  apply deref_Ok in Hstep as [[= <-] Hl].
  inv_bind H. rename a into d, Hstep into Hwr.
  apply touch_Ok in H as (e1 & Hl1 & Hw & ->).
  erewrite lookup_store_elem in Hl1 by exact Hl. injection Hl1 as <-.
  simpl. rewrite store_elem_twice. eauto 10.
Qed.

Lemma var_ref_update_Ok r f s s' :
  var_ref_update r f s = Ok s' ->
  exists e d,
    lookup_entity (e_ r) (entities_ s) = Some e
    /\ length d = length (data e)
    /\ component_ r < bitset_width
    /\ s' = store_elem (e_ r)
              {| components := components e;
                 dirty := N.setbit (dirty e) (N.of_nat (component_ r));
                 data := d |} s.
Proof.
  unfold var_ref_update. intros H. inv_bind H. clear Hstep.
  inv_bind H. destruct a0 as [k e].
  apply deref_Ok in Hstep as [[= <-] Hl].
  inv_bind H. rename a0 into d, Hstep into Hwr.
  apply touch_Ok in H as (e1 & Hl1 & Hw & ->).
  pose proof (lookup_store_elem (e_ r)
                {| components := components e; dirty := dirty e; data := d |}
                [] s e Hl) as Hl2.
  simpl in Hl1, Hl2. rewrite Hl2 in Hl1. injection Hl1 as <-. simpl.
  apply write_at_Ok in Hwr as (_ & _ & Hlen).
  exists e, d. repeat split; [assumption..|].
  unfold store_elem. simpl. rewrite update_entity_twice. reflexivity.
Qed.

Lemma delete_entity_at_Ok f s s' :
  delete_entity_at f s = Ok s' ->
  exists k e,
    f = Some k
    /\ lookup_entity k (entities_ s) = Some e
    /\ s' = log_events
              (map (Destroyed k) (held_components s e (length (components_ s))))
              (with_entities (erase_entity k (entities_ s)) s).
Proof.
  unfold delete_entity_at. intros H. inv_bind H. destruct a as [k e].
  apply deref_Ok in Hstep as [-> Hl]. injection H as <-. eauto.
Qed.

Lemma remove_component_Ok en c s s' :
  remove_component_from_entity en c s = Ok s' ->
  exists k e,
    en = Some k
    /\ lookup_entity k (entities_ s) = Some e
    /\ c < bitset_width
    /\ (N.testbit (components e) (N.of_nat c) = false /\ s' = s
        \/ exists off,
             N.testbit (components e) (N.of_nat c) = true
             /\ offset s e c = Ok off
             /\ s' = log_events (if non_flat s c then [Destroyed k c] else [])
                       (store_elem k
                          {| components := N.clearbit (components e) (N.of_nat c);
                             dirty := N.clearbit (dirty e) (N.of_nat c);
                             data := take off (data e)
                                       ++ drop (off + component_size (components_ s) c)
                                            (data e) |} s)).
Proof.
  unfold remove_component_from_entity. intros H. inv_bind H.
  destruct a as [k e]. apply deref_Ok in Hstep as [-> Hl].
  inv_bind H. apply bitset_test_Ok in Hstep as [Hw ->].
  exists k, e. repeat split; [assumption..|].
  destruct (N.testbit (components e) (N.of_nat c)) eqn:Hp; simpl in H.
  - right. inv_bind H. rename a into off, Hstep into Hoff.
    inv_bind H. apply bitset_reset_Ok in Hstep as [_ ->].
    inv_bind H. apply bitset_reset_Ok in Hstep as [_ ->].
    injection H as <-. eauto.
  - left. injection H as <-. auto.
Qed.

Lemma clone_entity_Ok f s id s' :
  clone_entity f s = Ok (id, s') ->
  exists k e,
    f = Some k
    /\ lookup_entity k (entities_ s) = Some e
    /\ id = next_id_ s
    /\ s' = log_events
              (map (Constructed id) (held_components s e (length (components_ s))))
              (with_table (S id) (entities_ s ++ [(id, e)]) s).
Proof.
  unfold clone_entity. intros H. inv_bind H. destruct a as [k e].
  apply deref_Ok in Hstep as [-> Hl]. injection H as <- <-. eauto 10.
Qed.

(** ** Sizes under a changed presence mask *)

Lemma scan_offset_setbit comps (p : bitset) (c k : nat) :
  N.testbit p (N.of_nat c) = false ->
  scan_offset comps (N.setbit p (N.of_nat c)) k
  = scan_offset comps p k + (if c <? k then component_size comps c else 0).
Proof.
  intros Hp. induction k as [|k IH]; simpl; [reflexivity|].
  rewrite IH. rewrite N.setbit_eqb.
  destruct (Nat.ltb_spec c k), (Nat.ltb_spec c (S k)); try lia.
  - destruct (N.eqb_spec (N.of_nat c) (N.of_nat k)); [lia|]. simpl. lia.
  - assert (c = k) as -> by lia. rewrite N.eqb_refl, Hp. simpl. lia.
  - destruct (N.eqb_spec (N.of_nat c) (N.of_nat k)); [lia|]. simpl. lia.
Qed.

Lemma scan_offset_clearbit comps (p : bitset) (c k : nat) :
  N.testbit p (N.of_nat c) = true ->
  scan_offset comps p k
  = scan_offset comps (N.clearbit p (N.of_nat c)) k
    + (if c <? k then component_size comps c else 0).
Proof.
  intros Hp. induction k as [|k IH]; simpl; [reflexivity|].
  rewrite IH. rewrite N.clearbit_eqb.
  destruct (Nat.ltb_spec c k), (Nat.ltb_spec c (S k)); try lia.
  - destruct (N.eqb_spec (N.of_nat c) (N.of_nat k)); [lia|].
    simpl. rewrite andb_true_r. lia.
  - assert (c = k) as -> by lia. rewrite N.eqb_refl, Hp. simpl. lia.
  - destruct (N.eqb_spec (N.of_nat c) (N.of_nat k)); [lia|].
    simpl. rewrite andb_true_r. lia.
Qed.

(** ** Well-formed records *)

Lemma elem_ok_empty comps : elem_ok comps empty_elem.
Proof.
  repeat split; simpl.
  - intros i Hi. discriminate.
  - rewrite scan_offset_zero. reflexivity.
Qed.

Lemma elem_ok_snoc comps c e :
  elem_ok comps e -> elem_ok (comps ++ [c]) e.
Proof.
  intros (Hreg & Hlen & Hd). repeat split; [| |exact Hd].
  - intros i Hi. rewrite length_app. specialize (Hreg i Hi). lia.
  - rewrite Hlen, length_app. simpl.
    replace (length comps + 1) with (S (length comps)) by lia. simpl.
    destruct (N.testbit (components e) (N.of_nat (length comps))) eqn:Hb.
    { specialize (Hreg _ Hb). lia. }
    rewrite Nat.add_0_r. apply scan_offset_ext; [reflexivity|].
    intros i Hi _. symmetry. apply component_size_app_l. exact Hi.
Qed.

Lemma includes_setbit (p d : bitset) (n : N) :
  includes p d = true -> includes (N.setbit p n) (N.setbit d n) = true.
Proof.
  rewrite !includes_spec. intros H i. rewrite !N.setbit_eqb.
  destruct (N.eqb n i); simpl; [reflexivity | apply H].
Qed.

Lemma includes_clearbit (p d : bitset) (n : N) :
  includes p d = true -> includes (N.clearbit p n) (N.clearbit d n) = true.
Proof.
  rewrite !includes_spec. intros H i. rewrite !N.clearbit_eqb.
  destruct (N.eqb n i); simpl; [rewrite !andb_false_r; auto|].
  rewrite !andb_true_r. apply H.
Qed.

Lemma includes_touch (p d : bitset) (n : N) :
  includes p d = true -> N.testbit p n = true ->
  includes p (N.setbit d n) = true.
Proof.
  rewrite !includes_spec. intros H Hp i. rewrite N.setbit_eqb.
  destruct (N.eqb_spec n i) as [<-|]; simpl; [auto | apply H].
Qed.

Lemma includes_clear_dirty (p d : bitset) (n : N) :
  includes p d = true -> includes p (N.clearbit d n) = true.
Proof.
  rewrite !includes_spec. intros H i. rewrite N.clearbit_eqb.
  intros Hi. apply andb_true_iff in Hi as [Hi _]. auto.
Qed.

Lemma length_grown e off csize :
  off <= length (data e) ->
  length (grown e off csize) = length (data e) + csize.
Proof.
  intros H. unfold grown.
  destruct (Nat.ltb_spec (length (data e)) off); [lia|].
  rewrite !length_app, length_take, length_replicate, length_drop. lia.
Qed.

(** The record [set] leaves behind is well formed. *)
Lemma elem_ok_set comps e c off d :
  elem_ok comps e ->
  c < length comps ->
  off = scan_offset comps (components e) c ->
  length d = length (if N.testbit (components e) (N.of_nat c) then data e
                     else grown e off (component_size comps c)) ->
  elem_ok comps {| components := N.setbit (components e) (N.of_nat c);
                   dirty := N.setbit (dirty e) (N.of_nat c);
                   data := d |}.
Proof.
  intros (Hreg & Hlen & Hd) Hc -> Hdl. repeat split; simpl.
  - intros i. rewrite N.setbit_eqb.
    destruct (N.eqb_spec (N.of_nat c) (N.of_nat i)); simpl; [intros _; lia|].
    apply Hreg.
  - rewrite Hdl.
    destruct (N.testbit (components e) (N.of_nat c)) eqn:Hp.
    + rewrite (setbit_present _ _ Hp). exact Hlen.
    + rewrite length_grown.
      * rewrite scan_offset_setbit by exact Hp.
        destruct (Nat.ltb_spec c (length comps)); lia.
      * rewrite Hlen. apply scan_offset_mono. lia.
  - apply includes_setbit, Hd.
Qed.

(** Writing over a present slot and marking it dirty keeps the record well
    formed. *)
Lemma elem_ok_write comps e c d :
  elem_ok comps e ->
  N.testbit (components e) (N.of_nat c) = true ->
  length d = length (data e) ->
  elem_ok comps {| components := components e;
                   dirty := N.setbit (dirty e) (N.of_nat c);
                   data := d |}.
Proof.
  intros (Hreg & Hlen & Hd) Hp Hdl. repeat split; simpl.
  - exact Hreg.
  - rewrite Hdl. exact Hlen.
  - apply includes_touch; assumption.
Qed.

(** Cutting the slot of a present component out keeps the record well
    formed. *)
Lemma elem_ok_remove comps e c :
  elem_ok comps e ->
  N.testbit (components e) (N.of_nat c) = true ->
  elem_ok comps
    {| components := N.clearbit (components e) (N.of_nat c);
       dirty := N.clearbit (dirty e) (N.of_nat c);
       data := take (scan_offset comps (components e) c) (data e)
                 ++ drop (scan_offset comps (components e) c
                          + component_size comps c) (data e) |}.
Proof.
  intros (Hreg & Hlen & Hd) Hp. repeat split; simpl.
  - intros i. rewrite N.clearbit_eqb. intros Hi.
    apply andb_true_iff in Hi as [Hi _]. apply Hreg, Hi.
  - pose proof (Hreg c Hp) as Hc.
    pose proof (scan_offset_clearbit comps _ c (length comps) Hp) as Hsum.
    destruct (Nat.ltb_spec c (length comps)); [|lia].
    pose proof (scan_offset_mono comps (components e) (S c) (length comps)) as Hm.
    simpl in Hm. rewrite Hp in Hm.
    rewrite length_app, length_take, length_drop. lia.
  - apply includes_clearbit, Hd.
Qed.

Lemma elems_ok_store k e evs s :
  elems_ok s -> elem_ok (components_ s) e ->
  elems_ok (log_events evs (store_elem k e s)).
Proof.
  unfold elems_ok. simpl. intros Hs He.
  apply (Forall_update_entity (elem_ok (components_ s))); assumption.
Qed.

Lemma elems_ok_lookup k e s :
  elems_ok s -> lookup_entity k (entities_ s) = Some e ->
  elem_ok (components_ s) e.
Proof.
  intros Hs Hl.
  exact (Forall_lookup_entity (fun ke => elem_ok (components_ s) (snd ke))
           k e _ Hs Hl).
Qed.

Lemma elems_ok_get_or_create id n s :
  elems_ok s -> elems_ok (with_table n (get_or_create id (entities_ s)) s).
Proof.
  unfold elems_ok, get_or_create. simpl. intros Hs.
  destruct (lookup_entity id (entities_ s)); [exact Hs|].
  apply Forall_app. split; [exact Hs|].
  constructor; [apply elem_ok_empty | constructor].
Qed.

Lemma elems_ok_new_entities count s :
  elems_ok s -> elems_ok (snd (new_entities count s)).
Proof.
  revert s. induction count as [|n IH]; intros s Hs; simpl; [exact Hs|].
  specialize (IH _ (elems_ok_get_or_create (next_id_ s) (S (next_id_ s)) s Hs)).
  destruct (new_entities n _) as [[? ?] s2]. exact IH.
Qed.

(** ** The scan of [for_each] *)

Section ScanInvariant.
Variable P : storage -> Prop.
Variable mask : bitset.
Variable visit : entity -> elem -> storage -> result storage.
Hypothesis visit_preserves :
  forall k e s s',
    P s -> lookup_entity k (entities_ s) = Some e ->
    includes (components e) mask = true ->
    visit k e s = Ok s' -> P s'.

(** What every call of the callback preserves, the scan preserves. *)
Lemma scan_entities_preserves fuel i s visited s' out :
  P s -> scan_entities fuel mask visit i s visited = Ok (s', out) -> P s'.
Proof.
  revert i s visited.
  induction fuel as [|fuel IH]; intros [k|] s visited HP H; simpl in H;
    try discriminate; try (injection H as <- _; exact HP).
  destruct (next_entity k (entities_ s)) as [next|]; [|discriminate].
  destruct (lookup_entity k (entities_ s)) as [e|] eqn:Hl; [|discriminate].
  destruct (includes (components e) mask) eqn:Hq.
  - inv_bind H. eapply IH; [|exact H]. eauto.
  - eapply IH; [|exact H]. exact HP.
Qed.
End ScanInvariant.

Lemma same_registry_refl s : same_registry s s.
Proof. repeat split. Qed.

Lemma same_registry_trans s1 s2 s3 :
  same_registry s1 s2 -> same_registry s2 s3 -> same_registry s1 s3.
Proof. unfold same_registry. intros (-> & -> & ->) (-> & -> & ->). auto. Qed.

Lemma offsets_inv_same s s' :
  same_registry s s' -> offsets_inv s -> offsets_inv s'.
Proof.
  intros (Hc & Ho & _). unfold offsets_inv, cached_components.
  rewrite Hc, Ho. auto.
Qed.

Lemma offset_same s s' e c :
  same_registry s s' -> offset s' e c = offset s e c.
Proof.
  intros (Hc & Ho & _). unfold offset, cached_offset. rewrite Hc, Ho. reflexivity.
Qed.

Lemma same_registry_new_entities count s :
  same_registry s (snd (new_entities count s)).
Proof.
  revert s. induction count as [|n IH]; intros s; simpl;
    [apply same_registry_refl|].
  specialize (IH (with_table (S (next_id_ s))
                    (get_or_create (next_id_ s) (entities_ s)) s)).
  destruct (new_entities n _) as [[? ?] s2]. exact IH.
Qed.

Lemma run_callback_same_registry cb i r s s' :
  run_callback cb i r s = Ok s' -> same_registry s s'.
Proof.
  unfold run_callback. destruct (cb (e_ r)); intros H.
  - injection H as <-. apply same_registry_refl.
  - apply var_ref_assign_Ok in H as (? & ? & _ & _ & _ & ->). repeat split.
  - apply var_ref_update_Ok in H as (? & ? & _ & _ & _ & ->). repeat split.
  - apply delete_entity_at_Ok in H as (? & ? & _ & _ & ->). repeat split.
Qed.

Lemma for_each_same_registry t c cb s s' out :
  for_each t c (run_callback cb) s = Ok (s', out) -> same_registry s s'.
Proof.
  unfold for_each. intros H. inv_bind H.
  eapply (scan_entities_preserves (same_registry s)); [|apply same_registry_refl|exact H].
  intros k e s1 s2 Hs1 _ _ Hv. inv_bind Hv.
  eapply same_registry_trans; [exact Hs1|].
  eapply run_callback_same_registry, Hv.
Qed.

(** Every call but a registration leaves the registry as it is. *)
Lemma step_same_registry o s s' :
  (forall ty nm, o <> op_register ty nm) ->
  step o s = Ok s' -> same_registry s s'.
Proof.
  intros Hno H. destruct o; simpl in H.
  - exfalso. eapply Hno. reflexivity.
  - injection H as <-. repeat split.
  - injection H as <-. apply same_registry_new_entities.
  - injection H as <-. repeat split.
  - inv_bind H. destruct a as [id s1]. injection H as <-.
    apply clone_entity_Ok in Hstep as (? & ? & _ & _ & _ & ->). repeat split.
  - inv_bind H. destruct a as [b s1]. injection H as <-.
    unfold delete_entity in Hstep. destruct (find s en).
    + inv_bind Hstep. injection Hstep as _ <-.
      apply delete_entity_at_Ok in Hstep0 as (? & ? & _ & _ & ->). repeat split.
    + injection Hstep as _ <-. apply same_registry_refl.
  - apply remove_component_Ok in H
      as (? & ? & _ & _ & _ & [[_ ->]|(? & _ & _ & ->)]); repeat split.
  - apply set_Ok in H as (? & ? & ? & ? & ? & _ & _ & _ & _ & _ & _ & _ & _ & ->).
    repeat split.
  - destruct (get_entity ty en c s) as [?|[]]; try discriminate;
      injection H as <-; apply same_registry_refl.
  - inv_bind H. destruct a as [s1 out]. injection H as <-.
    eapply for_each_same_registry, Hstep.
  - inv_bind H. injection H as <-. apply same_registry_refl.
  - inv_bind H. destruct a as [b s1]. injection H as <-.
    unfold check_dirty_and_clear in Hstep. inv_bind Hstep. destruct a as [k e].
    injection Hstep as _ <-. repeat split.
  - inv_bind H. injection H as <-. apply same_registry_refl.
  - inv_bind H. destruct a as [b s1]. injection H as <-.
    unfold check_dirty_flag_and_clear in Hstep. inv_bind Hstep.
    destruct a as [k e]. inv_bind Hstep. inv_bind Hstep.
    injection Hstep as _ <-. repeat split.
  - inv_bind H. injection H as <-. apply same_registry_refl.
  - unfold set_raw_data in H. inv_bind H. destruct a as [k e].
    injection H as <-. repeat split.
Qed.

Lemma step_offsets_inv o s s' :
  step o s = Ok s' -> offsets_inv s -> offsets_inv s'.
Proof.
  intros H Hinv. destruct o;
    try (eapply offsets_inv_same; [|exact Hinv];
         eapply step_same_registry; [|exact H]; discriminate).
  simpl in H. inv_bind H. destruct a as [id s1]. injection H as <-.
  eapply offsets_inv_register; eassumption.
Qed.

Lemma run_offsets_inv ops s s' :
  run ops s = Ok s' -> offsets_inv s -> offsets_inv s'.
Proof.
  revert s. induction ops as [|o ops IH]; intros s H Hinv; simpl in H.
  - injection H as <-. exact Hinv.
  - inv_bind H. eapply IH; [exact H|]. eapply step_offsets_inv; eassumption.
Qed.

(** ** Unique keys *)

Lemma table_inv_store k e evs s :
  table_inv s -> table_inv (log_events evs (store_elem k e s)).
Proof. unfold table_inv. simpl. rewrite keys_update_entity. auto. Qed.

Lemma table_inv_erase k evs s :
  table_inv s ->
  table_inv (log_events evs (with_entities (erase_entity k (entities_ s)) s)).
Proof.
  unfold table_inv. simpl. intros [Hnd Hlt].
  assert (Hsub : keys (erase_entity k (entities_ s)) `sublist_of` keys (entities_ s)).
  { unfold keys. apply fmap_sublist, erase_entity_sublist. }
  split.
  - eapply sublist_NoDup; eassumption.
  - rewrite Forall_forall in *. intros x Hx. apply Hlt.
    eapply elem_of_sublist; eassumption.
Qed.

Lemma table_inv_get_or_create id n s :
  table_inv s -> id < n -> next_id_ s <= n ->
  table_inv (with_table n (get_or_create id (entities_ s)) s).
Proof.
  unfold table_inv, get_or_create. simpl. intros [Hnd Hlt] Hid Hn.
  assert (Hlt' : Forall (fun k => k < n) (keys (entities_ s))).
  { eapply Forall_impl; [exact Hlt|]. simpl. intros; lia. }
  destruct (lookup_entity id (entities_ s)) eqn:Hl; [auto|].
  apply lookup_entity_None in Hl.
  unfold keys in *. rewrite fmap_app. simpl. split.
  - apply NoDup_app. repeat split; [exact Hnd| |apply NoDup_singleton].
    intros x Hx Hx'. apply list_elem_of_singleton in Hx'. subst x. exact (Hl Hx).
  - apply Forall_app. split; [exact Hlt'|]. repeat constructor. exact Hid.
Qed.

Lemma table_inv_new_entities count s :
  table_inv s -> table_inv (snd (new_entities count s)).
Proof.
  revert s. induction count as [|n IH]; intros s Hs; simpl; [exact Hs|].
  specialize (IH _ (table_inv_get_or_create (next_id_ s) (S (next_id_ s)) s Hs
                      (Nat.lt_succ_diag_r _) (Nat.le_succ_diag_r _))).
  destruct (new_entities n _) as [[? ?] s2]. exact IH.
Qed.

Lemma table_inv_clone e evs s :
  table_inv s ->
  table_inv (log_events evs
               (with_table (S (next_id_ s))
                  (entities_ s ++ [(next_id_ s, e)]) s)).
Proof.
  unfold table_inv. simpl. intros [Hnd Hlt].
  unfold keys in *. rewrite fmap_app. simpl. split.
  - apply NoDup_app. repeat split; [exact Hnd| |apply NoDup_singleton].
    intros x Hx Hx'. apply list_elem_of_singleton in Hx'. subst x.
    rewrite Forall_forall in Hlt. specialize (Hlt _ Hx). lia.
  - apply Forall_app. split.
    + eapply Forall_impl; [exact Hlt|]. simpl. intros; lia.
    + repeat constructor.
Qed.

Lemma run_callback_table_inv cb i r s s' :
  run_callback cb i r s = Ok s' -> table_inv s -> table_inv s'.
Proof.
  unfold run_callback. destruct (cb (e_ r)); intros H Hs.
  - injection H as <-. exact Hs.
  - apply var_ref_assign_Ok in H as (? & ? & _ & _ & _ & ->).
    apply table_inv_store, Hs.
  - apply var_ref_update_Ok in H as (? & ? & _ & _ & _ & ->).
    apply (table_inv_store _ _ []), Hs.
  - apply delete_entity_at_Ok in H as (? & ? & _ & _ & ->).
    apply table_inv_erase, Hs.
Qed.

Lemma step_table_inv o s s' :
  step o s = Ok s' -> table_inv s -> table_inv s'.
Proof.
  intros H Hs. destruct o; simpl in H.
  - inv_bind H. destruct a as [id s1]. injection H as <-.
    apply register_component_Ok in Hstep as (_ & _ & _ & He & Hn & _).
    unfold table_inv. rewrite He, Hn. exact Hs.
  - injection H as <-. apply table_inv_get_or_create; [exact Hs|lia..].
  - injection H as <-. apply table_inv_new_entities, Hs.
  - injection H as <-. apply table_inv_get_or_create; [exact Hs|lia..].
  - inv_bind H. destruct a as [id s1]. injection H as <-.
    apply clone_entity_Ok in Hstep as (? & ? & _ & _ & -> & ->).
    apply table_inv_clone, Hs.
  - inv_bind H. destruct a as [b s1]. injection H as <-.
    unfold delete_entity in Hstep. destruct (find s en).
    + inv_bind Hstep. injection Hstep as _ <-.
      apply delete_entity_at_Ok in Hstep0 as (? & ? & _ & _ & ->).
      apply table_inv_erase, Hs.
    + injection Hstep as _ <-. exact Hs.
  - apply remove_component_Ok in H
      as (? & ? & _ & _ & _ & [[_ ->]|(? & _ & _ & ->)]);
      [exact Hs | apply table_inv_store, Hs].
  - apply set_Ok in H as (? & ? & ? & ? & ? & _ & _ & _ & _ & _ & _ & _ & _ & ->).
    apply table_inv_store, Hs.
  - destruct (get_entity ty en c s) as [?|[]]; try discriminate;
      injection H as <-; exact Hs.
  - inv_bind H. destruct a as [s1 out]. injection H as <-.
    unfold for_each in Hstep. inv_bind Hstep.
    eapply (scan_entities_preserves table_inv); [|exact Hs|exact Hstep].
    intros k e s1' s2 Hs1 _ _ Hv. inv_bind Hv.
    eapply run_callback_table_inv; eassumption.
  - inv_bind H. injection H as <-. exact Hs.
  - inv_bind H. destruct a as [b s1]. injection H as <-.
    unfold check_dirty_and_clear in Hstep. inv_bind Hstep. destruct a as [k e].
    injection Hstep as _ <-. apply (table_inv_store _ _ []), Hs.
  - inv_bind H. injection H as <-. exact Hs.
  - inv_bind H. destruct a as [b s1]. injection H as <-.
    unfold check_dirty_flag_and_clear in Hstep. inv_bind Hstep.
    destruct a as [k e]. inv_bind Hstep. inv_bind Hstep.
    injection Hstep as _ <-. apply (table_inv_store _ _ []), Hs.
  - inv_bind H. injection H as <-. exact Hs.
  - unfold set_raw_data in H. inv_bind H. destruct a as [k e].
    injection H as <-. apply (table_inv_store _ _ []), Hs.
Qed.

Lemma run_table_inv ops s s' :
  run ops s = Ok s' -> table_inv s -> table_inv s'.
Proof.
  revert s. induction ops as [|o ops IH]; intros s H Hinv; simpl in H.
  - injection H as <-. exact Hinv.
  - inv_bind H. eapply IH; [exact H|]. eapply step_table_inv; eassumption.
Qed.

Lemma table_inv_init : table_inv storage_init.
Proof. split; [apply NoDup_nil_2 | constructor]. Qed.

(** ** Well-formed records under the typed operations *)

Lemma elems_ok_erase k evs s :
  elems_ok s ->
  elems_ok (log_events evs (with_entities (erase_entity k (entities_ s)) s)).
Proof. unfold elems_ok. simpl. apply Forall_erase_entity. Qed.

Lemma mask_of_component (p : bitset) (c : nat) :
  includes p (N.setbit 0 (N.of_nat c)) = true ->
  N.testbit p (N.of_nat c) = true.
Proof.
  rewrite includes_spec. intros H. apply H. apply N.setbit_eq.
Qed.

Lemma run_callback_elems_ok cb k e off c t s s' :
  elems_ok s ->
  lookup_entity k (entities_ s) = Some e ->
  N.testbit (components e) (N.of_nat c) = true ->
  run_callback cb (Some k) (make_var_ref off k c t) s = Ok s' ->
  elems_ok s'.
Proof.
  intros Hs Hl Hp H. unfold run_callback in H. simpl in H.
  pose proof (elems_ok_lookup _ _ _ Hs Hl) as He.
  destruct (cb k).
  - injection H as <-. exact Hs.
  - apply var_ref_assign_Ok in H as (e0 & d & Hl0 & Hwr & _ & ->).
    simpl in *. rewrite Hl in Hl0. injection Hl0 as <-.
    apply write_at_Ok in Hwr as (_ & _ & Hlen).
    apply elems_ok_store; [exact Hs|]. apply elem_ok_write; assumption.
  - apply var_ref_update_Ok in H as (e0 & d & Hl0 & Hlen & _ & ->).
    simpl in *. rewrite Hl in Hl0. injection Hl0 as <-.
    apply (elems_ok_store _ _ []); [exact Hs|]. apply elem_ok_write; assumption.
  - apply delete_entity_at_Ok in H as (? & ? & _ & _ & ->).
    apply elems_ok_erase, Hs.
Qed.

Lemma step_elems_ok o s s' :
  typed o = true -> offsets_inv s ->
  step o s = Ok s' -> elems_ok s -> elems_ok s'.
Proof.
  intros Hty Hoff H Hs. destruct o; simpl in H; try discriminate Hty.
  - inv_bind H. destruct a as [id s1]. injection H as <-.
    apply register_component_Ok in Hstep as (_ & Hc & _ & He & _).
    unfold elems_ok. rewrite He, Hc.
    eapply Forall_impl; [exact Hs|]. intros ke. apply elem_ok_snoc.
  - injection H as <-. apply elems_ok_get_or_create, Hs.
  - injection H as <-. apply elems_ok_new_entities, Hs.
  - injection H as <-. apply elems_ok_get_or_create, Hs.
  - inv_bind H. destruct a as [id s1]. injection H as <-.
    apply clone_entity_Ok in Hstep as (k & e & _ & Hl & _ & ->).
    unfold elems_ok. simpl. apply Forall_app. split; [exact Hs|].
    constructor; [|constructor]. simpl. eapply elems_ok_lookup; eassumption.
  - inv_bind H. destruct a as [b s1]. injection H as <-.
    unfold delete_entity in Hstep. destruct (find s en).
    + inv_bind Hstep. injection Hstep as _ <-.
      apply delete_entity_at_Ok in Hstep0 as (? & ? & _ & _ & ->).
      apply elems_ok_erase, Hs.
    + injection Hstep as _ <-. exact Hs.
  - apply remove_component_Ok in H
      as (k & e & _ & Hl & _ & [[_ ->]|(off & Hp & Ho & ->)]); [exact Hs|].
    pose proof (elems_ok_lookup _ _ _ Hs Hl) as He.
    rewrite offset_scan in Ho; [|exact Hoff|apply He, Hp].
    injection Ho as <-.
    apply elems_ok_store; [exact Hs|]. apply elem_ok_remove; assumption.
  - apply set_Ok in H
      as (k & e & off & d1 & d2 & _ & Hl & Hc & _ & Ho & -> & _ & Hwr & ->).
    pose proof (elems_ok_lookup _ _ _ Hs Hl) as He.
    rewrite offset_scan in Ho by assumption. injection Ho as <-.
    apply write_at_Ok in Hwr as (_ & _ & Hlen).
    apply elems_ok_store; [exact Hs|].
    eapply elem_ok_set; [exact He|exact Hc|reflexivity|exact Hlen].
  - destruct (get_entity ty en c s) as [?|[]]; try discriminate;
      injection H as <-; exact Hs.
  - inv_bind H. destruct a as [s1 out]. injection H as <-.
    unfold for_each in Hstep. inv_bind Hstep.
    apply bitset_set_Ok in Hstep0 as [_ ->].
    eapply (scan_entities_preserves elems_ok); [|exact Hs|exact Hstep].
    intros k e s1' s2 Hs1 Hl Hq Hv. inv_bind Hv.
    eapply run_callback_elems_ok; [exact Hs1|exact Hl| |exact Hv].
    apply mask_of_component, Hq.
  - inv_bind H. injection H as <-. exact Hs.
  - inv_bind H. destruct a as [b s1]. injection H as <-.
    unfold check_dirty_and_clear in Hstep. inv_bind Hstep. destruct a as [k e].
    apply deref_Ok in Hstep0 as [_ Hl]. injection Hstep as _ <-.
    destruct (elems_ok_lookup _ _ _ Hs Hl) as (Hreg & Hlen & _).
    apply (elems_ok_store _ _ []); [exact Hs|].
    repeat split; simpl; [exact Hreg|exact Hlen|].
    unfold includes. rewrite N.land_0_r. reflexivity.
  - inv_bind H. injection H as <-. exact Hs.
  - inv_bind H. destruct a as [b s1]. injection H as <-.
    unfold check_dirty_flag_and_clear in Hstep. inv_bind Hstep.
    destruct a as [k e]. apply deref_Ok in Hstep0 as [_ Hl].
    inv_bind Hstep. inv_bind Hstep.
    apply bitset_reset_Ok in Hstep1 as [_ ->].
    injection Hstep as _ <-.
    destruct (elems_ok_lookup _ _ _ Hs Hl) as (Hreg & Hlen & Hd).
    apply (elems_ok_store _ _ []); [exact Hs|].
    repeat split; simpl; [exact Hreg|exact Hlen|].
    apply includes_clear_dirty, Hd.
  - inv_bind H. injection H as <-. exact Hs.
Qed.

Lemma run_elems_ok ops s s' :
  forallb typed ops = true -> offsets_inv s ->
  run ops s = Ok s' -> elems_ok s -> elems_ok s'.
Proof.
  revert s. induction ops as [|o ops IH]; intros s Hty Hoff H Hs; simpl in *.
  - injection H as <-. exact Hs.
  - apply andb_true_iff in Hty as [Hto Hty]. inv_bind H.
    eapply IH; [exact Hty| |exact H|].
    + eapply step_offsets_inv; eassumption.
    + eapply step_elems_ok; eassumption.
Qed.

Lemma elems_ok_init : elems_ok storage_init.
Proof. constructor. Qed.

Lemma run_init_inv ops s :
  run ops storage_init = Ok s -> offsets_inv s /\ table_inv s.
Proof.
  intros H. split.
  - eapply run_offsets_inv; [exact H | apply offsets_inv_init].
  - eapply run_table_inv; [exact H | apply table_inv_init].
Qed.

Lemma run_init_elems_ok ops s :
  forallb typed ops = true -> run ops storage_init = Ok s -> elems_ok s.
Proof.
  intros Hty H.
  eapply run_elems_ok; [exact Hty|apply offsets_inv_init|exact H|apply elems_ok_init].
Qed.

(** * The claims *)

(** C4 — offset agreement.  In every state the public interface can reach,
    for every presence mask and every registered component id below 12,
    the offset the cache lookup gives is the offset of the scan: the sum of
    the sizes of the present components with a smaller id. *)
Theorem cached_offset_agrees_with_scan ops s (present : bitset) (c : component_id) :
  run ops storage_init = Ok s ->
  c < cache_size -> c < length (components_ s) ->
  cached_offset s present c = Ok (scan_offset (components_ s) present c).
Proof.
  intros H Hc Hreg. apply cached_offset_scan; [|assumption..].
  apply (run_init_inv ops s H).
Qed.

Lemma cached_offset_agrees_with_scan_witness :
  run two_components storage_init = Ok two_components_state
  /\ cached_offset two_components_state 3%N 1
     = Ok (scan_offset (components_ two_components_state) 3%N 1).
Proof.
  split; [reflexivity|].
  apply (cached_offset_agrees_with_scan two_components);
    [reflexivity | unfold cache_size; lia | simpl; lia].
Defined.

(** A registration made when eleven components exist returns id 11 and
    leaves the offset cache as it was. *)
Lemma register_component_eleven ty nm s :
  length (components_ s) = 11 ->
  is_flat ty = true ->
  exists s',
    register_component ty nm s = Ok (11, s')
    /\ component_offsets_ s' = component_offsets_ s.
Proof.
  intros Hn Hflat. unfold register_component. rewrite Hflat. simpl.
  rewrite length_app, Hn. simpl. eauto.
Qed.

(** Registrations of a flat type never fail. *)
Lemma run_register_flat n s :
  exists s',
    run (replicate n (op_register t_unit "c")) s = Ok s'
    /\ length (components_ s') = length (components_ s) + n.
Proof.
  revert s. induction n as [|n IH]; intros s; simpl.
  - exists s. split; [reflexivity | lia].
  - match goal with
    | |- context [run _ ?s1] => destruct (IH s1) as (s' & Hrun & Hlen)
    end.
    exists s'. split; [exact Hrun|].
    rewrite Hlen. simpl. rewrite length_app. simpl. lia.
Qed.

(** C8 — registration and the offset cache.  Ids are handed out in
    sequence from 0 and the registrations of ids 0 to 10 double the cache,
    but the twelfth registration, of id 11, does not: after eleven
    components the cache has 2048 entries, and registering one more returns
    id 11 and leaves those 2048 entries as they are. *)
Theorem register_id_11_not_cached :
  exists s11 s12,
    run eleven_components storage_init = Ok s11
    /\ length (component_offsets_ s11) = 2048
    /\ register_component t_unit "c" s11 = Ok (11, s12)
    /\ component_offsets_ s12 = component_offsets_ s11.
Proof.
  destruct (run_register_flat 11 storage_init) as (s11 & Hrun & Hn).
  simpl in Hn.
  destruct (register_component_eleven t_unit "c" s11 Hn eq_refl) as (s12 & Hr & Ho).
  exists s11, s12. repeat split; [exact Hrun| |exact Hr|exact Ho].
  destruct (run_init_inv _ _ Hrun) as [[Hlen _] _].
  rewrite Hlen. unfold cached_components. rewrite Hn. reflexivity.
Qed.

Lemma elems_ok_elem_of k e s :
  elems_ok s -> (k, e) ∈ entities_ s -> elem_ok (components_ s) e.
Proof.
  unfold elems_ok. rewrite Forall_forall. intros Hs Hin. exact (Hs _ Hin).
Qed.

(** C3 — packing invariant.  In every state reached through the typed
    operations, the buffer of every record is as long as the sizes of its
    present components add up to, and every registered component has its
    slot at the sum of the sizes of the present components with a smaller
    id, inside the buffer when the component is present: the slots follow
    one another in ascending id order without gaps. *)
Theorem packing_invariant ops s (k : entity) (e : elem) :
  forallb typed ops = true ->
  run ops storage_init = Ok s ->
  (k, e) ∈ entities_ s ->
  length (data e) = packed_size s e
  /\ forall c, c < length (components_ s) ->
       offset s e c = Ok (scan_offset (components_ s) (components e) c)
       /\ (N.testbit (components e) (N.of_nat c) = true ->
           scan_offset (components_ s) (components e) c
           + component_size (components_ s) c <= length (data e)).
Proof.
  intros Hty Hrun Hin.
  pose proof (run_init_elems_ok _ _ Hty Hrun) as Hs.
  destruct (run_init_inv _ _ Hrun) as [Hoff _].
  destruct (elems_ok_elem_of _ _ _ Hs Hin) as (Hreg & Hlen & _).
  split; [exact Hlen|].
  intros c Hc. split; [apply offset_scan; assumption|].
  intros Hp. rewrite Hlen.
  pose proof (scan_offset_mono (components_ s) (components e) (S c)
                (length (components_ s)) Hc) as Hm.
  simpl in Hm. rewrite Hp in Hm. exact Hm.
Qed.

Lemma packing_invariant_witness :
  run sample_program storage_init = Ok sample_state
  /\ length (data sample_elem) = packed_size sample_state sample_elem.
Proof.
  split; [reflexivity|].
  apply (packing_invariant sample_program sample_state 0 sample_elem);
    [reflexivity | reflexivity | apply list_elem_of_here].
Defined.

(** C6 — no component is dirty without being present.  In every state
    reached through the operations other than [set_raw_data], the dirty mask
    of every record is a subset of its presence mask; [set_raw_data] puts
    the given presence mask and buffer in the record and leaves the dirty
    mask as it was. *)
Theorem dirty_subset_of_presence ops s (k : entity) (e : elem) :
  forallb typed ops = true ->
  run ops storage_init = Ok s ->
  (k, e) ∈ entities_ s ->
  includes (components e) (dirty e) = true
  /\ forall comps d,
       exists s',
         set_raw_data (Some k) comps d s = Ok s'
         /\ lookup_entity k (entities_ s')
            = Some {| components := comps; dirty := dirty e; data := d |}.
Proof.
  intros Hty Hrun Hin.
  pose proof (run_init_elems_ok _ _ Hty Hrun) as Hs.
  destruct (run_init_inv _ _ Hrun) as [_ [Hnd _]].
  destruct (elems_ok_elem_of _ _ _ Hs Hin) as (_ & _ & Hd).
  split; [exact Hd|].
  intros comps d. pose proof (lookup_entity_NoDup _ _ _ Hnd Hin) as Hl.
  unfold set_raw_data. rewrite (deref_Some _ _ _ Hl). simpl.
  eexists. split; [reflexivity|].
  apply lookup_update_entity_eq. eapply lookup_entity_Some_key, Hl.
Qed.

Lemma dirty_subset_of_presence_witness :
  run sample_program storage_init = Ok sample_state
  /\ includes (components sample_elem) (dirty sample_elem) = true.
Proof.
  split; [reflexivity|].
  apply (dirty_subset_of_presence sample_program sample_state 0 sample_elem);
    [reflexivity | reflexivity | apply list_elem_of_here].
Defined.

(** The claim of C6 fails for [set_raw_data]: after it has put the empty
    presence mask in a record with dirty components, the dirty mask is not
    a subset of the presence mask. *)
Lemma set_raw_data_leaves_dirty :
  exists s e,
    run (sample_program ++ [op_set_raw_data 0 0%N []]) storage_init = Ok s
    /\ lookup_entity 0 (entities_ s) = Some e
    /\ includes (components e) (dirty e) = false.
Proof. eexists. eexists. vm_compute. repeat split. Qed.

(** ** Presence of an entity *)

Lemma count_entity_zero (k : entity) (l : stor_impl) :
  count_entity k l = 0 <-> lookup_entity k l = None.
Proof.
  induction l as [|[k' e'] l IH]; simpl; [tauto|].
  destruct (Nat.eqb k' k); simpl; [split; [lia | discriminate] | exact IH].
Qed.

Lemma exists_true s en :
  exists_ s en = true <-> exists e, lookup_entity en (entities_ s) = Some e.
Proof.
  unfold exists_. rewrite negb_true_iff, Nat.eqb_neq, count_entity_zero.
  destruct (lookup_entity en (entities_ s)); split; eauto; try congruence.
  intros [e He]. discriminate.
Qed.

Lemma exists_false s en :
  exists_ s en = false <-> lookup_entity en (entities_ s) = None.
Proof.
  unfold exists_. rewrite negb_false_iff, Nat.eqb_eq. apply count_entity_zero.
Qed.

Lemma find_present s en e :
  lookup_entity en (entities_ s) = Some e -> find s en = Some en.
Proof. intros H. unfold find. rewrite H. reflexivity. Qed.

Lemma find_absent s en :
  lookup_entity en (entities_ s) = None -> find s en = None.
Proof. intros H. unfold find. rewrite H. reflexivity. Qed.

(** ** Reading back what was written *)

Lemma read_at_write_at off val d d' :
  write_at off val d = Ok d' -> read_at off (length val) d' = Ok val.
Proof.
  intros H. apply write_at_Ok in H as (Hfit & -> & Hlen).
  unfold read_at. rewrite !length_app, length_take, length_drop.
  destruct (Nat.leb_spec (off + length val)
              (off `min` length d
               + (length val + (length d - (off + length val)))));
    [|lia].
  f_equal. rewrite drop_app_length'; [|rewrite length_take; lia].
  rewrite take_app_length. reflexivity.
Qed.

(** On a well-formed record [set] returns, and leaves the value in the slot
    of the component. *)
Lemma set_succeeds ty k c val s e :
  offsets_inv s ->
  lookup_entity k (entities_ s) = Some e ->
  elem_ok (components_ s) e ->
  c < length (components_ s) -> c < bitset_width ->
  component_size (components_ s) c = storage_size ty ->
  length val = storage_size ty ->
  exists d,
    read_at (scan_offset (components_ s) (components e) c) (length val) d = Ok val
    /\ set ty (Some k) c val s
       = Ok (log_events (construct ty k c)
               (store_elem k
                  {| components := N.setbit (components e) (N.of_nat c);
                     dirty := N.setbit (dirty e) (N.of_nat c);
                     data := d |} s)).
Proof.
  intros Hoff Hl (Hreg & Hlen & Hd) Hc Hw Hsz Hval.
  set (off := scan_offset (components_ s) (components e) c).
  set (d1 := if N.testbit (components e) (N.of_nat c) then data e
             else grown e off (component_size (components_ s) c)).
  assert (Hfit : off + storage_size ty <= length d1).
  { unfold d1. destruct (N.testbit (components e) (N.of_nat c)) eqn:Hp.
    - rewrite Hlen, <- Hsz.
      pose proof (scan_offset_mono (components_ s) (components e) (S c)
                    (length (components_ s)) Hc) as Hm.
      simpl in Hm. rewrite Hp in Hm. exact Hm.
    - assert (Hle : off <= length (data e)).
      { rewrite Hlen. apply scan_offset_mono. lia. }
      rewrite length_grown, Hsz by exact Hle. lia. }
  destruct (write_at off val d1) as [d2|f] eqn:Hwr.
  2:{ unfold write_at in Hwr.
      destruct (Nat.leb_spec (off + length val) (length d1)); [discriminate|lia]. }
  exists d2. split; [eapply read_at_write_at, Hwr|].
  unfold set.
  destruct (Nat.ltb_spec c (length (components_ s))) as [_|]; [|lia].
  cbn [negb]. rewrite (deref_Some _ _ _ Hl). cbn [bind].
  rewrite (offset_scan s e c Hoff Hc). cbn [bind]. fold off.
  rewrite (bitset_test_lt _ _ Hw). cbn [bind].
  destruct (N.testbit (components e) (N.of_nat c)) eqn:Hp; cbn [negb bind].
  - destruct (Nat.leb_spec (off + storage_size ty) (length (data e)));
      [|unfold d1 in Hfit; lia]. cbn [negb].
    unfold d1 in Hwr. rewrite Hwr. cbn [bind].
    rewrite (bitset_set_lt _ _ Hw). cbn [bind].
    rewrite (setbit_present _ _ Hp). reflexivity.
  - rewrite (bitset_set_lt _ _ Hw). cbn [bind data components dirty].
    destruct (Nat.leb_spec (off + storage_size ty)
                (length (grown e off (component_size (components_ s) c))));
      [|unfold d1 in Hfit; lia]. cbn [negb].
    unfold d1 in Hwr. rewrite Hwr. cbn [bind].
    rewrite (bitset_set_lt _ _ Hw). reflexivity.
Qed.

(** C1 — round trip.  In a state reached through the typed operations, for
    an entity of the table, a registered component id and a value of the
    type the component was registered with, [set] returns, and [get] then
    gives a reference under which the value is read back. *)
Theorem set_get_roundtrip ops s ty (en : entity) (c : component_id)
    (val : list byte) :
  forallb typed ops = true ->
  run ops storage_init = Ok s ->
  exists_ s en = true ->
  c < length (components_ s) -> c < bitset_width ->
  component_size (components_ s) c = storage_size ty ->
  length val = storage_size ty ->
  exists s' r,
    set_entity ty en c val s = Ok s'
    /\ get_entity ty en c s' = Ok r
    /\ read r s' = Ok val.
Proof.
  intros Hty Hrun Hex Hc Hw Hsz Hval.
  pose proof (run_init_elems_ok _ _ Hty Hrun) as Hs.
  destruct (run_init_inv _ _ Hrun) as [Hoff _].
  apply exists_true in Hex as [e Hl].
  pose proof (elems_ok_lookup _ _ _ Hs Hl) as He.
  destruct (set_succeeds ty en c val s e Hoff Hl He Hc Hw Hsz Hval)
    as (d & Hrd & Hset).
  unfold set_entity. rewrite (find_present _ _ _ Hl), Hset.
  set (e' := {| components := N.setbit (components e) (N.of_nat c);
                dirty := N.setbit (dirty e) (N.of_nat c);
                data := d |}).
  set (s' := log_events (construct ty en c) (store_elem en e' s)).
  assert (Hl' : lookup_entity en (entities_ s') = Some e').
  { eapply lookup_store_elem, Hl. }
  exists s', {| ref_entity := en;
                ref_offset := scan_offset (components_ s) (components e) c;
                ref_type := ty |}.
  split; [reflexivity|]. split.
  - unfold get_entity. rewrite (find_present _ _ _ Hl').
    unfold get. rewrite (deref_Some _ _ _ Hl'). simpl.
    rewrite (bitset_test_lt _ _ Hw). simpl.
    rewrite N.setbit_eq. simpl.
    unfold get_elem.
    rewrite (offset_same s s') by (repeat split).
    rewrite (offset_scan s e' c Hoff Hc). simpl. do 2 f_equal.
    apply scan_offset_ext; [|reflexivity].
    intros i Hi. apply N.setbit_neq. lia.
  - unfold read. simpl ref_entity. rewrite (deref_Some _ _ _ Hl'). simpl.
    rewrite <- Hval. exact Hrd.
Qed.

Lemma set_get_roundtrip_witness :
  run sample_program storage_init = Ok sample_state
  /\ exists s' r,
       set_entity t_name 1 1 [b2; b1; b2] sample_state = Ok s'
       /\ get_entity t_name 1 1 s' = Ok r
       /\ read r s' = Ok [b2; b1; b2].
Proof.
  split; [reflexivity|].
  apply (set_get_roundtrip sample_program sample_state t_name 1 1 [b2; b1; b2]);
    first [reflexivity | simpl; unfold bitset_width; lia].
Defined.

(** C2 — presence and readability.  In every state the public interface
    can reach, for an entity of the table and a registered component id,
    [get] returns a reference exactly when the presence bit of the component
    is set in the record, and faults with [Missing_component] when it is
    not. *)
Theorem get_iff_present ops s ty (en : entity) (e : elem) (c : component_id) :
  run ops storage_init = Ok s ->
  lookup_entity en (entities_ s) = Some e ->
  c < length (components_ s) -> c < bitset_width ->
  ((exists r, get_entity ty en c s = Ok r)
   <-> N.testbit (components e) (N.of_nat c) = true)
  /\ (N.testbit (components e) (N.of_nat c) = false ->
      get_entity ty en c s = Fault Missing_component).
Proof.
  intros Hrun Hl Hc Hw.
  destruct (run_init_inv _ _ Hrun) as [Hoff _].
  unfold get_entity. rewrite (find_present _ _ _ Hl).
  unfold get. rewrite (deref_Some _ _ _ Hl). cbn [bind].
  rewrite (bitset_test_lt _ _ Hw). cbn [bind].
  unfold get_elem. rewrite (offset_scan s e c Hoff Hc). cbn [bind].
  destruct (N.testbit (components e) (N.of_nat c)); cbn [negb].
  - split; [|discriminate]. split; [reflexivity | eauto].
  - split; [|reflexivity]. split; [intros [r Hr]; discriminate | discriminate].
Qed.

Lemma get_iff_present_witness :
  run sample_program storage_init = Ok sample_state
  /\ get_entity t_name 1 1 sample_state = Fault Missing_component.
Proof.
  split; [reflexivity|].
  apply (get_iff_present sample_program sample_state t_name 1
           {| components := 1%N; dirty := 1%N; data := [b1; b2] |} 1);
    first [reflexivity | simpl; unfold bitset_width; lia].
Defined.

(** The handle-taking overloads do not test their handle: on one that
    points to no record of the table, [end()] or a stale one, [get]
    dereferences it at once, and [set] once its assertion on the component
    id has passed. *)
Lemma handle_overloads_unchecked ty (it : iterator) (c : component_id)
    (val : list byte) s :
  (forall k, it = Some k -> lookup_entity k (entities_ s) = None) ->
  get ty it c s = Fault Undefined_behaviour
  /\ (c < length (components_ s) ->
      set ty it c val s = Fault Undefined_behaviour).
Proof.
  intros Hit.
  assert (Hd : deref it s = Fault Undefined_behaviour).
  { unfold deref. destruct it as [k|]; [|reflexivity].
    rewrite (Hit k eq_refl). reflexivity. }
  split.
  - unfold get. rewrite Hd. reflexivity.
  - intros Hc. unfold set.
    destruct (Nat.ltb_spec c (length (components_ s))); [|lia].
    cbn [negb]. rewrite Hd. reflexivity.
Qed.

(** C10 — [exists] is the precondition of the entity-taking overloads.  In
    a state reached through the typed operations, for a registered
    component id and a value of the registered size: [set] on an entity
    returns exactly when the entity exists, and [get] on an entity returns
    or throws its [Missing_component] exactly when the entity exists.  The
    overloads pass the handle [find] gives to the handle-taking ones
    without a test of their own, and those do not test it either: for an
    entity that does not exist the outcome of both is undefined behaviour,
    and no error of the interface tells of the absence. *)
Theorem entity_overloads_unchecked ops s ty (en : entity) (c : component_id)
    (val : list byte) :
  forallb typed ops = true ->
  run ops storage_init = Ok s ->
  c < length (components_ s) -> c < bitset_width ->
  component_size (components_ s) c = storage_size ty ->
  length val = storage_size ty ->
  (exists_ s en = true <-> exists s', set_entity ty en c val s = Ok s')
  /\ (exists_ s en = true
      <-> (exists r, get_entity ty en c s = Ok r)
          \/ get_entity ty en c s = Fault Missing_component)
  /\ (exists_ s en = false ->
      set_entity ty en c val s = Fault Undefined_behaviour
      /\ get_entity ty en c s = Fault Undefined_behaviour)
  /\ (forall it : iterator,
        (forall k, it = Some k -> lookup_entity k (entities_ s) = None) ->
        set ty it c val s = Fault Undefined_behaviour
        /\ get ty it c s = Fault Undefined_behaviour).
Proof.
  intros Hty Hrun Hc Hw Hsz Hval.
  pose proof (run_init_elems_ok _ _ Hty Hrun) as Hs.
  destruct (run_init_inv _ _ Hrun) as [Hoff _].
  assert (Habsent : exists_ s en = false ->
                    set_entity ty en c val s = Fault Undefined_behaviour
                    /\ get_entity ty en c s = Fault Undefined_behaviour).
  { intros Hex. apply exists_false in Hex.
    unfold set_entity, get_entity. rewrite (find_absent _ _ Hex).
    destruct (handle_overloads_unchecked ty None c val s) as [Hg Hset];
      [discriminate|].
    split; [apply Hset, Hc | exact Hg]. }
  split; [|split; [|split]].
  - split.
    + intros Hex. apply exists_true in Hex as [e Hl].
      pose proof (elems_ok_lookup _ _ _ Hs Hl) as He.
      destruct (set_succeeds ty en c val s e Hoff Hl He Hc Hw Hsz Hval)
        as (d & _ & Hset).
      unfold set_entity. rewrite (find_present _ _ _ Hl), Hset. eauto.
    + intros [s' Hset]. destruct (exists_ s en) eqn:Hex; [reflexivity|].
      destruct (Habsent eq_refl) as [Hf _]. congruence.
  - split.
    + intros Hex. apply exists_true in Hex as [e Hl].
      unfold get_entity. rewrite (find_present _ _ _ Hl).
      unfold get. rewrite (deref_Some _ _ _ Hl). cbn [bind].
      rewrite (bitset_test_lt _ _ Hw). cbn [bind].
      destruct (N.testbit (components e) (N.of_nat c)); cbn [negb];
        [|right; reflexivity].
      left. unfold get_elem. rewrite (offset_scan s e c Hoff Hc). cbn [bind].
      eauto.
    + intros H. destruct (exists_ s en) eqn:Hex; [reflexivity|].
      destruct (Habsent eq_refl) as [_ Hg].
      destruct H as [[r Hr]|Hm]; congruence.
  - exact Habsent.
  - intros it Hit.
    destruct (handle_overloads_unchecked ty it c val s Hit) as [Hg Hset].
    split; [apply Hset, Hc | exact Hg].
Qed.

Lemma entity_overloads_unchecked_witness :
  run sample_program storage_init = Ok sample_state
  /\ (exists_ sample_state 7 = true
      <-> exists s', set_entity t_pos 7 0 [b1; b1] sample_state = Ok s').
Proof.
  split; [reflexivity|].
  apply (entity_overloads_unchecked sample_program sample_state t_pos 7 0
           [b1; b1]);
    first [reflexivity | simpl; unfold bitset_width; lia].
Defined.

(** On the sample table: entity 7 does not exist, and both overloads run
    into undefined behaviour on it; entity 1 exists, and [set] returns. *)
Example entity_overloads_sample :
  exists_ sample_state 7 = false
  /\ set_entity t_pos 7 0 [b1; b1] sample_state = Fault Undefined_behaviour
  /\ get_entity t_pos 7 0 sample_state = Fault Undefined_behaviour
  /\ exists_ sample_state 1 = true
  /\ exists s', set_entity t_pos 1 0 [b1; b1] sample_state = Ok s'.
Proof. repeat split. eexists. reflexivity. Qed.

(** ** The dirty flag between writes *)

Lemma lookup_update_entity (k k' : entity) (e : elem) (l : stor_impl) :
  lookup_entity k' (update_entity k e l)
  = if Nat.eqb k k'
    then match lookup_entity k' l with Some _ => Some e | None => None end
    else lookup_entity k' l.
Proof.
  destruct (Nat.eqb_spec k k') as [<-|Hne].
  - destruct (lookup_entity k l) eqn:Hl.
    + apply lookup_update_entity_eq. eapply lookup_entity_Some_key, Hl.
    + apply lookup_entity_None. rewrite keys_update_entity.
      apply lookup_entity_None, Hl.
  - apply lookup_update_entity_ne, Hne.
Qed.

Lemma lookup_erase_entity_eq (k : entity) (l : stor_impl) :
  NoDup (keys l) -> lookup_entity k (erase_entity k l) = None.
Proof.
  unfold keys. induction l as [|[k' e'] l IH]; simpl; intros Hnd; [reflexivity|].
  apply NoDup_cons in Hnd as [Hk' Hnd].
  destruct (Nat.eqb_spec k' k) as [->|Hne]; simpl.
  - apply lookup_entity_None, Hk'.
  - destruct (Nat.eqb_spec k' k); [congruence | auto].
Qed.

Lemma flag_clear_store en c k e evs s :
  flag_clear en c s ->
  (k = en -> N.testbit (dirty e) (N.of_nat c) = false) ->
  flag_clear en c (log_events evs (store_elem k e s)).
Proof.
  intros (Ht & Hd & Hn) He. split; [apply table_inv_store, Ht|].
  split; [|exact Hn].
  unfold dirty_bit in *. simpl. rewrite lookup_update_entity.
  destruct (Nat.eqb_spec k en) as [Heq|_]; [|exact Hd].
  destruct (lookup_entity en (entities_ s)); [auto | reflexivity].
Qed.

Lemma flag_clear_erase en c k evs s :
  flag_clear en c s ->
  flag_clear en c
    (log_events evs (with_entities (erase_entity k (entities_ s)) s)).
Proof.
  intros (Ht & Hd & Hn). split; [apply table_inv_erase, Ht|].
  split; [|exact Hn].
  unfold dirty_bit in *. simpl.
  destruct (Nat.eq_dec k en) as [->|Hne].
  - rewrite lookup_erase_entity_eq by apply Ht. reflexivity.
  - rewrite lookup_erase_entity_ne by exact Hne. exact Hd.
Qed.

Lemma flag_clear_get_or_create en c id n s :
  flag_clear en c s -> id < n -> next_id_ s <= n ->
  flag_clear en c (with_table n (get_or_create id (entities_ s)) s).
Proof.
  intros (Ht & Hd & Hn) Hid Hle.
  split; [apply table_inv_get_or_create; assumption|].
  split; [|simpl; lia].
  unfold dirty_bit, get_or_create in *. simpl.
  destruct (lookup_entity id (entities_ s)); [exact Hd|].
  rewrite lookup_entity_app.
  destruct (lookup_entity en (entities_ s)); [exact Hd|]. simpl.
  destruct (Nat.eqb id en); reflexivity.
Qed.

Lemma flag_clear_new_entities en c count s :
  flag_clear en c s -> flag_clear en c (snd (new_entities count s)).
Proof.
  revert s. induction count as [|n IH]; intros s Hs; simpl; [exact Hs|].
  specialize (IH _ (flag_clear_get_or_create en c (next_id_ s) (S (next_id_ s))
                      s Hs (Nat.lt_succ_diag_r _) (Nat.le_succ_diag_r _))).
  destruct (new_entities n _) as [[? ?] s2]. exact IH.
Qed.

Lemma flag_clear_clone en c e evs s :
  flag_clear en c s ->
  flag_clear en c
    (log_events evs
       (with_table (S (next_id_ s)) (entities_ s ++ [(next_id_ s, e)]) s)).
Proof.
  intros (Ht & Hd & Hn). split; [apply table_inv_clone, Ht|].
  split; [|simpl; lia].
  unfold dirty_bit in *. simpl. rewrite lookup_entity_app.
  destruct (lookup_entity en (entities_ s)); [exact Hd|]. simpl.
  destruct (Nat.eqb_spec (next_id_ s) en); [lia | reflexivity].
Qed.

Lemma dirty_bit_lookup s en c e :
  lookup_entity en (entities_ s) = Some e ->
  dirty_bit s en c = N.testbit (dirty e) (N.of_nat c).
Proof. intros H. unfold dirty_bit. rewrite H. reflexivity. Qed.

Lemma testbit_setbit_other (d : bitset) (c c' : nat) :
  c' <> c ->
  N.testbit (N.setbit d (N.of_nat c')) (N.of_nat c) = N.testbit d (N.of_nat c).
Proof. intros H. apply N.setbit_neq. lia. Qed.

Lemma testbit_clearbit_false (d : bitset) (n m : N) :
  N.testbit d m = false -> N.testbit (N.clearbit d n) m = false.
Proof. intros H. rewrite N.clearbit_eqb, H. reflexivity. Qed.

(** A callback that does not write component [c] of entity [en] leaves its
    dirty flag clear. *)
Lemma run_callback_flag_clear en c cb k off c' t s s' :
  flag_clear en c s ->
  (k = en -> c' = c ->
   match cb en with cb_assign _ | cb_update _ => False | _ => True end) ->
  run_callback cb (Some k) (make_var_ref off k c' t) s = Ok s' ->
  flag_clear en c s'.
Proof.
  intros Hs Hcb H. unfold run_callback in H. simpl in H.
  destruct (cb k) eqn:Hk.
  - injection H as <-. exact Hs.
  - apply var_ref_assign_Ok in H as (e0 & d & Hl0 & _ & _ & ->). simpl in *.
    apply flag_clear_store; [exact Hs|]. intros ->. simpl.
    destruct (Nat.eq_dec c' c) as [Hc|Hc].
    + specialize (Hcb eq_refl Hc). rewrite Hk in Hcb. contradiction.
    + rewrite testbit_setbit_other by exact Hc.
      rewrite <- (dirty_bit_lookup s en c e0 Hl0). apply Hs.
  - apply var_ref_update_Ok in H as (e0 & d & Hl0 & _ & _ & ->). simpl in *.
    apply (flag_clear_store _ _ _ _ []); [exact Hs|]. intros ->. simpl.
    destruct (Nat.eq_dec c' c) as [Hc|Hc].
    + specialize (Hcb eq_refl Hc). rewrite Hk in Hcb. contradiction.
    + rewrite testbit_setbit_other by exact Hc.
      rewrite <- (dirty_bit_lookup s en c e0 Hl0). apply Hs.
  - apply delete_entity_at_Ok in H as (? & ? & [= <-] & _ & ->).
    apply flag_clear_erase, Hs.
Qed.

(** A call that does not write component [c] of entity [en] leaves its
    dirty flag clear. *)
Lemma step_flag_clear en c o s s' :
  writes_to en c o = false ->
  step o s = Ok s' -> flag_clear en c s -> flag_clear en c s'.
Proof.
  intros Hw H Hs. destruct o; simpl in H.
  - inv_bind H. destruct a as [id s1]. injection H as <-.
    apply register_component_Ok in Hstep as (_ & _ & _ & He & Hn & _).
    unfold flag_clear, table_inv, dirty_bit in *. rewrite He, Hn. exact Hs.
  - injection H as <-. apply flag_clear_get_or_create; [exact Hs|lia..].
  - injection H as <-. apply flag_clear_new_entities, Hs.
  - injection H as <-. apply flag_clear_get_or_create; [exact Hs|lia..].
  - inv_bind H. destruct a as [id s1]. injection H as <-.
    apply clone_entity_Ok in Hstep as (? & ? & _ & _ & -> & ->).
    apply flag_clear_clone, Hs.
  - inv_bind H. destruct a as [b s1]. injection H as <-.
    unfold delete_entity in Hstep. destruct (find s en0).
    + inv_bind Hstep. injection Hstep as _ <-.
      apply delete_entity_at_Ok in Hstep0 as (? & ? & _ & _ & ->).
      apply flag_clear_erase, Hs.
    + injection Hstep as _ <-. exact Hs.
  - apply remove_component_Ok in H
      as (k & e & _ & Hl & _ & [[_ ->]|(off & _ & _ & ->)]); [exact Hs|].
    apply flag_clear_store; [exact Hs|]. intros ->. simpl.
    apply testbit_clearbit_false.
    rewrite <- (dirty_bit_lookup s en c e Hl). apply Hs.
  - unfold set_entity in H.
    apply set_Ok in H
      as (k & e & ? & ? & ? & Hf & Hl & _ & _ & _ & _ & _ & _ & ->).
    assert (k = en0) as ->.
    { unfold find in Hf. destruct (lookup_entity en0 (entities_ s));
        congruence. }
    apply flag_clear_store; [exact Hs|]. intros ->. simpl in *.
    rewrite Nat.eqb_refl in Hw. simpl in Hw. apply Nat.eqb_neq in Hw.
    rewrite testbit_setbit_other by exact Hw.
    rewrite <- (dirty_bit_lookup s en c e Hl). apply Hs.
  - destruct (get_entity ty en0 c0 s) as [?|[]]; try discriminate;
      injection H as <-; exact Hs.
  - inv_bind H. destruct a as [s1 out]. injection H as <-.
    unfold for_each in Hstep. inv_bind Hstep.
    eapply (scan_entities_preserves (flag_clear en c)); [|exact Hs|exact Hstep].
    intros k e s1' s2 Hs1 _ _ Hv. inv_bind Hv.
    eapply run_callback_flag_clear; [exact Hs1| |exact Hv].
    intros _ ->. simpl in Hw. rewrite Nat.eqb_refl in Hw. simpl in Hw.
    destruct (cb en); [exact I|discriminate..|exact I].
  - inv_bind H. injection H as <-. exact Hs.
  - inv_bind H. destruct a as [b s1]. injection H as <-.
    unfold check_dirty_and_clear in Hstep. inv_bind Hstep. destruct a as [k e].
    injection Hstep as _ <-.
    apply (flag_clear_store _ _ _ _ []); [exact Hs|]. intros _. reflexivity.
  - inv_bind H. injection H as <-. exact Hs.
  - inv_bind H. destruct a as [b s1]. injection H as <-.
    unfold check_dirty_flag_and_clear in Hstep. inv_bind Hstep.
    destruct a as [k e]. apply deref_Ok in Hstep0 as [_ Hl].
    inv_bind Hstep. inv_bind Hstep.
    apply bitset_reset_Ok in Hstep1 as [_ ->].
    injection Hstep as _ <-.
    apply (flag_clear_store _ _ _ _ []); [exact Hs|]. intros ->. simpl.
    apply testbit_clearbit_false.
    rewrite <- (dirty_bit_lookup s en c e Hl). apply Hs.
  - inv_bind H. injection H as <-. exact Hs.
  - unfold set_raw_data in H. inv_bind H. destruct a as [k e].
    apply deref_Ok in Hstep as [_ Hl]. injection H as <-.
    apply (flag_clear_store _ _ _ _ []); [exact Hs|]. intros ->. simpl.
    rewrite <- (dirty_bit_lookup s en c e Hl). apply Hs.
Qed.

Lemma run_flag_clear en c ops s s' :
  forallb (fun o => negb (writes_to en c o)) ops = true ->
  run ops s = Ok s' -> flag_clear en c s -> flag_clear en c s'.
Proof.
  revert s. induction ops as [|o ops IH]; intros s Hw H Hs; simpl in *.
  - injection H as <-. exact Hs.
  - apply andb_true_iff in Hw as [Ho Hw]. apply negb_true_iff in Ho.
    inv_bind H. eapply IH; [exact Hw|exact H|].
    eapply step_flag_clear; eassumption.
Qed.

Lemma check_dirty_flag_present s en c e :
  lookup_entity en (entities_ s) = Some e -> c < bitset_width ->
  check_dirty_flag (find s en) c s = Ok (N.testbit (dirty e) (N.of_nat c)).
Proof.
  intros Hl Hw. unfold check_dirty_flag.
  rewrite (find_present _ _ _ Hl), (deref_Some _ _ _ Hl). cbn [bind].
  apply bitset_test_lt, Hw.
Qed.

Lemma check_dirty_flag_absent s en c :
  lookup_entity en (entities_ s) = None ->
  check_dirty_flag (find s en) c s = Fault Undefined_behaviour.
Proof. intros Hl. unfold check_dirty_flag. rewrite (find_absent _ _ Hl). reflexivity. Qed.

Lemma find_Some s en k : find s en = Some k -> k = en.
Proof.
  unfold find. destruct (lookup_entity en (entities_ s)); congruence.
Qed.

(** C9 — dirty semantics.  Right after a [set] of component [c] of entity
    [en], [check_dirty_flag] tells true.  After a
    [check_dirty_flag_and_clear], in a state the public interface can reach,
    it tells false, and it never tells true again, and tells false as long
    as the entity exists, through any calls that do not write component [c]
    of [en]. *)
Theorem dirty_flag_semantics ty (en : entity) (c : component_id)
    (val : list byte) s s1 ops0 sa (b : bool) sb ops sc :
  set_entity ty en c val s = Ok s1 ->
  run ops0 storage_init = Ok sa ->
  check_dirty_flag_and_clear (find sa en) c sa = Ok (b, sb) ->
  forallb (fun o => negb (writes_to en c o)) ops = true ->
  run ops sb = Ok sc ->
  check_dirty_flag (find s1 en) c s1 = Ok true
  /\ check_dirty_flag (find sb en) c sb = Ok false
  /\ check_dirty_flag (find sc en) c sc <> Ok true
  /\ (exists_ sc en = true -> check_dirty_flag (find sc en) c sc = Ok false).
Proof.
  intros Hset Hrun Hclr Hquiet Hops.
  split.
  { unfold set_entity in Hset.
    apply set_Ok in Hset
      as (k & e & ? & ? & d & Hf & Hl & _ & Hw & _ & _ & _ & _ & ->).
    apply find_Some in Hf as ->.
    erewrite check_dirty_flag_present;
      [|eapply lookup_store_elem, Hl|exact Hw].
    simpl. rewrite N.setbit_eq. reflexivity. }
  unfold check_dirty_flag_and_clear in Hclr. inv_bind Hclr. destruct a as [k e].
  apply deref_Ok in Hstep as [Hf Hl]. apply find_Some in Hf as ->.
  inv_bind Hclr. apply bitset_test_Ok in Hstep as [Hw _].
  inv_bind Hclr. apply bitset_reset_Ok in Hstep as [_ ->].
  injection Hclr as _ <-.
  set (e' := {| components := components e;
                dirty := N.clearbit (dirty e) (N.of_nat c);
                data := data e |}).
  assert (Hl' : lookup_entity en (entities_ (store_elem en e' sa)) = Some e').
  { apply (lookup_store_elem en e' [] sa e Hl). }
  split.
  { rewrite (check_dirty_flag_present _ _ _ _ Hl' Hw). simpl.
    rewrite N.clearbit_eq. reflexivity. }
  destruct (run_init_inv _ _ Hrun) as [_ Ht].
  assert (Hclear : flag_clear en c (store_elem en e' sa)).
  { split; [apply (table_inv_store _ _ []), Ht|]. split.
    - rewrite (dirty_bit_lookup _ _ _ _ Hl'). simpl. apply N.clearbit_eq.
    - destruct Ht as [_ Hlt]. rewrite Forall_forall in Hlt. simpl.
      apply Hlt. eapply lookup_entity_Some_key, Hl. }
  destruct (run_flag_clear en c ops _ sc Hquiet Hops Hclear) as (_ & Hd & _).
  destruct (lookup_entity en (entities_ sc)) as [ec|] eqn:Hlc.
  - rewrite (check_dirty_flag_present _ _ _ _ Hlc Hw).
    rewrite (dirty_bit_lookup _ _ _ _ Hlc) in Hd. rewrite Hd.
    split; [discriminate | reflexivity].
  - rewrite (check_dirty_flag_absent _ _ _ Hlc).
    split; [discriminate|]. intros Hex. apply exists_true in Hex as [? Hex].
    congruence.
Qed.

Lemma dirty_flag_semantics_witness :
  check_dirty_flag (find sample_state 1) 0 sample_state = Ok true
  /\ check_dirty_flag (find cleared_state 1) 0 cleared_state = Ok false
  /\ check_dirty_flag (find quiet_state 1) 0 quiet_state <> Ok true
  /\ (exists_ quiet_state 1 = true ->
      check_dirty_flag (find quiet_state 1) 0 quiet_state = Ok false).
Proof.
  apply (dirty_flag_semantics t_pos 1 0 [b1; b2] before_last_set sample_state
           sample_program sample_state true cleared_state quiet_program
           quiet_state);
    vm_compute; reflexivity.
Defined.

(** ** Scans under a callback that deletes *)

Lemma lookup_entity_middle (k : entity) (e : elem) (pre post : stor_impl) :
  k ∉ keys pre -> lookup_entity k (pre ++ (k, e) :: post) = Some e.
Proof.
  intros Hk. rewrite lookup_entity_app.
  apply lookup_entity_None in Hk. rewrite Hk. simpl.
  rewrite Nat.eqb_refl. reflexivity.
Qed.

Lemma keys_app (l1 l2 : stor_impl) : keys (l1 ++ l2) = keys l1 ++ keys l2.
Proof. unfold keys. apply fmap_app. Qed.

Lemma qualifying_cons mask k e l :
  qualifying mask ((k, e) :: l)
  = if includes (components e) mask then k :: qualifying mask l
    else qualifying mask l.
Proof.
  unfold qualifying. rewrite filter_cons. simpl.
  destruct (includes (components e) mask) eqn:Hq.
  - destruct (decide (true = true)); [reflexivity | congruence].
  - destruct (decide (false = true)); [congruence | reflexivity].
Qed.

Lemma qualifying_sublist mask l : qualifying mask l `sublist_of` keys l.
Proof.
  unfold qualifying, keys. apply fmap_sublist, sublist_filter.
Qed.

Lemma elem_of_qualifying mask k l :
  k ∈ qualifying mask l
  <-> exists e, (k, e) ∈ l /\ includes (components e) mask = true.
Proof.
  unfold qualifying, keys. rewrite list_elem_of_fmap. split.
  - intros ([k' e] & -> & Hin). apply list_elem_of_filter in Hin as [Hq Hin].
    exists e. auto.
  - intros (e & Hin & Hq). exists (k, e). split; [reflexivity|].
    apply list_elem_of_filter. auto.
Qed.

Section ScanVisits.
Variable R : storage -> Prop.
Variable mask : bitset.
Variable visit : entity -> elem -> storage -> result storage.

(** The call on a qualifying record returns, keeps [R], and changes the
    table at that record alone, which it may have deleted. *)
Hypothesis visit_local :
  forall k e s pre post,
    R s ->
    entities_ s = pre ++ (k, e) :: post ->
    k ∉ keys pre ->
    includes (components e) mask = true ->
    exists s',
      visit k e s = Ok s'
      /\ R s'
      /\ (entities_ s' = pre ++ post
          \/ exists e', entities_ s' = pre ++ (k, e') :: post).

(** From any point of the table on, the scan calls the callback on the
    qualifying entities that are left, each once, in table order. *)
Lemma scan_entities_visits post :
  forall fuel pre s visited,
    R s ->
    entities_ s = pre ++ post ->
    NoDup (keys (pre ++ post)) ->
    length post <= fuel ->
    exists s',
      scan_entities fuel mask visit (begin_entities post) s visited
      = Ok (s', visited ++ qualifying mask post).
Proof.
  induction post as [|[k e] post IH]; intros fuel pre s visited HR Hs Hnd Hfuel.
  - exists s. rewrite app_nil_r. destruct fuel; reflexivity.
  - destruct fuel as [|fuel]; [simpl in Hfuel; lia|].
    simpl in Hfuel.
    assert (Hk : k ∉ keys pre).
    { rewrite keys_app in Hnd. apply NoDup_app in Hnd as (_ & Hdisj & _).
      intros Hin. apply (Hdisj k Hin). unfold keys. simpl.
      apply list_elem_of_here. }
    assert (Hnd' : NoDup (keys ((pre ++ [(k, e)]) ++ post))).
    { rewrite <- app_assoc. exact Hnd. }
    simpl. rewrite Hs, (next_entity_app k e pre post Hk),
      (lookup_entity_middle k e pre post Hk).
    rewrite qualifying_cons.
    destruct (includes (components e) mask) eqn:Hq.
    + destruct (visit_local k e s pre post HR Hs Hk Hq)
        as (s1 & Hv & HR1 & [Hdel|[e' Hupd]]).
      * rewrite Hv. cbn [bind].
        destruct (IH fuel pre s1 (visited ++ [k]) HR1 Hdel) as [s' Hs'];
          [|lia|].
        { rewrite !keys_app in *. simpl in Hnd.
          apply NoDup_app in Hnd as (Hn1 & Hdisj & Hn2).
          apply NoDup_cons in Hn2 as [_ Hn2].
          apply NoDup_app. repeat split; [exact Hn1| |exact Hn2].
          intros x Hx Hx'. apply (Hdisj x Hx).
          apply list_elem_of_further, Hx'. }
        exists s'. rewrite Hs', <- app_assoc. reflexivity.
      * rewrite Hv. cbn [bind].
        destruct (IH fuel (pre ++ [(k, e')]) s1 (visited ++ [k]) HR1)
          as [s' Hs']; [| |lia|].
        { rewrite Hupd, <- app_assoc. reflexivity. }
        { rewrite !keys_app in *. exact Hnd'. }
        exists s'. rewrite Hs', <- app_assoc. reflexivity.
    + destruct (IH fuel (pre ++ [(k, e)]) s visited HR) as [s' Hs'];
        [|exact Hnd'|lia|].
      { rewrite Hs, <- app_assoc. reflexivity. }
      exists s'. exact Hs'.
Qed.
End ScanVisits.

Section ScanInTurn.
Variable mask : bitset.
Variable visit : entity -> elem -> storage -> result storage.

(** The call on a qualifying record, when it returns, has changed or
    deleted that record and no other. *)
Hypothesis visit_changes :
  forall k e s s',
    lookup_entity k (entities_ s) = Some e ->
    includes (components e) mask = true ->
    visit k e s = Ok s' -> changed_at k s s'.

(** From any point of the table on, the scan does what calling [visit] in
    turn on the qualifying entities that are left does, and faults where
    that faults. *)
Lemma scan_entities_in_turn post :
  forall fuel pre s visited,
    entities_ s = pre ++ post ->
    NoDup (keys (pre ++ post)) ->
    length post <= fuel ->
    scan_entities fuel mask visit (begin_entities post) s visited
    = (let* s' := visit_in_turn visit (qualifying mask post) s in
       Ok (s', visited ++ qualifying mask post)).
Proof.
  induction post as [|[k e] post IH]; intros fuel pre s visited Hs Hnd Hfuel.
  - rewrite app_nil_r. destruct fuel; reflexivity.
  - destruct fuel as [|fuel]; [simpl in Hfuel; lia|].
    simpl in Hfuel.
    assert (Hk : k ∉ keys pre).
    { rewrite keys_app in Hnd. apply NoDup_app in Hnd as (_ & Hdisj & _).
      intros Hin. apply (Hdisj k Hin). unfold keys. simpl.
      apply list_elem_of_here. }
    assert (Hnd' : NoDup (keys ((pre ++ [(k, e)]) ++ post))).
    { rewrite <- app_assoc. exact Hnd. }
    assert (Hl : lookup_entity k (entities_ s) = Some e).
    { rewrite Hs. apply lookup_entity_middle, Hk. }
    simpl scan_entities. rewrite Hl.
    rewrite Hs, (next_entity_app k e pre post Hk), qualifying_cons.
    destruct (includes (components e) mask) eqn:Hq.
    + cbn [visit_in_turn]. rewrite (deref_Some _ _ _ Hl). cbn [bind].
      destruct (visit k e s) as [s1|f] eqn:Hv; cbn [bind]; [|reflexivity].
      destruct (visit_changes k e s s1 Hl Hq Hv pre e post Hs Hk)
        as [Hdel|[e' Hupd]].
      * rewrite (IH fuel pre s1 (visited ++ [k]) Hdel); [| |lia].
        { rewrite <- app_assoc. reflexivity. }
        rewrite !keys_app in *. simpl in Hnd.
        apply NoDup_app in Hnd as (Hn1 & Hdisj & Hn2).
        apply NoDup_cons in Hn2 as [_ Hn2].
        apply NoDup_app. repeat split; [exact Hn1| |exact Hn2].
        intros x Hx Hx'. apply (Hdisj x Hx).
        apply list_elem_of_further, Hx'.
      * rewrite (IH fuel (pre ++ [(k, e')]) s1 (visited ++ [k])); [| | |lia].
        { rewrite <- app_assoc. reflexivity. }
        { rewrite Hupd, <- app_assoc. reflexivity. }
        { rewrite !keys_app in *. exact Hnd'. }
    + apply (IH fuel (pre ++ [(k, e)]) s visited); [|exact Hnd'|lia].
      rewrite Hs, <- app_assoc. reflexivity.
Qed.
End ScanInTurn.

(** The scan of the whole table. *)
Lemma scan_table_in_turn (mask : bitset)
    (visit : entity -> elem -> storage -> result storage) s :
  NoDup (keys (entities_ s)) ->
  (forall k e s1 s2, visit k e s1 = Ok s2 -> changed_at k s1 s2) ->
  scan_entities (length (entities_ s)) mask visit
    (begin_entities (entities_ s)) s []
  = (let* s' := visit_in_turn visit (qualifying mask (entities_ s)) s in
     Ok (s', qualifying mask (entities_ s))).
Proof.
  intros Hnd Hvisit.
  apply (scan_entities_in_turn mask visit) with (pre := []);
    [|reflexivity|exact Hnd|lia].
  intros k e s1 s2 _ _. apply Hvisit.
Qed.

Lemma changed_at_refl k s : changed_at k s s.
Proof. intros pre e post Hs _. right. exists e. exact Hs. Qed.

Lemma changed_at_store k e' evs s :
  changed_at k s (log_events evs (store_elem k e' s)).
Proof.
  intros pre e post Hs Hk. right. exists e'. simpl. rewrite Hs.
  apply update_entity_app, Hk.
Qed.

Lemma changed_at_erase k evs s :
  changed_at k s
    (log_events evs (with_entities (erase_entity k (entities_ s)) s)).
Proof.
  intros pre e post Hs Hk. left. simpl. rewrite Hs.
  apply erase_entity_app, Hk.
Qed.

(** Deleting the entity it is called on, for all or for some entities, is
    acting on the current entity, and returns. *)
Lemma delete_some_acts doomed : acts_on_current (delete_some doomed).
Proof.
  intros k r s s' _ H. unfold delete_some in H. destruct (doomed (e_ r)).
  - apply delete_entity_at_Ok in H as (k0 & e & [= <-] & _ & ->).
    split; [repeat split | apply changed_at_erase].
  - injection H as <-. split; [apply same_registry_refl | apply changed_at_refl].
Qed.

Lemma delete_some_returns doomed : returns_on_current (delete_some doomed).
Proof.
  intros k r s Hk. unfold delete_some, delete_entity_at.
  destruct (doomed (e_ r)); [|eauto].
  destruct (lookup_entity k (entities_ s)) as [e|] eqn:Hl.
  - rewrite (deref_Some _ _ _ Hl). cbn [bind]. eauto.
  - apply lookup_entity_None in Hl. contradiction.
Qed.

Lemma delete_current_acts : acts_on_current delete_current.
Proof. apply (delete_some_acts (fun _ => true)). Qed.

Lemma delete_current_returns : returns_on_current delete_current.
Proof. apply (delete_some_returns (fun _ => true)). Qed.

(** So is every callback that writes through its accessor. *)
Lemma run_callback_acts cb : acts_on_current (run_callback cb).
Proof.
  intros k r s s' Hr H. unfold run_callback in H. destruct (cb (e_ r)).
  - injection H as <-. split; [apply same_registry_refl | apply changed_at_refl].
  - apply var_ref_assign_Ok in H as (? & ? & _ & _ & _ & ->). rewrite Hr.
    split; [repeat split | apply changed_at_store].
  - apply var_ref_update_Ok in H as (? & ? & _ & _ & _ & ->). rewrite Hr.
    split; [repeat split | apply (changed_at_store _ _ [])].
  - apply delete_entity_at_Ok in H as (k0 & e & [= <-] & _ & ->).
    split; [repeat split | apply changed_at_erase].
Qed.

Lemma mask_selection (c : component_id) (e : elem) :
  includes (components e) (N.setbit 0 (N.of_nat c)) = true
  <-> N.testbit (components e) (N.of_nat c) = true.
Proof.
  split; [apply mask_of_component|]. intros Hp.
  apply includes_spec. intros i. rewrite N.setbit_eqb.
  destruct (N.eqb_spec (N.of_nat c) i) as [<-|]; [intros _; exact Hp|].
  simpl. discriminate.
Qed.

(** C7 — deletion-safe scan.  In every state the public interface can
    reach, when the callback of [for_each] changes or deletes no record
    but the one of the entity it is called on, [for_each] does exactly what
    calling the callback in turn on the entities whose presence mask
    includes the selection does: it ends in the state those calls lead to,
    having called the callback on those entities in the order of the table,
    on each of them, on no other and on none twice, and it faults only
    where one of those calls faults.  For a registered component and a
    callback that returns on every entity of the table, as the one that
    deletes the entity does, [for_each] returns. *)
Theorem for_each_deletion_safe ops s t (c : component_id)
    (func : iterator -> var_ref -> storage -> result storage) :
  run ops storage_init = Ok s ->
  c < bitset_width ->
  acts_on_current func ->
  for_each t c func s
  = (let* s' := call_in_turn t c func
                  (qualifying (N.setbit 0 (N.of_nat c)) (entities_ s)) s in
     Ok (s', qualifying (N.setbit 0 (N.of_nat c)) (entities_ s)))
  /\ NoDup (qualifying (N.setbit 0 (N.of_nat c)) (entities_ s))
  /\ (forall k,
        k ∈ qualifying (N.setbit 0 (N.of_nat c)) (entities_ s)
        <-> exists e, (k, e) ∈ entities_ s
                      /\ N.testbit (components e) (N.of_nat c) = true)
  /\ (c < length (components_ s) -> returns_on_current func ->
      exists s',
        for_each t c func s
        = Ok (s', qualifying (N.setbit 0 (N.of_nat c)) (entities_ s))).
Proof.
  intros Hrun Hw Hacts.
  destruct (run_init_inv _ _ Hrun) as [Hoff [Hnd _]].
  set (mask := N.setbit 0 (N.of_nat c)).
  assert (Hfor : for_each t c func s
                 = scan_entities (length (entities_ s)) mask
                     (accessor_call t c func) (begin_entities (entities_ s))
                     s []).
  { unfold for_each. rewrite (bitset_set_lt _ _ Hw). reflexivity. }
  split; [|split; [|split]].
  - rewrite Hfor. apply scan_table_in_turn; [exact Hnd|].
    intros k e s1 s2 Hv. unfold accessor_call in Hv. inv_bind Hv.
    exact (proj2 (Hacts k (make_var_ref a k c t) s1 s2 eq_refl Hv)).
  - eapply sublist_NoDup; [exact Hnd | apply qualifying_sublist].
  - intros k. rewrite elem_of_qualifying.
    split; intros (e & Hin & H); exists e;
      (split; [exact Hin | apply mask_selection, H]).
  - intros Hc Hret. rewrite Hfor.
    destruct (scan_entities_visits (same_registry s) mask
                (accessor_call t c func))
      with (post := entities_ s) (fuel := length (entities_ s))
           (pre := @nil (entity * elem)) (s := s) (visited := @nil entity)
      as [s' Hs']; [|apply same_registry_refl|reflexivity|exact Hnd|lia|].
    + intros k e s1 pre post HR Hs1 Hk Hq. unfold accessor_call.
      rewrite (offset_same s s1 e c HR), (offset_scan s e c Hoff Hc).
      cbn [bind].
      set (r := make_var_ref (scan_offset (components_ s) (components e) c)
                  k c t).
      destruct (Hret k r s1) as [s2 Hf].
      { rewrite Hs1, keys_app. apply elem_of_app. right. unfold keys. simpl.
        apply list_elem_of_here. }
      destruct (Hacts k r s1 s2 eq_refl Hf) as [Hreg Hch].
      exists s2. split; [exact Hf|]. split.
      * eapply same_registry_trans; eassumption.
      * exact (Hch pre e post Hs1 Hk).
    + exists s'. exact Hs'.
Qed.

Lemma for_each_deletion_safe_witness :
  run sample_program storage_init = Ok sample_state
  /\ for_each t_pos 0 delete_current sample_state
     = (let* s' := call_in_turn t_pos 0 delete_current
                     (qualifying (N.setbit 0 (N.of_nat 0))
                        (entities_ sample_state)) sample_state in
        Ok (s', qualifying (N.setbit 0 (N.of_nat 0)) (entities_ sample_state))).
Proof.
  split; [reflexivity|].
  apply (for_each_deletion_safe sample_program sample_state t_pos 0
           delete_current);
    [reflexivity | unfold bitset_width; lia | apply delete_current_acts].
Defined.

(** The scan of the sample table with the callback that deletes every
    entity it is handed: both entities are visited, and the table ends
    empty. *)
Example for_each_delete_all :
  exists s',
    for_each t_pos 0 delete_current sample_state = Ok (s', [0; 1])
    /\ entities_ s' = [].
Proof. eexists. split; reflexivity. Qed.

(** ** Assignment over a held value *)

(** An assignment through an accessor constructs and destroys nothing
    else: the log grows by the construction of the new holder alone. *)
Lemma var_ref_assign_lifecycle r val s s' :
  var_ref_assign r val s = Ok s' ->
  lifecycle_ s' = lifecycle_ s ++ construct (type_ r) (e_ r) (component_ r).
Proof.
  intros H. apply var_ref_assign_Ok in H as (? & ? & _ & _ & _ & ->).
  reflexivity.
Qed.

(** So does [set], whether or not the component was present. *)
Lemma set_lifecycle ty k c val s s' :
  set ty (Some k) c val s = Ok s' ->
  lifecycle_ s' = lifecycle_ s ++ construct ty k c.
Proof.
  intros H.
  apply set_Ok in H as (? & ? & ? & ? & ? & [= <-] & _ & _ & _ & _ & _ & _ & _ & ->).
  reflexivity.
Qed.

(** C5 — re-assignment of a non-flat slot.  Entity 0 holds a value in its
    non-flat component 1, whose holder is the one constructed so far.  An
    assignment through the accessor of [for_each] constructs a second
    holder in the slot and destroys none: the slot is left with two live
    holders, the first of which nothing refers to any more. *)
Theorem assign_over_held_value_destroys_nothing :
  run held_program storage_init = Ok held_state
  /\ lifecycle_ held_state = [Constructed 0 1]
  /\ exists s',
       for_each t_name 1 (run_callback assign_again) held_state = Ok (s', [0])
       /\ lifecycle_ s' = [Constructed 0 1; Constructed 0 1]
       /\ live_holders 0 1 (lifecycle_ s') = 2.
Proof.
  split; [reflexivity|]. split; [reflexivity|].
  eexists. split; [reflexivity|]. split; reflexivity.
Qed.

(** ** The scenario of the specification *)

(** A flat "position" with id 0 and a non-flat "name" with id 1; an entity
    with both set reads both back; once it is deleted the table is empty. *)
Example scenario_position_name :
  exists s1 s2 s3 r0 r1 s4,
    run two_components storage_init = Ok s1
    /\ new_entity s1 = (0, s2)
    /\ run [op_set t_pos 0 0 [b1; b2]; op_set t_name 0 1 [b2; b2; b1]] s2 = Ok s3
    /\ get_entity t_pos 0 0 s3 = Ok r0 /\ read r0 s3 = Ok [b1; b2]
    /\ get_entity t_name 0 1 s3 = Ok r1 /\ read r1 s3 = Ok [b2; b2; b1]
    /\ delete_entity 0 s3 = Ok (true, s4)
    /\ size_ s4 = 0.
Proof. do 6 eexists. repeat split. Qed.

(** * Further properties of the code *)

(** ** The registry *)

(** X1 — a registration made while fewer than eleven components exist
    doubles the offset cache: the old entries stay where they are, and
    the entry [i + j] of the new half is the old entry [j] raised by the
    size of the new component, [i] being the old length. *)
Theorem register_component_doubles_cache ty nm s (id : component_id) s' :
  register_component ty nm s = Ok (id, s') ->
  S (length (components_ s)) < cache_size ->
  length (component_offsets_ s') = 2 * length (component_offsets_ s)
  /\ forall j o,
       component_offsets_ s !! j = Some o ->
       component_offsets_ s' !! j = Some o
       /\ component_offsets_ s' !! (length (component_offsets_ s) + j)
          = Some (o + storage_size ty).
Proof.
  intros H Hn. apply register_component_Ok in H as (_ & _ & Ho & _).
  destruct (Nat.ltb_spec (S (length (components_ s))) cache_size); [|lia].
  rewrite Ho. split.
  - rewrite length_app, length_map. lia.
  - intros j o Hj. split.
    + apply lookup_app_l_Some, Hj.
    + rewrite lookup_app_r by lia.
      replace (length (component_offsets_ s) + j - length (component_offsets_ s))
        with j by lia.
      rewrite list_lookup_fmap, Hj. reflexivity.
Qed.

Lemma register_component_doubles_cache_witness :
  length (component_offsets_ two_components_state) = 2 * 2
  /\ forall j o,
       [0; 2] !! j = Some o ->
       component_offsets_ two_components_state !! j = Some o
       /\ component_offsets_ two_components_state !! (2 + j) = Some (o + 3).
Proof.
  apply (register_component_doubles_cache t_name "name"
           (state_after [op_register t_pos "position"]) 1 two_components_state);
    [reflexivity | unfold cache_size; simpl; lia].
Defined.

(** X2 — a registration keeps the offset cache what it is meant to be: a
    table of [2 ^ k] entries, [k] the number of components up to eleven,
    whose entry at a mask is the sum of the sizes of the components of the
    mask. *)
Theorem register_component_keeps_cache_sums ty nm s (id : component_id) s' :
  offsets_inv s ->
  register_component ty nm s = Ok (id, s') ->
  length (component_offsets_ s') = 2 ^ Nat.min (length (components_ s')) 11
  /\ forall m, m < length (component_offsets_ s') ->
       component_offsets_ s' !! m
       = Some (scan_offset (components_ s') (N.of_nat m)
                 (Nat.min (length (components_ s')) 11)).
Proof.
  intros Hinv H. exact (offsets_inv_register ty nm s id s' H Hinv).
Qed.

Lemma register_component_keeps_cache_sums_witness :
  exists s',
    register_component t_pos "position" storage_init = Ok (0, s')
    /\ length (component_offsets_ s') = 2 ^ Nat.min (length (components_ s')) 11.
Proof.
  eexists. split; [reflexivity|].
  apply (register_component_keeps_cache_sums t_pos "position" storage_init 0);
    [apply offsets_inv_init | reflexivity].
Defined.

(** X3 — the only registration that fails is that of a non-flat type when
    64 or more components exist, with the [std::out_of_range] of
    [flat_mask_.set]; a flat type is registered whatever the number of
    components. *)
Theorem register_component_fault ty nm s (f : fault) :
  register_component ty nm s = Fault f
  <-> is_flat ty = false
      /\ bitset_width <= length (components_ s)
      /\ f = Out_of_range.
Proof.
  unfold register_component, bitset_set.
  destruct (is_flat ty); cbn [bind].
  - split; [discriminate | intros (? & _); discriminate].
  - destruct (Nat.ltb_spec (length (components_ s)) bitset_width); cbn [bind].
    + split; [discriminate | intros (_ & ? & _); lia].
    + split; [intros [= <-]; auto | intros (_ & _ & ->); reflexivity].
Qed.

Lemma get_Ok ty en c s r :
  get ty en c s = Ok r ->
  exists k e,
    en = Some k
    /\ lookup_entity k (entities_ s) = Some e
    /\ c < bitset_width
    /\ N.testbit (components e) (N.of_nat c) = true
    /\ offset s e c = Ok (ref_offset r)
    /\ r = {| ref_entity := k; ref_offset := ref_offset r; ref_type := ty |}.
Proof.
  unfold get. intros H. inv_bind H. destruct a as [k e].
  apply deref_Ok in Hstep as [-> Hl].
  inv_bind H. apply bitset_test_Ok in Hstep as [Hw ->].
  destruct (N.testbit (components e) (N.of_nat c)) eqn:Hp; [|discriminate].
  cbn [negb] in H. unfold get_elem in H. inv_bind H. injection H as <-.
  exists k, e. simpl. auto 10.
Qed.

(** X4 — a selection past the presence mask.  A component id is a
    [uint8_t]; when one of the ids handed to [for_each] is 64 or more, the
    [mask.set] of that id throws [std::out_of_range], whatever the callback
    and the state of the store: no callback is called and nothing is
    written. *)
Theorem for_each_wide_id_throws t1 t2 t3 (c c1 c2 c3 : component_id)
    func func2 func3 s :
  bitset_width <= c -> c < 256 ->
  c1 < 256 -> c2 < 256 -> c3 < 256 ->
  for_each t1 c func s = Fault Out_of_range
  /\ (bitset_width <= c1 \/ bitset_width <= c2 ->
      for_each2 t1 t2 c1 c2 func2 s = Fault Out_of_range)
  /\ (bitset_width <= c1 \/ bitset_width <= c2 \/ bitset_width <= c3 ->
      for_each3 t1 t2 t3 c1 c2 c3 func3 s = Fault Out_of_range).
Proof.
  intros Hc _ _ _ _. unfold for_each, for_each2, for_each3, bitset_set.
  split; [|split].
  - destruct (Nat.ltb_spec c bitset_width); [lia | reflexivity].
  - intros H.
    destruct (Nat.ltb_spec c1 bitset_width); [|reflexivity]. cbn [bind].
    destruct (Nat.ltb_spec c2 bitset_width); [lia | reflexivity].
  - intros H.
    destruct (Nat.ltb_spec c1 bitset_width); [|reflexivity]. cbn [bind].
    destruct (Nat.ltb_spec c2 bitset_width); [|reflexivity]. cbn [bind].
    destruct (Nat.ltb_spec c3 bitset_width); [lia | reflexivity].
Qed.

Lemma for_each_wide_id_throws_witness :
  for_each t_pos 64 inert sample_state = Fault Out_of_range.
Proof.
  apply (for_each_wide_id_throws t_pos t_pos t_pos 64 0 0 0 inert
           delete_current2 delete_current3 sample_state);
    unfold bitset_width; lia.
Defined.

(** X5 — registration and lookup.  While fewer than 256 components exist a
    registration returns the number of components there were; under the id
    it returns, [operator[]] finds the descriptor with the given name, the
    size of the type and a prototype exactly for a non-flat type; and every
    descriptor that could be looked up before is found unchanged. *)
Theorem register_then_lookup ty nm s (id : component_id) s' :
  register_component ty nm s = Ok (id, s') ->
  length (components_ s) < 256 ->
  id = length (components_ s)
  /\ component_at s' id = Ok (descriptor ty nm)
  /\ forall i d, component_at s i = Ok d -> component_at s' i = Ok d.
Proof.
  intros H Hn. apply register_component_Ok in H as (-> & Hc & _).
  rewrite Nat.mod_small by exact Hn.
  unfold component_at. rewrite Hc. repeat split.
  - rewrite lookup_app_r by lia. rewrite Nat.sub_diag. reflexivity.
  - intros i d Hi.
    destruct (components_ s !! i) as [d'|] eqn:Hl; [|discriminate].
    rewrite (lookup_app_l_Some _ _ _ _ Hl). exact Hi.
Qed.

Lemma register_then_lookup_witness :
  exists s',
    register_component t_unit "third" two_components_state = Ok (2, s')
    /\ component_at s' 2 = Ok (descriptor t_unit "third").
Proof.
  eexists. split; [reflexivity|].
  refine (proj1 (proj2 (register_then_lookup t_unit "third"
                          two_components_state 2 _ eq_refl _))).
  simpl. lia.
Defined.

(** What it takes for [get] to give a value. *)
Lemma get_value_Ok ty en c s v :
  get_value ty en c s = Ok v
  <-> exists e off,
        lookup_entity en (entities_ s) = Some e
        /\ c < bitset_width
        /\ N.testbit (components e) (N.of_nat c) = true
        /\ offset s e c = Ok off
        /\ read_at off (storage_size ty) (data e) = Ok v.
Proof.
  unfold get_value, get_entity. split.
  - intros H. inv_bind H. rename a into r.
    apply get_Ok in Hstep as (k & e & Hf & Hl & Hw & Hp & Ho & Hr).
    apply find_Some in Hf as ->. rewrite Hr in H. unfold read in H.
    cbn [ref_entity ref_offset ref_type] in H.
    rewrite (deref_Some _ _ _ Hl) in H. cbn [bind] in H. eauto 10.
  - intros (e & off & Hl & Hw & Hp & Ho & Hr).
    rewrite (find_present _ _ _ Hl). unfold get.
    rewrite (deref_Some _ _ _ Hl). cbn [bind].
    rewrite (bitset_test_lt _ _ Hw). cbn [bind]. rewrite Hp. cbn [negb].
    unfold get_elem. rewrite Ho. cbn [bind]. unfold read.
    cbn [ref_entity ref_offset ref_type].
    rewrite (deref_Some _ _ _ Hl). cbn [bind]. exact Hr.
Qed.

Lemma offset_after_register ty nm s id s' e c off :
  register_component ty nm s = Ok (id, s') ->
  c < length (components_ s) ->
  offset s e c = Ok off -> offset s' e c = Ok off.
Proof.
  intros H Hc Ho. apply register_component_Ok in H as (_ & Hcs & Hos & _).
  unfold offset, cached_offset in *. rewrite Hcs, Hos.
  destruct (Nat.ltb_spec c cache_size).
  - destruct (component_offsets_ s !! cache_index (components e) c) as [o|] eqn:Hl;
      [|discriminate].
    destruct (S (length (components_ s)) <? cache_size);
      [rewrite (lookup_app_l_Some _ _ _ _ Hl) | rewrite Hl]; exact Ho.
  - rewrite <- Ho. f_equal. apply scan_offset_ext; [reflexivity|].
    intros i Hi _. apply component_size_app_l. lia.
Qed.

(** X6 — a registration disturbs no value: what [get] gave for a
    registered component of an entity before a further component was
    registered, it gives afterwards. *)
Theorem register_keeps_values ty nm s (id : component_id) s' ty'
    (en : entity) (c : component_id) (v : list byte) :
  register_component ty nm s = Ok (id, s') ->
  c < length (components_ s) ->
  get_value ty' en c s = Ok v ->
  get_value ty' en c s' = Ok v.
Proof.
  intros H Hc Hv. apply get_value_Ok in Hv as (e & off & Hl & Hw & Hp & Ho & Hr).
  apply get_value_Ok. exists e, off.
  pose proof (offset_after_register _ _ _ _ _ e c off H Hc Ho) as Ho'.
  apply register_component_Ok in H as (_ & _ & _ & He & _).
  rewrite He. auto.
Qed.

Lemma register_keeps_values_witness :
  exists s',
    register_component t_unit "third" sample_state = Ok (2, s')
    /\ get_value t_name 0 1 s' = Ok [b1; b1; b1].
Proof.
  eexists. split; [reflexivity|].
  apply (register_keeps_values t_unit "third" sample_state 2 _ t_name 0 1);
    [reflexivity | simpl; lia | reflexivity].
Defined.

(** ** What [set] leaves alone *)

(** [get] and the read through its reference, in one. *)
Lemma get_value_unfold ty en c s :
  get_value ty en c s
  = match lookup_entity en (entities_ s) with
    | None => Fault Undefined_behaviour
    | Some e =>
        let* present := bitset_test (components e) c in
        if negb present then Fault Missing_component
        else let* off := offset s e c in
             read_at off (storage_size ty) (data e)
    end.
Proof.
  unfold get_value, get_entity.
  destruct (lookup_entity en (entities_ s)) as [e|] eqn:Hle.
  - rewrite (find_present _ _ _ Hle). unfold get.
    rewrite (deref_Some _ _ _ Hle). cbn [bind].
    destruct (bitset_test (components e) c) as [[|]|]; cbn [bind negb];
      try reflexivity.
    unfold get_elem. destruct (offset s e c); cbn [bind]; [|reflexivity].
    unfold read. cbn [ref_entity ref_offset ref_type].
    rewrite (deref_Some _ _ _ Hle). reflexivity.
  - rewrite (find_absent _ _ Hle). reflexivity.
Qed.

Lemma get_value_same s s' ty en c :
  same_registry s s' ->
  lookup_entity en (entities_ s') = lookup_entity en (entities_ s) ->
  get_value ty en c s' = get_value ty en c s.
Proof.
  intros Hreg Hl. rewrite !get_value_unfold, Hl.
  destruct (lookup_entity en (entities_ s)) as [e|]; [|reflexivity].
  rewrite (offset_same s s' e c Hreg). reflexivity.
Qed.

(** X7 — [set] touches one record.  It adds and removes no entity, leaves
    the registry and the id counter as they are, leaves the record and the
    values of every other entity as they are, and in the record of its
    entity sets the presence bit and the dirty bit of its component and
    changes no other bit of either mask. *)
Theorem set_touches_one_record ty (k : entity) (c : component_id)
    (val : list byte) s s' :
  set ty (Some k) c val s = Ok s' ->
  keys (entities_ s') = keys (entities_ s)
  /\ same_registry s s'
  /\ next_id_ s' = next_id_ s
  /\ (forall k', k' <> k ->
        lookup_entity k' (entities_ s') = lookup_entity k' (entities_ s)
        /\ forall ty' c', get_value ty' k' c' s' = get_value ty' k' c' s)
  /\ exists e e',
       lookup_entity k (entities_ s) = Some e
       /\ lookup_entity k (entities_ s') = Some e'
       /\ components e' = N.setbit (components e) (N.of_nat c)
       /\ dirty e' = N.setbit (dirty e) (N.of_nat c).
Proof.
  intros H.
  apply set_Ok in H
    as (k0 & e & off & d1 & d2 & [= <-] & Hl & _ & _ & _ & _ & _ & _ & ->).
  split; [apply keys_update_entity|].
  split; [repeat split|]. split; [reflexivity|]. split.
  - intros k' Hne.
    assert (Hl' : lookup_entity k' (entities_
                    (log_events (construct ty k c)
                       (store_elem k
                          {| components := N.setbit (components e) (N.of_nat c);
                             dirty := N.setbit (dirty e) (N.of_nat c);
                             data := d2 |} s)))
                  = lookup_entity k' (entities_ s)).
    { simpl. apply lookup_update_entity_ne. congruence. }
    split; [exact Hl'|]. intros ty' c'.
    apply get_value_same; [repeat split | exact Hl'].
  - eexists e, _. split; [exact Hl|]. split; [eapply lookup_store_elem, Hl|].
    split; reflexivity.
Qed.

Lemma set_touches_one_record_witness :
  exists s',
    set t_name (Some 1) 1 [b2; b1; b2] sample_state = Ok s'
    /\ keys (entities_ s') = keys (entities_ sample_state).
Proof.
  eexists. split; [reflexivity|].
  apply (set_touches_one_record t_name 1 1 [b2; b1; b2] sample_state).
  reflexivity.
Defined.

Lemma read_at_Ok off n d r :
  read_at off n d = Ok r <-> off + n <= length d /\ r = take n (drop off d).
Proof.
  unfold read_at. destruct (Nat.leb_spec (off + n) (length d)).
  - split; [intros [= <-]; auto | intros [_ ->]; reflexivity].
  - split; [discriminate | intros [? _]; lia].
Qed.

(** Reading below a part of the buffer that was replaced. *)
Lemma read_at_splice_low (d v : list byte) off off2 o n r :
  read_at o n d = Ok r ->
  o + n <= off -> off <= off2 -> off2 <= length d ->
  read_at o n (take off d ++ v ++ drop off2 d) = Ok r.
Proof.
  intros Hr Hlow H12 Hlen. apply read_at_Ok in Hr as [Hfit ->].
  apply read_at_Ok. split.
  - rewrite !length_app, length_take, length_drop. lia.
  - rewrite drop_app_le by (rewrite length_take; lia).
    rewrite take_app_le by (rewrite length_drop, length_take; lia).
    rewrite skipn_firstn_comm, take_take. f_equal. lia.
Qed.

(** Reading above it, where the bytes have moved with the change of its
    length. *)
Lemma read_at_splice_high (d v : list byte) off off2 o n r :
  read_at o n d = Ok r ->
  off <= off2 -> off2 <= o ->
  read_at (o - off2 + off + length v) n (take off d ++ v ++ drop off2 d) = Ok r.
Proof.
  intros Hr H12 Hhigh. apply read_at_Ok in Hr as [Hfit ->].
  apply read_at_Ok. split.
  - rewrite !length_app, length_take, length_drop. lia.
  - rewrite drop_app_ge by (rewrite length_take; lia).
    rewrite length_take.
    rewrite drop_app_ge by lia.
    rewrite drop_drop. do 2 f_equal. lia.
Qed.

(** The buffer after [set] of an absent component: the value between the
    bytes on both sides of its offset. *)
Lemma set_buffer (e : elem) (val : list byte) off csize d2 :
  off <= length (data e) ->
  length val = csize ->
  write_at off val (grown e off csize) = Ok d2 ->
  d2 = take off (data e) ++ val ++ drop off (data e).
Proof.
  intros Hoff Hval Hwr. apply write_at_Ok in Hwr as (_ & -> & _).
  unfold grown. destruct (Nat.ltb_spec (length (data e)) off); [lia|].
  rewrite take_app_le by (rewrite length_take; lia).
  rewrite take_take, Nat.min_id.
  rewrite drop_app_ge by (rewrite length_take; lia).
  rewrite length_take.
  rewrite drop_app_ge by (rewrite length_replicate; lia).
  rewrite length_replicate. do 2 f_equal.
  replace (off + length val - off `min` length (data e) - csize) with 0 by lia.
  reflexivity.
Qed.

(** X8 — [set] disturbs no other component.  In a state reached through
    the typed operations, writing a value of the registered size to a
    component of an entity, present or not, leaves the value of every
    other component of that entity as [get] gave it before: the slots below
    stay where they are, and the slots above move with the bytes that
    were inserted. *)
Theorem set_keeps_other_components ops s ty ty' (en : entity)
    (c c' : component_id) (val v : list byte) s' :
  forallb typed ops = true ->
  run ops storage_init = Ok s ->
  component_size (components_ s) c = storage_size ty ->
  length val = storage_size ty ->
  c' <> c ->
  storage_size ty' = component_size (components_ s) c' ->
  set_entity ty en c val s = Ok s' ->
  get_value ty' en c' s = Ok v ->
  get_value ty' en c' s' = Ok v.
Proof.
  intros Hty Hrun Hsz Hval Hne Hsz' Hset Hv.
  pose proof (run_init_elems_ok _ _ Hty Hrun) as Hs.
  destruct (run_init_inv _ _ Hrun) as [Hoff _].
  unfold set_entity in Hset.
  apply set_Ok in Hset
    as (k & e & off & d1 & d2 & Hf & Hl & Hc & Hw & Ho & -> & _ & Hwr & ->).
  apply find_Some in Hf as ->.
  destruct (elems_ok_lookup _ _ _ Hs Hl) as (Hreg & Hlen & _).
  rewrite (offset_scan s e c Hoff Hc) in Ho. injection Ho as <-.
  apply get_value_Ok in Hv as (e0 & off' & Hl0 & Hw' & Hp' & Ho' & Hr).
  rewrite Hl in Hl0. injection Hl0 as <-.
  pose proof (Hreg c' Hp') as Hc'.
  rewrite (offset_scan s e c' Hoff Hc') in Ho'. injection Ho' as <-.
  set (p := components e) in *. set (comps := components_ s) in *.
  set (e' := {| components := N.setbit p (N.of_nat c);
                dirty := N.setbit (dirty e) (N.of_nat c);
                data := d2 |}).
  pose proof (proj1 (read_at_Ok _ _ _ _) Hr) as [Hfit' _].
  assert (Hle : scan_offset comps p c <= length (data e)).
  { rewrite Hlen. apply scan_offset_mono. lia. }
  assert (Hmono : forall a b, a <= b ->
                    scan_offset comps p a <= scan_offset comps p b).
  { intros a b. apply scan_offset_mono. }
  apply get_value_Ok.
  exists e', (scan_offset comps (N.setbit p (N.of_nat c)) c').
  split; [apply (lookup_store_elem en e' _ s e Hl)|].
  split; [exact Hw'|].
  split; [simpl; rewrite N.setbit_neq by lia; exact Hp'|].
  split.
  { rewrite (offset_same s) by (repeat split).
    apply (offset_scan s e' c' Hoff Hc'). }
  simpl data.
  destruct (N.testbit p (N.of_nat c)) eqn:Hp.
  - (* the component was present: the value went over its slot *)
    rewrite (setbit_present _ _ Hp).
    apply write_at_Ok in Hwr as (Hfit & -> & _).
    pose proof (Hmono (S c) (length comps) Hc) as Hm. simpl in Hm.
    rewrite Hp in Hm.
    destruct (Nat.lt_ge_cases c' c) as [Hlt|Hge].
    + pose proof (Hmono (S c') c Hlt) as Hm'. simpl in Hm'.
      rewrite Hp' in Hm'.
      apply read_at_splice_low; [exact Hr | lia | lia | lia].
    + pose proof (Hmono (S c) c' ltac:(lia)) as Hm'. simpl in Hm'.
      rewrite Hp in Hm'.
      replace (scan_offset comps p c')
        with (scan_offset comps p c' - (scan_offset comps p c + length val)
              + scan_offset comps p c + length val) at 1 by lia.
      apply read_at_splice_high; [exact Hr | lia | lia].
  - (* the component was absent: a slot was inserted at its offset *)
    rewrite (set_buffer e val _ _ d2 Hle (eq_trans Hval (eq_sym Hsz)) Hwr).
    rewrite scan_offset_setbit by exact Hp.
    destruct (Nat.ltb_spec c c') as [Hlt|Hge].
    + pose proof (Hmono c c' ltac:(lia)) as Hm'.
      replace (scan_offset comps p c' + component_size comps c)
        with (scan_offset comps p c' - scan_offset comps p c
              + scan_offset comps p c + length val) by lia.
      apply read_at_splice_high; [exact Hr | lia | lia].
    + rewrite Nat.add_0_r.
      pose proof (Hmono (S c') c ltac:(lia)) as Hm'. simpl in Hm'.
      rewrite Hp' in Hm'.
      apply read_at_splice_low; [exact Hr | lia | lia | lia].
Qed.

Lemma set_keeps_other_components_witness :
  exists s',
    set_entity t_pos 0 0 [b2; b2] held_state = Ok s'
    /\ get_value t_name 0 1 s' = Ok [b1; b1; b1].
Proof.
  eexists. split; [reflexivity|].
  apply (set_keeps_other_components held_program held_state t_pos t_name
           0 0 1 [b2; b2] [b1; b1; b1]);
    first [reflexivity | discriminate].
Defined.

Lemma length_grown_fits e off csize :
  off + csize <= length (grown e off csize).
Proof.
  unfold grown. destruct (Nat.ltb_spec (length (data e)) off).
  - rewrite length_resize. lia.
  - rewrite !length_app, length_take, length_replicate, length_drop. lia.
Qed.

(** X9 — [set] of an absent component makes its own room.  In every state
    the public interface can reach, raw replacement of records included,
    whatever the length of the buffer of the record, a [set] of a
    registered component that is absent, with a value of the registered
    size, returns, and [get] then gives the value. *)
Theorem set_absent_round_trip ops s ty (en : entity) (e : elem)
    (c : component_id) (val : list byte) :
  run ops storage_init = Ok s ->
  lookup_entity en (entities_ s) = Some e ->
  c < length (components_ s) -> c < bitset_width ->
  N.testbit (components e) (N.of_nat c) = false ->
  component_size (components_ s) c = storage_size ty ->
  length val = storage_size ty ->
  exists s',
    set_entity ty en c val s = Ok s'
    /\ get_value ty en c s' = Ok val.
Proof.
  intros Hrun Hl Hc Hw Hp Hsz Hval.
  destruct (run_init_inv _ _ Hrun) as [Hoff _].
  set (off := scan_offset (components_ s) (components e) c).
  set (d1 := grown e off (component_size (components_ s) c)).
  pose proof (length_grown_fits e off (component_size (components_ s) c)) as Hfit.
  fold d1 in Hfit.
  destruct (write_at off val d1) as [d2|f] eqn:Hwr.
  2:{ unfold write_at in Hwr.
      destruct (Nat.leb_spec (off + length val) (length d1)); [discriminate|lia]. }
  set (e' := {| components := N.setbit (components e) (N.of_nat c);
                dirty := N.setbit (dirty e) (N.of_nat c);
                data := d2 |}).
  exists (log_events (construct ty en c) (store_elem en e' s)). split.
  - unfold set_entity. rewrite (find_present _ _ _ Hl). unfold set.
    destruct (Nat.ltb_spec c (length (components_ s))) as [_|]; [|lia].
    cbn [negb]. rewrite (deref_Some _ _ _ Hl). cbn [bind].
    rewrite (offset_scan s e c Hoff Hc). cbn [bind]. fold off.
    rewrite (bitset_test_lt _ _ Hw). cbn [bind]. rewrite Hp. cbn [negb bind].
    rewrite (bitset_set_lt _ _ Hw). cbn [bind data components dirty].
    fold d1.
    destruct (Nat.leb_spec (off + storage_size ty) (length d1)); [|lia].
    cbn [negb]. rewrite Hwr. cbn [bind].
    rewrite (bitset_set_lt _ _ Hw). reflexivity.
  - apply get_value_Ok. exists e', off.
    split; [apply (lookup_store_elem en e' _ s e Hl)|].
    split; [exact Hw|]. split; [apply N.setbit_eq|]. split.
    + rewrite (offset_same s) by (repeat split).
      rewrite (offset_scan s e' c Hoff Hc). f_equal.
      apply scan_offset_ext; [|reflexivity].
      intros i Hi. apply N.setbit_neq. lia.
    + rewrite <- Hval. eapply read_at_write_at, Hwr.
Qed.

Lemma set_absent_round_trip_witness :
  run (sample_program ++ [op_set_raw_data 1 1%N []]) storage_init
  = Ok stray_state
  /\ exists s',
       set_entity t_name 1 1 [b2; b1; b2] stray_state = Ok s'
       /\ get_value t_name 1 1 s' = Ok [b2; b1; b2].
Proof.
  split; [reflexivity|].
  apply (set_absent_round_trip
           (sample_program ++ [op_set_raw_data 1 1%N []])
           stray_state t_name 1
           {| components := 1%N; dirty := 1%N; data := [] |} 1
           [b2; b1; b2]);
    first [reflexivity | simpl; unfold bitset_width; lia].
Defined.

(** On a record whose buffer is shorter than its presence mask says, which
    [set_raw_data] can leave behind, [set] of a present component fails its
    assertion on the size of the buffer. *)
Example set_present_short_buffer :
  set_entity t_name 1 1 [b2; b1; b2] short_state = Fault Assertion_failed.
Proof. reflexivity. Qed.

(** ** The typed accessor *)

(** X10 — assignment through an accessor.  When the slot of the accessor
    lies inside the buffer of its record, an assignment of a value of the
    size of its type returns; the accessor then reads the value back; the
    record has its dirty bit set, its presence mask unchanged and a buffer
    of the same length; and no entity is added or removed. *)
Theorem var_ref_assign_round_trip (r : var_ref) (val : list byte) s (e : elem) :
  lookup_entity (e_ r) (entities_ s) = Some e ->
  offset_ r + length val <= length (data e) ->
  component_ r < bitset_width ->
  length val = storage_size (type_ r) ->
  exists s' d,
    var_ref_assign r val s = Ok s'
    /\ var_ref_get r s' = Ok val
    /\ lookup_entity (e_ r) (entities_ s')
       = Some {| components := components e;
                 dirty := N.setbit (dirty e) (N.of_nat (component_ r));
                 data := d |}
    /\ length d = length (data e)
    /\ keys (entities_ s') = keys (entities_ s).
Proof.
  intros Hl Hfit Hw Hval.
  destruct (write_at (offset_ r) val (data e)) as [d|f] eqn:Hwr.
  2:{ unfold write_at in Hwr.
      destruct (Nat.leb_spec (offset_ r + length val) (length (data e)));
        [discriminate | lia]. }
  set (e1 := {| components := components e; dirty := dirty e; data := d |}).
  set (e2 := {| components := components e;
                dirty := N.setbit (dirty e) (N.of_nat (component_ r));
                data := d |}).
  set (evs := construct (type_ r) (e_ r) (component_ r)).
  assert (Hassign : var_ref_assign r val s
                    = Ok (log_events evs (store_elem (e_ r) e2 s))).
  { unfold var_ref_assign. rewrite (deref_Some _ _ _ Hl). cbn [bind].
    rewrite Hwr. cbn [bind]. fold e1 evs. unfold touch.
    rewrite (deref_Some _ (e_ r) e1)
      by (apply (lookup_store_elem (e_ r) e1 evs s e Hl)).
    cbn [bind]. rewrite (bitset_set_lt _ _ Hw). cbn [bind].
    rewrite store_elem_twice. reflexivity. }
  assert (Hl2 : lookup_entity (e_ r)
                  (entities_ (log_events evs (store_elem (e_ r) e2 s)))
                = Some e2).
  { apply (lookup_store_elem (e_ r) e2 evs s e Hl). }
  exists (log_events evs (store_elem (e_ r) e2 s)), d.
  split; [exact Hassign|]. split.
  - unfold var_ref_get. rewrite (deref_Some _ _ _ Hl2). cbn [bind].
    rewrite <- Hval. eapply read_at_write_at, Hwr.
  - split; [exact Hl2|]. split.
    + apply write_at_Ok in Hwr as (_ & _ & Hlen). exact Hlen.
    + apply keys_update_entity.
Qed.

Lemma var_ref_assign_round_trip_witness :
  exists s' d,
    var_ref_assign sample_ref [b2; b2] sample_state = Ok s'
    /\ var_ref_get sample_ref s' = Ok [b2; b2]
    /\ lookup_entity 1 (entities_ s')
       = Some {| components := 1%N; dirty := N.setbit 1 0; data := d |}
    /\ length d = 2
    /\ keys (entities_ s') = keys (entities_ sample_state).
Proof.
  apply (var_ref_assign_round_trip sample_ref [b2; b2] sample_state
           {| components := 1%N; dirty := 1%N; data := [b1; b2] |});
    first [reflexivity | simpl; unfold bitset_width; lia].
Defined.

(** X11 — update in place through an accessor.  When the slot of the
    accessor lies inside the buffer of its record and the arithmetic of its
    type gives a value of that type, [+=] and its like return; the accessor
    then reads the value the arithmetic gave for the value that was there;
    and the record has its dirty bit set and its presence mask unchanged. *)
Theorem var_ref_update_reads_result (r : var_ref) (f : list byte -> list byte)
    s (e : elem) (old : list byte) :
  lookup_entity (e_ r) (entities_ s) = Some e ->
  var_ref_get r s = Ok old ->
  component_ r < bitset_width ->
  length (f old) = storage_size (type_ r) ->
  exists s' d,
    var_ref_update r f s = Ok s'
    /\ var_ref_get r s' = Ok (f old)
    /\ lookup_entity (e_ r) (entities_ s')
       = Some {| components := components e;
                 dirty := N.setbit (dirty e) (N.of_nat (component_ r));
                 data := d |}
    /\ length d = length (data e).
Proof.
  intros Hl Hold Hw Hf.
  pose proof Hold as Hget. unfold var_ref_get in Hget.
  rewrite (deref_Some _ _ _ Hl) in Hget. cbn [bind] in Hget.
  apply read_at_Ok in Hget as [Hfit _].
  assert (Hres : resize (storage_size (type_ r)) zero (f old) = f old).
  { rewrite <- Hf. apply resize_all. }
  destruct (write_at (offset_ r) (f old) (data e)) as [d|x] eqn:Hwr.
  2:{ unfold write_at in Hwr.
      destruct (Nat.leb_spec (offset_ r + length (f old)) (length (data e)));
        [discriminate | lia]. }
  set (e1 := {| components := components e; dirty := dirty e; data := d |}).
  set (e2 := {| components := components e;
                dirty := N.setbit (dirty e) (N.of_nat (component_ r));
                data := d |}).
  assert (Hl2 : lookup_entity (e_ r) (entities_ (store_elem (e_ r) e2 s))
                = Some e2).
  { apply (lookup_store_elem (e_ r) e2 [] s e Hl). }
  exists (store_elem (e_ r) e2 s), d. split.
  - unfold var_ref_update. rewrite Hold. cbn [bind].
    rewrite (deref_Some _ _ _ Hl). cbn [bind]. rewrite Hres, Hwr. cbn [bind].
    fold e1. unfold touch.
    rewrite (deref_Some _ (e_ r) e1)
      by (apply (lookup_store_elem (e_ r) e1 [] s e Hl)).
    cbn [bind]. rewrite (bitset_set_lt _ _ Hw). cbn [bind].
    unfold store_elem. simpl. rewrite update_entity_twice. reflexivity.
  - split.
    + unfold var_ref_get. rewrite (deref_Some _ _ _ Hl2). cbn [bind].
      rewrite <- Hf. eapply read_at_write_at, Hwr.
    + split; [exact Hl2|].
      apply write_at_Ok in Hwr as (_ & _ & Hlen). exact Hlen.
Qed.

Lemma var_ref_update_reads_result_witness :
  exists s' d,
    var_ref_update sample_ref bump sample_state = Ok s'
    /\ var_ref_get sample_ref s' = Ok [b2; b2]
    /\ lookup_entity 1 (entities_ s')
       = Some {| components := 1%N; dirty := N.setbit 1 0; data := d |}
    /\ length d = 2.
Proof.
  apply (var_ref_update_reads_result sample_ref bump sample_state
           {| components := 1%N; dirty := 1%N; data := [b1; b2] |} [b1; b2]);
    first [reflexivity | simpl; unfold bitset_width; lia].
Defined.

(** ** The overloads of [for_each] *)

Lemma selection_testbit (cs : list component_id) (m : bitset) (i : N) :
  N.testbit (fold_left (fun m c => N.setbit m (N.of_nat c)) cs m) i = true
  <-> N.testbit m i = true \/ exists c, c ∈ cs /\ N.of_nat c = i.
Proof.
  revert m. induction cs as [|c cs IH]; intros m; simpl.
  - split; [auto | intros [H|(c & Hc & _)]; [exact H|]].
    apply elem_of_nil in Hc. contradiction.
  - rewrite IH, N.setbit_eqb, orb_true_iff, N.eqb_eq. split.
    + intros [[H|H]|(c' & Hc' & H)].
      * right. exists c. split; [apply list_elem_of_here | exact H].
      * auto.
      * right. exists c'. split; [apply list_elem_of_further, Hc' | exact H].
    + intros [H|(c' & Hc' & H)]; [auto|].
      apply elem_of_cons in Hc' as [->|Hc']; [auto | eauto].
Qed.

(** A presence mask includes the selection of a list of ids exactly when
    it has every id of the list. *)
Lemma includes_selection (cs : list component_id) (e : elem) :
  includes (components e) (selection cs) = true <-> has_all cs e.
Proof.
  unfold has_all, selection. rewrite includes_spec, Forall_forall. split.
  - intros H c Hc. apply H. apply selection_testbit. right. eauto.
  - intros H i Hi. apply selection_testbit in Hi as [Hi|(c & Hc & <-)].
    + rewrite N.bits_0 in Hi. discriminate.
    + apply H, Hc.
Qed.

(** The scan over the whole table, for a call that is local. *)
Lemma scan_table_visits (mask : bitset)
    (visit : entity -> elem -> storage -> result storage) s :
  NoDup (keys (entities_ s)) ->
  (forall k e s1 pre post,
     same_registry s s1 ->
     entities_ s1 = pre ++ (k, e) :: post ->
     k ∉ keys pre ->
     includes (components e) mask = true ->
     exists s2,
       visit k e s1 = Ok s2
       /\ same_registry s s2
       /\ (entities_ s2 = pre ++ post
           \/ exists e', entities_ s2 = pre ++ (k, e') :: post)) ->
  exists s',
    scan_entities (length (entities_ s)) mask visit
      (begin_entities (entities_ s)) s []
    = Ok (s', qualifying mask (entities_ s)).
Proof.
  intros Hnd Hvisit.
  destruct (scan_entities_visits (same_registry s) mask visit Hvisit
              (entities_ s) (length (entities_ s)) [] s [])
    as [s' Hs']; [apply same_registry_refl | reflexivity | exact Hnd | lia |].
  exists s'. exact Hs'.
Qed.

Lemma qualifying_selection (cs : list component_id) (l : list (entity * elem))
    (k : entity) :
  k ∈ qualifying (selection cs) l
  <-> exists e, (k, e) ∈ l /\ has_all cs e.
Proof.
  rewrite elem_of_qualifying. split; intros (e & Hin & H); exists e;
    (split; [exact Hin | apply includes_selection, H]).
Qed.

Lemma delete_current2_acts : acts_on_current2 delete_current2.
Proof.
  intros k r1 r2 s s' _ _ H.
  apply delete_entity_at_Ok in H as (k0 & e & [= <-] & _ & ->).
  split; [repeat split | apply changed_at_erase].
Qed.

Lemma delete_current3_acts : acts_on_current3 delete_current3.
Proof.
  intros k r1 r2 r3 s s' _ _ _ H.
  apply delete_entity_at_Ok in H as (k0 & e & [= <-] & _ & ->).
  split; [repeat split | apply changed_at_erase].
Qed.

(** A callback that assigns through one of its accessors acts on the
    current entity. *)
Lemma assign_second_acts val : acts_on_current2 (assign_second val).
Proof.
  intros k r1 r2 s s' _ Hr H. unfold assign_second in H.
  apply var_ref_assign_Ok in H as (? & ? & _ & _ & _ & ->). rewrite Hr.
  split; [repeat split | apply changed_at_store].
Qed.

Lemma head_key_elem (k : entity) (e : elem) (pre post : stor_impl) :
  k ∈ keys (pre ++ (k, e) :: post).
Proof.
  rewrite keys_app. apply elem_of_app. right. apply list_elem_of_here.
Qed.

(** X12 — the scan of two components.  In every state the public
    interface can reach, when the callback changes or deletes no record but
    the one of the entity it is called on, through its accessors or
    otherwise, [for_each] with two accessors does exactly what calling the
    callback in turn on the entities that have both components does: it
    ends in the state those calls lead to, having called the callback on
    those entities in table order, on each once and on no other.  For
    registered components and a callback that returns on every entity of
    the table it returns. *)
Theorem for_each2_deletion_safe ops s t1 t2 (c1 c2 : component_id)
    (func : iterator -> var_ref -> var_ref -> storage -> result storage) :
  run ops storage_init = Ok s ->
  c1 < bitset_width -> c2 < bitset_width ->
  acts_on_current2 func ->
  for_each2 t1 t2 c1 c2 func s
  = (let* s' := call_in_turn2 t1 t2 c1 c2 func
                  (qualifying (selection [c1; c2]) (entities_ s)) s in
     Ok (s', qualifying (selection [c1; c2]) (entities_ s)))
  /\ NoDup (qualifying (selection [c1; c2]) (entities_ s))
  /\ (forall k,
        k ∈ qualifying (selection [c1; c2]) (entities_ s)
        <-> exists e, (k, e) ∈ entities_ s /\ has_all [c1; c2] e)
  /\ (c1 < length (components_ s) -> c2 < length (components_ s) ->
      returns_on_current2 func ->
      exists s',
        for_each2 t1 t2 c1 c2 func s
        = Ok (s', qualifying (selection [c1; c2]) (entities_ s))).
Proof.
  intros Hrun Hw1 Hw2 Hacts.
  destruct (run_init_inv _ _ Hrun) as [Hoff [Hnd _]].
  assert (Hfor : for_each2 t1 t2 c1 c2 func s
                 = scan_entities (length (entities_ s)) (selection [c1; c2])
                     (accessor_call2 t1 t2 c1 c2 func)
                     (begin_entities (entities_ s)) s []).
  { unfold for_each2. rewrite (bitset_set_lt _ _ Hw1). cbn [bind].
    rewrite (bitset_set_lt _ _ Hw2). reflexivity. }
  split; [|split; [|split]].
  - rewrite Hfor. apply scan_table_in_turn; [exact Hnd|].
    intros k e s1 s2 Hv. unfold accessor_call2 in Hv.
    inv_bind Hv. inv_bind Hv.
    exact (proj2 (Hacts k (make_var_ref a k c1 t1) (make_var_ref a0 k c2 t2)
                    s1 s2 eq_refl eq_refl Hv)).
  - eapply sublist_NoDup; [exact Hnd | apply qualifying_sublist].
  - intros k. apply qualifying_selection.
  - intros Hc1 Hc2 Hret. rewrite Hfor.
    apply scan_table_visits; [exact Hnd|].
    intros k e s1 pre post HR Hs1 Hk Hq. unfold accessor_call2.
    rewrite !(offset_same s s1 e _ HR).
    rewrite (offset_scan s e c1 Hoff Hc1), (offset_scan s e c2 Hoff Hc2).
    cbn [bind].
    set (r1 := make_var_ref (scan_offset (components_ s) (components e) c1)
                 k c1 t1).
    set (r2 := make_var_ref (scan_offset (components_ s) (components e) c2)
                 k c2 t2).
    destruct (Hret k r1 r2 s1) as [s2 Hf];
      [rewrite Hs1; apply head_key_elem|].
    destruct (Hacts k r1 r2 s1 s2 eq_refl eq_refl Hf) as [Hreg Hch].
    exists s2. split; [exact Hf|]. split.
    + eapply same_registry_trans; eassumption.
    + exact (Hch pre e post Hs1 Hk).
Qed.

Lemma for_each2_deletion_safe_witness :
  run sample_program storage_init = Ok sample_state
  /\ for_each2 t_pos t_name 0 1 (assign_second [b2; b1; b2]) sample_state
     = (let* s' := call_in_turn2 t_pos t_name 0 1 (assign_second [b2; b1; b2])
                     (qualifying (selection [0; 1]) (entities_ sample_state))
                     sample_state in
        Ok (s', qualifying (selection [0; 1]) (entities_ sample_state))).
Proof.
  split; [reflexivity|].
  apply (for_each2_deletion_safe sample_program sample_state t_pos t_name 0 1
           (assign_second [b2; b1; b2]));
    [reflexivity | unfold bitset_width; lia | unfold bitset_width; lia
    | apply assign_second_acts].
Defined.

(** X13 — the scan of three components: as for two, [for_each] with three
    accessors does exactly what calling the callback in turn on the
    entities that have all three components does, and returns when the
    callback does. *)
Theorem for_each3_deletion_safe ops s t1 t2 t3 (c1 c2 c3 : component_id)
    (func : iterator -> var_ref -> var_ref -> var_ref -> storage
            -> result storage) :
  run ops storage_init = Ok s ->
  c1 < bitset_width -> c2 < bitset_width -> c3 < bitset_width ->
  acts_on_current3 func ->
  for_each3 t1 t2 t3 c1 c2 c3 func s
  = (let* s' := call_in_turn3 t1 t2 t3 c1 c2 c3 func
                  (qualifying (selection [c1; c2; c3]) (entities_ s)) s in
     Ok (s', qualifying (selection [c1; c2; c3]) (entities_ s)))
  /\ NoDup (qualifying (selection [c1; c2; c3]) (entities_ s))
  /\ (forall k,
        k ∈ qualifying (selection [c1; c2; c3]) (entities_ s)
        <-> exists e, (k, e) ∈ entities_ s /\ has_all [c1; c2; c3] e)
  /\ (c1 < length (components_ s) -> c2 < length (components_ s) ->
      c3 < length (components_ s) ->
      returns_on_current3 func ->
      exists s',
        for_each3 t1 t2 t3 c1 c2 c3 func s
        = Ok (s', qualifying (selection [c1; c2; c3]) (entities_ s))).
Proof.
  intros Hrun Hw1 Hw2 Hw3 Hacts.
  destruct (run_init_inv _ _ Hrun) as [Hoff [Hnd _]].
  assert (Hfor : for_each3 t1 t2 t3 c1 c2 c3 func s
                 = scan_entities (length (entities_ s))
                     (selection [c1; c2; c3])
                     (accessor_call3 t1 t2 t3 c1 c2 c3 func)
                     (begin_entities (entities_ s)) s []).
  { unfold for_each3. rewrite (bitset_set_lt _ _ Hw1). cbn [bind].
    rewrite (bitset_set_lt _ _ Hw2). cbn [bind].
    rewrite (bitset_set_lt _ _ Hw3). reflexivity. }
  split; [|split; [|split]].
  - rewrite Hfor. apply scan_table_in_turn; [exact Hnd|].
    intros k e s1 s2 Hv. unfold accessor_call3 in Hv.
    inv_bind Hv. inv_bind Hv. inv_bind Hv.
    exact (proj2 (Hacts k (make_var_ref a k c1 t1) (make_var_ref a0 k c2 t2)
                    (make_var_ref a1 k c3 t3) s1 s2
                    eq_refl eq_refl eq_refl Hv)).
  - eapply sublist_NoDup; [exact Hnd | apply qualifying_sublist].
  - intros k. apply qualifying_selection.
  - intros Hc1 Hc2 Hc3 Hret. rewrite Hfor.
    apply scan_table_visits; [exact Hnd|].
    intros k e s1 pre post HR Hs1 Hk Hq. unfold accessor_call3.
    rewrite !(offset_same s s1 e _ HR).
    rewrite (offset_scan s e c1 Hoff Hc1), (offset_scan s e c2 Hoff Hc2),
      (offset_scan s e c3 Hoff Hc3).
    cbn [bind].
    set (r1 := make_var_ref (scan_offset (components_ s) (components e) c1)
                 k c1 t1).
    set (r2 := make_var_ref (scan_offset (components_ s) (components e) c2)
                 k c2 t2).
    set (r3 := make_var_ref (scan_offset (components_ s) (components e) c3)
                 k c3 t3).
    destruct (Hret k r1 r2 r3 s1) as [s2 Hf];
      [rewrite Hs1; apply head_key_elem|].
    destruct (Hacts k r1 r2 r3 s1 s2 eq_refl eq_refl eq_refl Hf)
      as [Hreg Hch].
    exists s2. split; [exact Hf|]. split.
    + eapply same_registry_trans; eassumption.
    + exact (Hch pre e post Hs1 Hk).
Qed.

Lemma for_each3_deletion_safe_witness :
  run sample_program storage_init = Ok sample_state
  /\ for_each3 t_pos t_name t_pos 0 1 0 delete_current3 sample_state
     = (let* s' := call_in_turn3 t_pos t_name t_pos 0 1 0 delete_current3
                     (qualifying (selection [0; 1; 0]) (entities_ sample_state))
                     sample_state in
        Ok (s', qualifying (selection [0; 1; 0]) (entities_ sample_state))).
Proof.
  split; [reflexivity|].
  apply (for_each3_deletion_safe sample_program sample_state
           t_pos t_name t_pos 0 1 0 delete_current3);
    [reflexivity | unfold bitset_width; lia | unfold bitset_width; lia
    | unfold bitset_width; lia | apply delete_current3_acts].
Defined.

(** The scans of the sample table, of which entity 0 alone has both
    components: with the callback that deletes, entity 0 is gone and
    entity 1 is left; with the callback that assigns through its second
    accessor, the value is in component 1 of entity 0. *)
Example for_each2_sample :
  exists s',
    for_each2 t_pos t_name 0 1 delete_current2 sample_state = Ok (s', [0])
    /\ keys (entities_ s') = [1].
Proof. eexists. split; reflexivity. Qed.

Example for_each2_assign_sample :
  exists s',
    for_each2 t_pos t_name 0 1 (assign_second [b2; b1; b2]) sample_state
    = Ok (s', [0])
    /\ get_value t_name 0 1 s' = Ok [b2; b1; b2].
Proof. eexists. split; reflexivity. Qed.

Lemma inert_local : local_callback inert.
Proof.
  intros k r s pre e post Hs Hk. exists s.
  split; [reflexivity|]. split; [apply same_registry_refl|].
  right. exists e. exact Hs.
Qed.

(** X14 — a scan writes nothing of its own.  In every state the public
    interface can reach, [for_each] over a registered component with a
    callback that changes nothing returns the store as it was, and has
    called the callback on the entities that have the component, on each
    once. *)
Theorem for_each_inert ops s t (c : component_id) :
  run ops storage_init = Ok s ->
  c < length (components_ s) -> c < bitset_width ->
  for_each t c inert s = Ok (s, qualifying (selection [c]) (entities_ s)).
Proof.
  intros Hrun Hc Hw.
  destruct (run_init_inv _ _ Hrun) as [Hoff [Hnd _]].
  set (visit := fun (k : entity) (e : elem) (s1 : storage) =>
                  let* off := offset s1 e c in
                  inert (Some k) (make_var_ref off k c t) s1).
  destruct (scan_table_visits (selection [c]) visit s Hnd) as [s' Hs'].
  - intros k e s1 pre post HR Hs1 Hk Hq. unfold visit.
    rewrite (offset_same s s1 e _ HR), (offset_scan s e c Hoff Hc).
    cbn [bind].
    destruct (inert_local k
                (make_var_ref (scan_offset (components_ s) (components e) c)
                   k c t) s1 pre e post Hs1 Hk) as (s2 & Hf & Hreg & Hent).
    exists s2. split; [exact Hf|]. split; [|exact Hent].
    eapply same_registry_trans; eassumption.
  - assert (s' = s) as ->.
    { symmetry.
      eapply (scan_entities_preserves (eq s) (selection [c]) visit);
        [|reflexivity|exact Hs'].
      intros k e s1 s2 <- _ _ Hv. unfold visit in Hv. inv_bind Hv.
      injection Hv as <-. reflexivity. }
    unfold for_each. rewrite (bitset_set_lt _ _ Hw). cbn [bind]. exact Hs'.
Qed.

Lemma for_each_inert_witness :
  run sample_program storage_init = Ok sample_state
  /\ for_each t_name 1 inert sample_state
     = Ok (sample_state, qualifying (selection [1]) (entities_ sample_state)).
Proof.
  split; [reflexivity|].
  apply (for_each_inert sample_program sample_state t_name 1);
    [reflexivity | simpl; lia | unfold bitset_width; lia].
Defined.

(** ** Raw data *)

Lemma update_entity_same (k : entity) (e : elem) (l : stor_impl) :
  lookup_entity k l = Some e -> update_entity k e l = l.
Proof.
  induction l as [|[k' e'] l IH]; simpl; [reflexivity|].
  destruct (Nat.eqb_spec k' k) as [->|Hne].
  - intros [= ->]. reflexivity.
  - intros H. f_equal. exact (IH H).
Qed.

Lemma offset_components s (e1 e2 : elem) (c : component_id) :
  components e1 = components e2 -> offset s e1 c = offset s e2 c.
Proof. intros H. unfold offset. rewrite H. reflexivity. Qed.

(** X15 — raw data round trip.  For an entity of the table,
    [set_raw_data] returns, and [get_raw_data] then gives the presence mask
    and the buffer it was handed; the dirty mask of the record is the one
    it had, every other record is as it was, and no entity is added or
    removed. *)
Theorem set_raw_data_round_trip (k : entity) (e : elem) (comps : bitset)
    (d : list byte) s :
  lookup_entity k (entities_ s) = Some e ->
  exists s',
    set_raw_data (Some k) comps d s = Ok s'
    /\ get_raw_data (Some k) s' = Ok (comps, d)
    /\ lookup_entity k (entities_ s')
       = Some {| components := comps; dirty := dirty e; data := d |}
    /\ (forall k', k' <> k ->
          lookup_entity k' (entities_ s') = lookup_entity k' (entities_ s))
    /\ keys (entities_ s') = keys (entities_ s)
    /\ same_registry s s'.
Proof.
  intros Hl.
  set (e' := {| components := comps; dirty := dirty e; data := d |}).
  assert (Hl' : lookup_entity k (entities_ (store_elem k e' s)) = Some e').
  { apply (lookup_store_elem k e' [] s e Hl). }
  exists (store_elem k e' s). split.
  - unfold set_raw_data. rewrite (deref_Some _ _ _ Hl). reflexivity.
  - split.
    + unfold get_raw_data. rewrite (deref_Some _ _ _ Hl'). reflexivity.
    + split; [exact Hl'|]. split.
      * intros k' Hne. simpl. apply lookup_update_entity_ne. congruence.
      * split; [apply keys_update_entity | repeat split].
Qed.

Lemma set_raw_data_round_trip_witness :
  exists s',
    set_raw_data (Some 1) 2%N [b2; b2; b2] sample_state = Ok s'
    /\ get_raw_data (Some 1) s' = Ok (2%N, [b2; b2; b2]).
Proof.
  destruct (set_raw_data_round_trip 1
              {| components := 1%N; dirty := 1%N; data := [b1; b2] |}
              2%N [b2; b2; b2] sample_state eq_refl)
    as (s' & Hset & Hget & _).
  exists s'. split; assumption.
Defined.

(** X16 — putting back what was got.  Handing [set_raw_data] the presence
    mask and the buffer [get_raw_data] gave for the same entity leaves the
    store as it was. *)
Theorem get_then_set_raw_data (en : iterator) (comps : bitset)
    (d : list byte) s :
  get_raw_data en s = Ok (comps, d) ->
  set_raw_data en comps d s = Ok s.
Proof.
  unfold get_raw_data, set_raw_data. intros H. inv_bind H.
  destruct a as [k e]. rewrite Hstep. cbn [bind].
  apply deref_Ok in Hstep as [-> Hl]. injection H as <- <-.
  f_equal. destruct s, e. unfold store_elem. simpl in *.
  rewrite (update_entity_same _ _ _ Hl). reflexivity.
Qed.

Lemma get_then_set_raw_data_witness :
  set_raw_data (Some 0) 3%N [b2; b2; b1; b1; b1] sample_state = Ok sample_state.
Proof.
  apply (get_then_set_raw_data (Some 0) 3%N [b2; b2; b1; b1; b1] sample_state).
  reflexivity.
Defined.

(** X17 — a raw copy carries the values.  After the presence mask and the
    buffer [get_raw_data] gave for one entity were handed to [set_raw_data]
    for another, [get] gives for every component of the second entity what
    it gives for that component of the first: the same value, or the same
    fault. *)
Theorem raw_copy_carries_values (a b : entity) (comps : bitset)
    (d : list byte) s s' ty (c : component_id) :
  get_raw_data (Some a) s = Ok (comps, d) ->
  set_raw_data (Some b) comps d s = Ok s' ->
  get_value ty b c s' = get_value ty a c s.
Proof.
  unfold get_raw_data, set_raw_data. intros Hget Hset.
  inv_bind Hget. destruct a0 as [ka ea].
  apply deref_Ok in Hstep as [[= <-] Hla]. injection Hget as <- <-.
  inv_bind Hset. destruct a0 as [kb eb].
  apply deref_Ok in Hstep as [[= <-] Hlb]. injection Hset as <-.
  set (e' := {| components := components ea; dirty := dirty eb;
                data := data ea |}).
  assert (Hl' : lookup_entity b (entities_ (store_elem b e' s)) = Some e').
  { apply (lookup_store_elem b e' [] s eb Hlb). }
  rewrite !get_value_unfold, Hl', Hla.
  rewrite (offset_same s (store_elem b e' s)) by (repeat split).
  rewrite (offset_components s e' ea c eq_refl). reflexivity.
Qed.

Lemma raw_copy_carries_values_witness :
  exists s',
    set_raw_data (Some 1) 3%N [b2; b2; b1; b1; b1] sample_state = Ok s'
    /\ get_value t_name 1 1 s' = Ok [b1; b1; b1].
Proof.
  eexists. split; [reflexivity|].
  rewrite (raw_copy_carries_values 0 1 3%N [b2; b2; b1; b1; b1] sample_state
             _ t_name 1 eq_refl eq_refl).
  reflexivity.
Defined.

(** ** Accessors and [get] *)

(** The accessor [for_each] makes for a present component reads what [get]
    gives. *)
Lemma var_ref_get_get_value s (k : entity) (e : elem) (c : component_id)
    (t : ctype) (off : nat) :
  lookup_entity k (entities_ s) = Some e ->
  c < bitset_width ->
  N.testbit (components e) (N.of_nat c) = true ->
  offset s e c = Ok off ->
  var_ref_get (make_var_ref off k c t) s = get_value t k c s.
Proof.
  intros Hl Hw Hp Ho. rewrite get_value_unfold, Hl.
  rewrite (bitset_test_lt _ _ Hw). cbn [bind]. rewrite Hp. cbn [negb].
  rewrite Ho. cbn [bind]. unfold var_ref_get.
  cbn [make_var_ref e_ offset_ type_].
  rewrite (deref_Some _ _ _ Hl). reflexivity.
Qed.

(** X18 — what [set] wrote, a scan reads.  In a state reached through the
    typed operations, after [set] of a value of the registered size the
    record of the entity includes the selection of the component, and the
    accessor [for_each] makes for it, at the offset of the component in the
    record, reads the value. *)
Theorem set_then_accessor_reads ops s ty (en : entity) (c : component_id)
    (val : list byte) :
  forallb typed ops = true ->
  run ops storage_init = Ok s ->
  exists_ s en = true ->
  c < length (components_ s) -> c < bitset_width ->
  component_size (components_ s) c = storage_size ty ->
  length val = storage_size ty ->
  exists s' e' off,
    set_entity ty en c val s = Ok s'
    /\ lookup_entity en (entities_ s') = Some e'
    /\ includes (components e') (selection [c]) = true
    /\ offset s' e' c = Ok off
    /\ var_ref_get (make_var_ref off en c ty) s' = Ok val.
Proof.
  intros Hty Hrun Hex Hc Hw Hsz Hval.
  pose proof (run_init_elems_ok _ _ Hty Hrun) as Hs.
  destruct (run_init_inv _ _ Hrun) as [Hoff _].
  apply exists_true in Hex as [e Hl].
  pose proof (elems_ok_lookup _ _ _ Hs Hl) as He.
  destruct (set_succeeds ty en c val s e Hoff Hl He Hc Hw Hsz Hval)
    as (d & Hrd & Hset).
  set (e' := {| components := N.setbit (components e) (N.of_nat c);
                dirty := N.setbit (dirty e) (N.of_nat c);
                data := d |}) in *.
  set (s' := log_events (construct ty en c) (store_elem en e' s)) in *.
  assert (Hl' : lookup_entity en (entities_ s') = Some e').
  { apply (lookup_store_elem en e' _ s e Hl). }
  assert (Ho' : offset s' e' c
                = Ok (scan_offset (components_ s) (components e) c)).
  { rewrite (offset_same s s') by (repeat split).
    rewrite (offset_scan s e' c Hoff Hc). f_equal.
    apply scan_offset_ext; [|reflexivity].
    intros i Hi. apply N.setbit_neq. lia. }
  exists s', e', (scan_offset (components_ s) (components e) c).
  split; [unfold set_entity; rewrite (find_present _ _ _ Hl); exact Hset|].
  split; [exact Hl'|]. split.
  { apply includes_selection. constructor; [apply N.setbit_eq | constructor]. }
  split; [exact Ho'|].
  unfold var_ref_get. cbn [make_var_ref e_ offset_ type_].
  rewrite (deref_Some _ _ _ Hl'). cbn [bind].
  simpl data. rewrite <- Hval. exact Hrd.
Qed.

Lemma set_then_accessor_reads_witness :
  run sample_program storage_init = Ok sample_state
  /\ exists s' e' off,
       set_entity t_name 1 1 [b2; b1; b2] sample_state = Ok s'
       /\ lookup_entity 1 (entities_ s') = Some e'
       /\ includes (components e') (selection [1]) = true
       /\ offset s' e' 1 = Ok off
       /\ var_ref_get (make_var_ref off 1 1 t_name) s' = Ok [b2; b1; b2].
Proof.
  split; [reflexivity|].
  apply (set_then_accessor_reads sample_program sample_state t_name 1 1
           [b2; b1; b2]);
    first [reflexivity | simpl; unfold bitset_width; lia].
Defined.

(** X19 — what an accessor wrote, [get] gives.  For the accessor of a
    present component at the offset of the component in its record, once a
    value of the size of the type was assigned through it, [get] gives that
    value for the component, and every other entity has the values it had. *)
Theorem accessor_assign_then_get s (k : entity) (e : elem) (c : component_id)
    (t : ctype) (off : nat) (val : list byte) s' :
  lookup_entity k (entities_ s) = Some e ->
  N.testbit (components e) (N.of_nat c) = true ->
  offset s e c = Ok off ->
  length val = storage_size t ->
  var_ref_assign (make_var_ref off k c t) val s = Ok s' ->
  get_value t k c s' = Ok val
  /\ forall t' k' c', k' <> k ->
       get_value t' k' c' s' = get_value t' k' c' s.
Proof.
  intros Hl Hp Ho Hval H.
  apply var_ref_assign_Ok in H as (e0 & d & Hl0 & Hwr & Hw & ->).
  simpl in Hl0, Hwr, Hw. rewrite Hl in Hl0. injection Hl0 as <-.
  set (e' := {| components := components e;
                dirty := N.setbit (dirty e) (N.of_nat c);
                data := d |}).
  cbn [make_var_ref e_ component_ type_].
  set (s' := log_events (construct t k c) (store_elem k e' s)).
  assert (Hl' : lookup_entity k (entities_ s') = Some e').
  { apply (lookup_store_elem k e' _ s e Hl). }
  split.
  - apply get_value_Ok. exists e', off. split; [exact Hl'|].
    split; [exact Hw|]. split; [exact Hp|]. split.
    + rewrite (offset_same s s') by (repeat split).
      rewrite (offset_components s e' e c eq_refl). exact Ho.
    + rewrite <- Hval. eapply read_at_write_at, Hwr.
  - intros t' k' c' Hne. apply get_value_same; [repeat split|].
    simpl. apply lookup_update_entity_ne. congruence.
Qed.

Lemma accessor_assign_then_get_witness :
  exists s',
    var_ref_assign (make_var_ref 2 0 1 t_name) [b2; b1; b2] sample_state = Ok s'
    /\ get_value t_name 0 1 s' = Ok [b2; b1; b2].
Proof.
  eexists. split; [reflexivity|].
  apply (accessor_assign_then_get sample_state 0 sample_elem 1 t_name 2
           [b2; b1; b2]);
    reflexivity.
Defined.

(** ** The flat mask *)

Lemma flat_mask_inv_register ty nm s (id : component_id) s' :
  register_component ty nm s = Ok (id, s') ->
  flat_mask_inv s -> flat_mask_inv s'.
Proof.
  unfold register_component. intros H Hinv. inv_bind H.
  injection H as _ <-. intros i. simpl.
  destruct (Nat.lt_total i (length (components_ s))) as [Hlt|[->|Hgt]].
  - rewrite lookup_app_l by exact Hlt. rewrite <- Hinv.
    destruct (is_flat ty); [injection Hstep as <-; reflexivity|].
    apply bitset_set_Ok in Hstep as [_ ->]. apply N.setbit_neq. lia.
  - rewrite lookup_app_r by lia. rewrite Nat.sub_diag. simpl.
    pose proof (Hinv (length (components_ s))) as Hn.
    rewrite lookup_ge_None_2 in Hn by lia.
    destruct (is_flat ty); [injection Hstep as <-; exact Hn|].
    apply bitset_set_Ok in Hstep as [_ ->]. apply N.setbit_eq.
  - rewrite lookup_ge_None_2 by (rewrite length_app; simpl; lia).
    pose proof (Hinv i) as Hi. rewrite lookup_ge_None_2 in Hi by lia.
    destruct (is_flat ty); [injection Hstep as <-; exact Hi|].
    apply bitset_set_Ok in Hstep as [_ ->].
    rewrite N.setbit_neq by lia. exact Hi.
Qed.

Lemma run_flat_mask_inv ops s s' :
  run ops s = Ok s' -> flat_mask_inv s -> flat_mask_inv s'.
Proof.
  revert s. induction ops as [|o ops IH]; intros s H Hinv; simpl in H.
  - injection H as <-. exact Hinv.
  - inv_bind H. eapply IH; [exact H|].
    destruct o;
      try (apply step_same_registry in Hstep as (Hc & _ & Hm);
           [|discriminate]; unfold flat_mask_inv; rewrite Hc, Hm; exact Hinv).
    simpl in Hstep. inv_bind Hstep. destruct a0 as [id s1].
    injection Hstep as <-. eapply flat_mask_inv_register; eassumption.
Qed.

(** X20 — the flat mask follows the registry.  In every state the public
    interface can reach, the bit of an id in [flat_mask_] is set exactly
    when a component is registered under the id with a prototype, that is,
    with a type that is not flat. *)
Theorem flat_mask_follows_registry ops s (i : component_id) :
  run ops storage_init = Ok s ->
  non_flat s i = true
  <-> exists d, component_at s i = Ok d /\ c_prototype d = true.
Proof.
  intros Hrun.
  assert (Hinv : flat_mask_inv s).
  { eapply run_flat_mask_inv; [exact Hrun|]. intros j. reflexivity. }
  unfold non_flat, component_at. rewrite (Hinv i).
  unfold component_id in *.
  destruct (components_ s !! i) as [d|]; split.
  - intros H. exists d. split; [reflexivity | exact H].
  - intros (d' & [= <-] & H). exact H.
  - discriminate.
  - intros (d' & H & _). discriminate.
Qed.

Lemma flat_mask_follows_registry_witness :
  run sample_program storage_init = Ok sample_state
  /\ (non_flat sample_state 1 = true
      <-> exists d, component_at sample_state 1 = Ok d /\ c_prototype d = true).
Proof.
  split; [reflexivity|].
  apply (flat_mask_follows_registry sample_program sample_state 1).
  reflexivity.
Defined.
